(** * MEM::Integrand -- the matrix-element-method integrand (src/Integrand.cpp)

    A shallow embedding of the kinematic solver, the phase-space extension,
    the permutation engine and the integrand evaluation of
    [MEM::Integrand], together with the properties of these functions.

    C++ [double] arithmetic is written once, against the interface
    [Double], and read in two ways:
    - [ideal]: the real numbers (no rounding, no overflow, no NaN), for the
      algebraic properties;
    - [ieee]: binary64 with round-to-nearest, infinities and NaN, for
      evaluating the code on concrete inputs and for NaN handling. *)

From Stdlib Require Import Floats.PrimFloat.
From Stdlib Require Import Numbers.Cyclic.Int63.Uint63.
From Stdlib Require Import Reals Lra Lia ZArith List Bool Psatz.
Import ListNotations.

(* ================================================================= *)
(** ** The arithmetic of [double] *)

Declare Scope dbl_scope.
Delimit Scope dbl_scope with dbl.

Class Double (D : Type) : Type := {
  (** the literal [n/d], e.g. [1e-03] is [frac 1 1000] *)
  frac   : Z -> positive -> D;
  dadd   : D -> D -> D;
  dsub   : D -> D -> D;
  dmul   : D -> D -> D;
  ddiv   : D -> D -> D;
  dsqrt  : D -> D;
  (** [TMath::Abs] *)
  dabs   : D -> D;
  (** [x < y] and [x >= y] of C++ *)
  dlt    : D -> D -> bool;
  dge    : D -> D -> bool;
  (** [TMath::IsNaN] *)
  IsNaN  : D -> bool;
  (** [numeric_limits<double>::max()] *)
  numeric_limits_max : D
}.

Notation "x + y" := (dadd x y) : dbl_scope.
Notation "x - y" := (dsub x y) : dbl_scope.
Notation "x * y" := (dmul x y) : dbl_scope.
Notation "x / y" := (ddiv x y) : dbl_scope.
Notation "x <? y" := (dlt x y) : dbl_scope.
Notation "x >? y" := (dlt y x) : dbl_scope.
Notation "x >=? y" := (dge x y) : dbl_scope.
Notation "0" := (frac 0 1) : dbl_scope.
Notation "1" := (frac 1 1) : dbl_scope.

(** [TMath::Max(a,b)] is [a >= b ? a : b]. *)
Definition TMath_Max {D} `{Double D} (a b : D) : D :=
  if (a >=? b)%dbl then a else b.

(** *** Real numbers *)

Definition Rltb (x y : R) : bool := if Rlt_dec x y then true else false.
Definition Rgeb (x y : R) : bool := if Rge_dec x y then true else false.

#[export] Instance ideal : Double R := {|
  frac n d := (IZR n / IZR (Zpos d))%R;
  dadd := Rplus;
  dsub := Rminus;
  dmul := Rmult;
  ddiv := Rdiv;
  dsqrt := sqrt;
  dabs := Rabs;
  dlt := Rltb;
  dge := Rgeb;
  IsNaN := fun _ => false;
  numeric_limits_max := IZR (2 ^ 1024 - 2 ^ 971)
|}.

(** *** binary64 *)

Definition float_of_Z (z : Z) : float :=
  match z with
  | Z0 => PrimFloat.zero
  | Zpos _ => PrimFloat.of_uint63 (Uint63.of_Z z)
  | Zneg p => PrimFloat.opp (PrimFloat.of_uint63 (Uint63.of_Z (Zpos p)))
  end.

#[export] Instance ieee : Double float := {|
  frac n d := PrimFloat.div (float_of_Z n) (float_of_Z (Zpos d));
  dadd := PrimFloat.add;
  dsub := PrimFloat.sub;
  dmul := PrimFloat.mul;
  ddiv := PrimFloat.div;
  dsqrt := PrimFloat.sqrt;
  dabs := PrimFloat.abs;
  dlt := PrimFloat.ltb;
  dge := fun x y => PrimFloat.leb y x;
  IsNaN := PrimFloat.is_nan;
  numeric_limits_max := 0x1.fffffffffffffp+1023%float
|}.

(* ================================================================= *)
(** ** The kinematic solver: [MEM::Integrand::solve] *)

(** The four-vector library (ROOT's [TLorentzVector], [TVector3], [TMath])
    is not part of the repository; [solve] reads a parent four-momentum
    only through [E()], [Beta()] and [Angle(e)]. *)

Section Solver.
Context {D : Type} `{Double D}.
Context {LV TVector3 : Type}.
Variable p4_E     : LV -> D.
Variable p4_Beta  : LV -> D.
Variable p4_Angle : LV -> TVector3 -> D.
Variable TMath_Cos : D -> D.

Local Open Scope dbl_scope.

(** The rejected return: [accept = -1; return numeric_limits<double>::max()]. *)
Definition no_solution : D * Z := (numeric_limits_max, (-1)%Z).

(** [solve(p4_w, DM2, M, e_b, target, accept)] returns the energy and the
    value of the in/out parameter [accept] on return. *)
Definition solve (p4_w : LV) (DM2 M : D) (e_b : TVector3) (target : D)
           (accept : Z) : D * Z :=
  let a := DM2 / p4_E p4_w in
  let b := TMath_Cos (p4_Angle p4_w e_b) in
  if M <? frac 1 1000 then
    if b <? 1 then (a / (1 - b), accept)
    else no_solution
  else
    (* use adimensional 'a', account for velocity<1 *)
    let a := a / M in
    let b := b * p4_Beta p4_w in
    let a2 := a * a in
    let b2 := b * b in
    (* this is needed to test the solutions *)
    let discr := a2 + b2 - a2 * b2 - 1 in
    (* make sure there is >0 solutions *)
    if (a2 + b2 - 1) <? 0 then no_solution
    else
      (* the roots *)
      let g_p := (a + dabs b * dsqrt (a2 + b2 - 1)) / (1 - b2) in
      let g_m := (a - dabs b * dsqrt (a2 + b2 - 1)) / (1 - b2) in
      (* make sure this is >1 ( g_m < g_p ) *)
      if g_p <? 1 then no_solution
      else
        (* remove unphysical root *)
        let g_m := if g_m <? 1 then g_p else g_m in
        (* test for the roots *)
        if b >? 0 then
          if discr <? 0 then
            (if dabs (target - g_p) <? dabs (target - g_m)
             then g_p * M else g_m * M, accept)
          else (g_p * M, accept)
        else
          if discr >? 0 then (g_m * M, accept)
          else no_solution.

(** The coefficients as the code forms them, by branch. *)
Definition massless_a (p4_w : LV) (DM2 : D) : D := DM2 / p4_E p4_w.
Definition massless_b (p4_w : LV) (e_b : TVector3) : D :=
  TMath_Cos (p4_Angle p4_w e_b).
Definition massive_a (p4_w : LV) (DM2 M : D) : D := DM2 / p4_E p4_w / M.
Definition massive_b (p4_w : LV) (e_b : TVector3) : D :=
  TMath_Cos (p4_Angle p4_w e_b) * p4_Beta p4_w.

(** The coefficients as the specification words them: one pair for both
    branches, [a = DM2 / (P.E * M)] and [b = cos(angle(P,e)) * P.beta]. *)
Definition spec_a (p4_w : LV) (DM2 M : D) : D := DM2 / (p4_E p4_w * M).
Definition spec_b (p4_w : LV) (e_b : TVector3) : D :=
  TMath_Cos (p4_Angle p4_w e_b) * p4_Beta p4_w.

(** The two quadratic roots and the discriminant of the massive branch. *)
Definition root_p (a b : D) : D :=
  (a + dabs b * dsqrt (a * a + b * b - 1)) / (1 - b * b).
Definition root_m (a b : D) : D :=
  (a - dabs b * dsqrt (a * a + b * b - 1)) / (1 - b * b).
Definition discriminant (a b : D) : D :=
  a * a + b * b - (a * a) * (b * b) - 1.

End Solver.

(* ================================================================= *)
(** ** Results of fallible code *)

(** A C++ [assert] that fails aborts the run; an out-of-range [operator[]]
    or a dereferenced [end()] iterator has no defined behaviour. *)
Inductive Res (A : Type) : Type :=
| Done (a : A)
| AssertFailed
| Undefined.
Arguments Done {A} a.
Arguments AssertFailed {A}.
Arguments Undefined {A}.

Definition bind {A B} (m : Res A) (k : A -> Res B) : Res B :=
  match m with
  | Done a => k a
  | AssertFailed => AssertFailed
  | Undefined => Undefined
  end.

Notation "x <- m ;; k" := (bind m (fun x => k))
  (at level 61, m at next level, right associativity).
Notation "' pat <- m ;; k" := (bind m (fun x => match x with pat => k end))
  (at level 61, pat pattern, m at next level, right associativity).

(** [v[i]] for a [size_t] index. *)
Definition at_nat {A} (v : list A) (i : nat) : Res A :=
  match nth_error v i with
  | Some a => Done a
  | None => Undefined
  end.

(** [v[i]] for an [int] index: a negative [i] converts to a huge [size_t]. *)
Definition at_int {A} (v : list A) (i : Z) : Res A :=
  if (i <? 0)%Z then Undefined else at_nat v (Z.to_nat i).

(** [v[i] = x] for a [size_t] index. *)
Fixpoint set_nat {A} (v : list A) (i : nat) (x : A) : Res (list A) :=
  match v, i with
  | [], _ => Undefined
  | _ :: t, O => Done (x :: t)
  | h :: t, S j => t' <- set_nat t j x ;; Done (h :: t')
  end.

(* ================================================================= *)
(** ** Data model *)

Module FinalState.
Inductive FinalState := HH | LH | LL | TTH | Undefined.
Definition eqb (a b : FinalState) : bool :=
  match a, b with
  | HH, HH | LH, LH | LL, LL | TTH, TTH | Undefined, Undefined => true
  | _, _ => false
  end.
End FinalState.

(** [MEM::Hypothesis] ([Hypothesis] is a reserved word here). *)
Module Hypo.
Inductive Hypo := TTH | TTBB | Undefined.
Definition eqb (a b : Hypo) : bool :=
  match a, b with
  | TTH, TTH | TTBB, TTBB | Undefined, Undefined => true
  | _, _ => false
  end.
End Hypo.

Module PSPart.
Inductive PSPart := q1 | qbar1 | b1 | q2 | qbar2 | b2 | b | bbar | t | tbar | h.
Definition eqb (x y : PSPart) : bool :=
  match x, y with
  | q1, q1 | qbar1, qbar1 | b1, b1 | q2, q2 | qbar2, qbar2 | b2, b2
  | b, b | bbar, bbar | t, t | tbar, tbar | h, h => true
  | _, _ => false
  end.
End PSPart.

Module Observable.
Inductive Observable :=
  E_LOW_Q | E_HIGH_Q | E_LOW_B | E_HIGH_B | BTAG | CHARGE.
Definition eqb (x y : Observable) : bool :=
  match x, y with
  | E_LOW_Q, E_LOW_Q | E_HIGH_Q, E_HIGH_Q | E_LOW_B, E_LOW_B
  | E_HIGH_B, E_HIGH_B | BTAG, BTAG | CHARGE, CHARGE => true
  | _, _ => false
  end.
End Observable.

Module TFType.
Inductive TFType :=
  bReco | qReco | bLost | qLost | muReco | elReco | MET | Recoil | Unknown.
End TFType.

Module Permutations.
(** [Other] stands for the enumerators that [accept_perm] sends to
    [default: break]. *)
Inductive Permutations :=
  BTagged | QUntagged | QQbarSymmetry | BBbarSymmetry | Other.
End Permutations.

(** A [PSVar] is kept as the value of the enumerator:
    [make_assumption] reads it through [static_cast<size_t>]. *)
Definition PSVar := Z.

(** The log of the calls to the collaborators, kept beside the state so that
    "was not called" can be said. *)
Inductive Call := CallIntegral | CallCreatePS | CallTransfer | CallMatrix.

Section Model.
Context {D : Type} `{Double D}.
Local Open Scope dbl_scope.

(** *** Four-vectors (ROOT) *)

Record TVector3 := { X : D; Y : D; Z3 : D }.
Record TLorentzVector := { Vect : TVector3; E : D }.
Definition LV := TLorentzVector.

(** [dir*P] *)
Definition scale (v : TVector3) (k : D) : TVector3 :=
  {| X := X v * k; Y := Y v * k; Z3 := Z3 v * k |}.

(** [v.Mag2()] *)
Definition Mag2 (v : TVector3) : D := X v * X v + Y v * Y v + Z3 v * Z3 v.

(** *** Observed objects *)

(** Modelled from the spec: an Observed Object holds a four-momentum and a
    mapping from named observables to values, set at most once; the class
    [MEM::Object] itself is declared in a header outside src/. *)
Record Object := {
  p4  : LV;
  obs : list (Observable.Observable * D)
}.

Fixpoint find_obs (l : list (Observable.Observable * D))
         (name : Observable.Observable) : option D :=
  match l with
  | [] => None
  | (k, v) :: rest => if Observable.eqb k name then Some v else find_obs rest name
  end.

Definition isSet (o : Object) (name : Observable.Observable) : bool :=
  match find_obs (obs o) name with Some _ => true | None => false end.

Definition getObs (o : Object) (name : Observable.Observable) : Res D :=
  match find_obs (obs o) name with Some v => Done v | None => Undefined end.

(** *** Phase-space points *)

Record GenPart := {
  lv     : LV;
  type   : TFType.TFType;
  charge : Z
}.

(** Modelled from the spec: a Phase-Space Point is a mapping from particle
    role to a reconstructed four-momentum, a transfer-function category and
    an electric charge; [MEM::PS] is declared in a header outside src/. *)
Definition PS := list (PSPart.PSPart * GenPart).

Definition PS_set (ps : PS) (part : PSPart.PSPart) (g : GenPart) : PS :=
  (part, g) :: ps.

Fixpoint PS_find (ps : PS) (part : PSPart.PSPart) : option GenPart :=
  match ps with
  | [] => None
  | (k, g) :: rest => if PSPart.eqb k part then Some g else PS_find rest part
  end.

(** [extend_PS]: add one particle to the phase-space point. *)
Definition extend_PS (ps : PS) (part : PSPart.PSPart) (E M : D)
           (dir : TVector3) (pos : Z) (var_cos var_phi var_E : PSVar)
           (type : TFType.TFType) (charge : Z) : PS :=
  let E_phys := TMath_Max E M in
  let P := dsqrt (E_phys * E_phys - M * M) in
  PS_set ps part
    {| lv := {| Vect := scale dir P; E := E_phys |};
       type := type; charge := charge |}.

Definition extend_PS_nodebug (ps : PS) (part : PSPart.PSPart) (E M : D)
           (dir : TVector3) : PS :=
  let E_phys := TMath_Max E M in
  let P := dsqrt (E_phys * E_phys - M * M) in
  PS_set ps part
    {| lv := {| Vect := scale dir P; E := E_phys |};
       type := TFType.Unknown; charge := 0%Z |}.


(** [lv1 + lv2] and [Pt()] (ROOT). *)
Definition LV_add (u v : LV) : LV :=
  {| Vect := {| X := X (Vect u) + X (Vect v);
                Y := Y (Vect u) + Y (Vect v);
                Z3 := Z3 (Vect u) + Z3 (Vect v) |};
     E := E u + E v |}.

Definition Pt (u : LV) : D :=
  dsqrt (X (Vect u) * X (Vect u) + Y (Vect u) * Y (Vect u)).

(** [ps.lv(part)] and [ps.charge(part)]. *)
Definition PS_lv (ps : PS) (part : PSPart.PSPart) : Res LV :=
  match PS_find ps part with Some g => Done (lv g) | None => Undefined end.

Definition PS_charge (ps : PS) (part : PSPart.PSPart) : Res Z :=
  match PS_find ps part with Some g => Done (charge g) | None => Undefined end.

(** *** Configuration, result record and the state of [MEM::Integrand] *)

(** The fields of [MEMConfig] read by the functions below. *)
Record MEMConfig := {
  int_code     : Z;
  perm_int     : bool;
  perm_pruning : list Permutations.Permutations;
  tf_suppress  : Z;
  is_default   : bool;
  cfg_n_max_calls : nat;
  calls        : FinalState.FinalState -> Hypo.Hypo -> nat -> nat;
  highpt_first : bool
}.

Record MEMOutput := {
  out_p          : D;
  out_p_err      : D;
  out_chi2       : D;
  out_time       : Z;
  out_num_perm   : nat;
  out_final_state : FinalState.FinalState;
  out_hypothesis : Hypo.Hypo;
  out_assumption : nat;
  out_num_max_calls : nat;
  out_num_calls  : nat;
  out_efficiency : D;
  out_error_code : Z
}.

(** Modelled from the spec: the declaration of [MEMOutput] is in a header
    outside src/; the Result Record of an assumption that is skipped is
    "zero-filled", so [MEMOutput out;] is read as all fields zero. *)
Definition MEMOutput_default : MEMOutput :=
  {| out_p := 0; out_p_err := 0; out_chi2 := 0; out_time := 0%Z;
     out_num_perm := 0%nat; out_final_state := FinalState.Undefined;
     out_hypothesis := Hypo.Undefined; out_assumption := 0%nat;
     out_num_max_calls := 0%nat; out_num_calls := 0%nat;
     out_efficiency := 0; out_error_code := 0%Z |}.

Record Integrand := {
  cfg                : MEMConfig;
  error_code         : Z;
  num_of_vars        : Z;
  ps_dim             : Z;
  naive_jet_counting : nat;
  extra_jets         : nat;
  fs                 : FinalState.FinalState;
  hypo               : Hypo.Hypo;
  n_calls            : nat;
  n_max_calls        : nat;
  n_skip             : nat;
  this_perm          : nat;
  obs_jets           : list Object;
  obs_leptons        : list Object;
  obs_mets           : list Object;
  perm_indexes            : list (list Z);
  perm_indexes_assumption : list (list Z);
  perm_const_assumption   : list D;
  map_to_part        : list (PSPart.PSPart * nat);
  (** ghost: the calls made to the collaborators, latest first *)
  log                : list Call
}.

Definition set_error_code (st : Integrand) (v : Z) : Integrand :=
  {| cfg := cfg st; error_code := v; num_of_vars := num_of_vars st;
     ps_dim := ps_dim st; naive_jet_counting := naive_jet_counting st;
     extra_jets := extra_jets st; fs := fs st; hypo := hypo st;
     n_calls := n_calls st; n_max_calls := n_max_calls st;
     n_skip := n_skip st; this_perm := this_perm st;
     obs_jets := obs_jets st; obs_leptons := obs_leptons st;
     obs_mets := obs_mets st; perm_indexes := perm_indexes st;
     perm_indexes_assumption := perm_indexes_assumption st;
     perm_const_assumption := perm_const_assumption st;
     map_to_part := map_to_part st; log := log st |}.

Definition set_n_calls (st : Integrand) (v : nat) : Integrand :=
  {| cfg := cfg st; error_code := error_code st; num_of_vars := num_of_vars st;
     ps_dim := ps_dim st; naive_jet_counting := naive_jet_counting st;
     extra_jets := extra_jets st; fs := fs st; hypo := hypo st;
     n_calls := v; n_max_calls := n_max_calls st;
     n_skip := n_skip st; this_perm := this_perm st;
     obs_jets := obs_jets st; obs_leptons := obs_leptons st;
     obs_mets := obs_mets st; perm_indexes := perm_indexes st;
     perm_indexes_assumption := perm_indexes_assumption st;
     perm_const_assumption := perm_const_assumption st;
     map_to_part := map_to_part st; log := log st |}.

Definition set_n_skip (st : Integrand) (v : nat) : Integrand :=
  {| cfg := cfg st; error_code := error_code st; num_of_vars := num_of_vars st;
     ps_dim := ps_dim st; naive_jet_counting := naive_jet_counting st;
     extra_jets := extra_jets st; fs := fs st; hypo := hypo st;
     n_calls := n_calls st; n_max_calls := n_max_calls st;
     n_skip := v; this_perm := this_perm st;
     obs_jets := obs_jets st; obs_leptons := obs_leptons st;
     obs_mets := obs_mets st; perm_indexes := perm_indexes st;
     perm_indexes_assumption := perm_indexes_assumption st;
     perm_const_assumption := perm_const_assumption st;
     map_to_part := map_to_part st; log := log st |}.

Definition set_this_perm (st : Integrand) (v : nat) : Integrand :=
  {| cfg := cfg st; error_code := error_code st; num_of_vars := num_of_vars st;
     ps_dim := ps_dim st; naive_jet_counting := naive_jet_counting st;
     extra_jets := extra_jets st; fs := fs st; hypo := hypo st;
     n_calls := n_calls st; n_max_calls := n_max_calls st;
     n_skip := n_skip st; this_perm := v;
     obs_jets := obs_jets st; obs_leptons := obs_leptons st;
     obs_mets := obs_mets st; perm_indexes := perm_indexes st;
     perm_indexes_assumption := perm_indexes_assumption st;
     perm_const_assumption := perm_const_assumption st;
     map_to_part := map_to_part st; log := log st |}.

Definition set_extra_jets (st : Integrand) (v : nat) : Integrand :=
  {| cfg := cfg st; error_code := error_code st; num_of_vars := num_of_vars st;
     ps_dim := ps_dim st; naive_jet_counting := naive_jet_counting st;
     extra_jets := v; fs := fs st; hypo := hypo st;
     n_calls := n_calls st; n_max_calls := n_max_calls st;
     n_skip := n_skip st; this_perm := this_perm st;
     obs_jets := obs_jets st; obs_leptons := obs_leptons st;
     obs_mets := obs_mets st; perm_indexes := perm_indexes st;
     perm_indexes_assumption := perm_indexes_assumption st;
     perm_const_assumption := perm_const_assumption st;
     map_to_part := map_to_part st; log := log st |}.

Definition set_assumption (st : Integrand) (perms : list (list Z))
           (consts : list D) : Integrand :=
  {| cfg := cfg st; error_code := error_code st; num_of_vars := num_of_vars st;
     ps_dim := ps_dim st; naive_jet_counting := naive_jet_counting st;
     extra_jets := extra_jets st; fs := fs st; hypo := hypo st;
     n_calls := n_calls st; n_max_calls := n_max_calls st;
     n_skip := n_skip st; this_perm := this_perm st;
     obs_jets := obs_jets st; obs_leptons := obs_leptons st;
     obs_mets := obs_mets st; perm_indexes := perm_indexes st;
     perm_indexes_assumption := perms;
     perm_const_assumption := consts;
     map_to_part := map_to_part st; log := log st |}.

Definition set_map_to_part (st : Integrand)
           (m : list (PSPart.PSPart * nat)) : Integrand :=
  {| cfg := cfg st; error_code := error_code st; num_of_vars := num_of_vars st;
     ps_dim := ps_dim st; naive_jet_counting := naive_jet_counting st;
     extra_jets := extra_jets st; fs := fs st; hypo := hypo st;
     n_calls := n_calls st; n_max_calls := n_max_calls st;
     n_skip := n_skip st; this_perm := this_perm st;
     obs_jets := obs_jets st; obs_leptons := obs_leptons st;
     obs_mets := obs_mets st; perm_indexes := perm_indexes st;
     perm_indexes_assumption := perm_indexes_assumption st;
     perm_const_assumption := perm_const_assumption st;
     map_to_part := m; log := log st |}.

Definition add_log (st : Integrand) (c : Call) : Integrand :=
  {| cfg := cfg st; error_code := error_code st; num_of_vars := num_of_vars st;
     ps_dim := ps_dim st; naive_jet_counting := naive_jet_counting st;
     extra_jets := extra_jets st; fs := fs st; hypo := hypo st;
     n_calls := n_calls st; n_max_calls := n_max_calls st;
     n_skip := n_skip st; this_perm := this_perm st;
     obs_jets := obs_jets st; obs_leptons := obs_leptons st;
     obs_mets := obs_mets st; perm_indexes := perm_indexes st;
     perm_indexes_assumption := perm_indexes_assumption st;
     perm_const_assumption := perm_const_assumption st;
     map_to_part := map_to_part st; log := c :: log st |}.


(** *** The numerical integrator *)

(** One call of [ig2->Integral(xL,xU)]: the integrator asks for the
    integrand at points of its choice, each choice depending on the values
    seen so far, and ends with the estimate, [Error()] and [ChiSqr()]. *)
Inductive Integrator : Type :=
| Estimate (integral err chisqr : D)
| Sample (x : list D) (k : D -> Integrator).

(** *** Collaborators *)

(** The geometry of the phase-space builders, the normalisation constant,
    the transfer-function loop, the amplitude factors, the integration
    edges and the enumeration of index arrangements rest on ROOT, on the
    resolution model, on OpenLoops and LHAPDF and on declarations outside
    src/.  The properties below hold whatever these compute. *)
Class Collaborators : Type := {
  create_PS_LH  : Integrand -> PS -> list D -> list Z -> Res (PS * Z);
  create_PS_LL  : Integrand -> PS -> list D -> list Z -> Res (PS * Z);
  create_PS_HH  : Integrand -> PS -> list D -> list Z -> Res (PS * Z);
  create_PS_TTH : Integrand -> PS -> list D -> list Z -> Res (PS * Z);
  (** [PS ps(ps_dim)] *)
  PS_new : Z -> PS;
  constants : Integrand -> D;
  (** the product [w] of [transfer] before its NaN test, and [accept] *)
  transfer_product : Integrand -> PS -> list Z -> Z -> Res (D * Z);
  t_decay_amplitude : Integrand -> LV -> LV -> LV -> Z -> D;
  H_decay_amplitude : Integrand -> LV -> LV -> D;
  (** the value and the out-parameters [x1], [x2] *)
  scattering : Integrand -> LV -> LV -> LV -> LV -> D * D * D;
  pdf : Integrand -> D -> D -> D -> D;
  (** the Jacobian factor of [matrix_nodecay] *)
  nodecay_Jac : LV -> LV -> LV -> D;
  (** [GSLMCIntegrator(kVEGAS, cfg.abs, cfg.rel, n_max_calls)] on [xL,xU] *)
  VEGAS : nat -> list D -> list D -> Integrator;
  get_edges : Integrand -> list PSVar -> nat -> bool -> Res (list D);
  (** [get_support] on a jet, for [TFType::qReco] or [TFType::bReco] *)
  get_support : Integrand -> Object -> TFType.TFType -> D * D;
  (** [sort] then the [do .. while(next_permutation(..))] loop of [init] *)
  arrangements : Integrand -> list Z -> list (list Z);
  (** the bit [IntegrandType::Transfer] *)
  IntegrandType_Transfer : Z
}.

Context {ext : Collaborators}.

(* --------------------------------------------------------------- *)
(** *** The permutation engine *)

Definition test_assumption (lost : nat) (st : Integrand) : bool * Integrand :=
  if (length (obs_jets st) + lost <? naive_jet_counting st)%nat then (false, st)
  else (true, set_extra_jets st
                (length (obs_jets st) + lost - naive_jet_counting st)%nat).

(** [map_to_part[part] = pos] and [map_to_part.find(part)->second]. *)
Definition map_set (m : list (PSPart.PSPart * nat)) (part : PSPart.PSPart)
           (pos : nat) : list (PSPart.PSPart * nat) :=
  (part, pos) :: m.

Fixpoint map_find (m : list (PSPart.PSPart * nat)) (part : PSPart.PSPart)
  : Res nat :=
  match m with
  | [] => Undefined
  | (k, v) :: rest => if PSPart.eqb k part then Done v else map_find rest part
  end.

(** [fill_map]: the part that maps quarks to positions of a permutation
    (the map from phase-space variables to integration variables is read
    only by the collaborators). *)
Definition fill_map (lost : list PSVar) (st : Integrand) : Integrand :=
  let m := map_to_part st in
  match fs st with
  | FinalState.LH =>
      let m := map_set m PSPart.q2 0 in
      let m := map_set m PSPart.q1 0 in
      let m := map_set m PSPart.qbar1 1 in
      let m := map_set m PSPart.b1 2 in
      let m := map_set m PSPart.b2 3 in
      let m := map_set m PSPart.b 4 in
      let m := map_set m PSPart.bbar 5 in
      set_map_to_part st m
  | FinalState.LL =>
      let m := map_set m PSPart.q1 0 in
      let m := map_set m PSPart.q2 1 in
      let m := map_set m PSPart.b1 0 in
      let m := map_set m PSPart.b2 1 in
      let m := map_set m PSPart.b 2 in
      let m := map_set m PSPart.bbar 3 in
      set_map_to_part st m
  | FinalState.HH =>
      let m := map_set m PSPart.q1 0 in
      let m := map_set m PSPart.qbar1 1 in
      let m := map_set m PSPart.b1 2 in
      let m := map_set m PSPart.q2 3 in
      let m := map_set m PSPart.qbar2 4 in
      let m := map_set m PSPart.b2 5 in
      let m := map_set m PSPart.b 6 in
      let m := map_set m PSPart.bbar 7 in
      set_map_to_part st m
  | _ => st
  end.

(** [a && b] with [b] evaluated only when [a] holds. *)
Definition and_then (a : Res bool) (b : Res bool) : Res bool :=
  x <- a ;; if x then b else Done false.

(** The loops of the strategies [BTagged] ([cut v] is [v < 0.5]) and
    [QUntagged] ([cut v] is [v > 0.5]); [true] means "discard". *)
Fixpoint btag_discard (cut : D -> bool) (st : Integrand) (perm : list Z)
         (indexes1 : list nat) : Res bool :=
  match indexes1 with
  | [] => Done false
  | ind :: rest =>
      hit <- and_then (j <- at_nat perm ind ;; Done (0 <=? j)%Z)
            (and_then (j <- at_nat perm ind ;; obj <- at_int (obs_jets st) j ;;
                       Done (isSet obj Observable.BTAG))
                      (j <- at_nat perm ind ;; obj <- at_int (obs_jets st) j ;;
                       v <- getObs obj Observable.BTAG ;; Done (cut v))) ;;
      if hit then Done true else btag_discard cut st perm rest
  end.

Fixpoint finds (m : list (PSPart.PSPart * nat)) (parts : list PSPart.PSPart)
  : Res (list nat) :=
  match parts with
  | [] => Done []
  | part :: rest => i <- map_find m part ;; js <- finds m rest ;; Done (i :: js)
  end.

(** [visited[i] == perm[j]] *)
Definition same_at (visited perm : list Z) (i j : nat) : Res bool :=
  v <- at_nat visited i ;; w <- at_nat perm j ;; Done (v =? w)%Z.

(** First inner loop: quark positions that must be matched to the same jet. *)
Fixpoint asymmetric_part (visited perm : list Z) (indexes2 : list nat)
         (acc : bool) : Res bool :=
  match indexes2 with
  | [] => Done acc
  | same :: rest =>
      eq <- same_at visited perm same same ;;
      asymmetric_part visited perm rest (if eq then acc else false)
  end.

(** Second inner loop: pairs of positions, each kept or swapped. *)
Fixpoint symmetric_part (visited perm : list Z) (indexes1 : list nat)
         (acc : bool) : Res bool :=
  match indexes1 with
  | i0 :: i1 :: rest =>
      same <- and_then (same_at visited perm i0 i0) (same_at visited perm i1 i1) ;;
      swap <- and_then (same_at visited perm i0 i1) (same_at visited perm i1 i0) ;;
      symmetric_part visited perm rest (if same || swap then acc else false)
  | _ => Done acc
  end.

Fixpoint swap_found (visiteds : list (list Z)) (perm : list Z)
         (indexes1 indexes2 : list nat) : Res bool :=
  match visiteds with
  | [] => Done false
  | visited :: rest =>
      asym <- asymmetric_part visited perm indexes2 true ;;
      sym <- symmetric_part visited perm indexes1 true ;;
      if asym && sym then Done true
      else swap_found rest perm indexes1 indexes2
  end.

(** One [case] of the [switch] of [accept_perm]; [false] is the early
    [return false]. *)
Definition accept_strategy (st : Integrand) (perm : list Z)
           (s : Permutations.Permutations) : Res bool :=
  let m := map_to_part st in
  match s with
  | Permutations.BTagged =>
      indexes1 <- finds m [PSPart.b1; PSPart.b2; PSPart.b; PSPart.bbar] ;;
      d <- btag_discard (fun v => v <? frac 1 2) st perm indexes1 ;;
      Done (negb d)
  | Permutations.QUntagged =>
      indexes1 <-
        match fs st with
        | FinalState.LH => finds m [PSPart.q1; PSPart.qbar1]
        | FinalState.HH =>
            finds m [PSPart.q1; PSPart.qbar1; PSPart.q2; PSPart.qbar2]
        | _ => Done []
        end ;;
      d <- btag_discard (fun v => v >? frac 1 2) st perm indexes1 ;;
      Done (negb d)
  | Permutations.QQbarSymmetry | Permutations.BBbarSymmetry =>
      let bb :=
        match s with
        | Permutations.BBbarSymmetry => [PSPart.b; PSPart.bbar]
        | _ => []
        end in
      '(indexes1, indexes2) <-
        match fs st with
        | FinalState.LH =>
            i1 <- finds m ([PSPart.q1; PSPart.qbar1] ++ bb) ;;
            i2 <- finds m [PSPart.b1; PSPart.b2] ;; Done (i1, i2)
        | FinalState.LL =>
            i1 <- finds m bb ;;
            i2 <- finds m [PSPart.b1; PSPart.b2] ;; Done (i1, i2)
        | FinalState.HH =>
            i1 <- finds m ([PSPart.q1; PSPart.qbar1; PSPart.q2; PSPart.qbar2]
                           ++ bb) ;;
            i2 <- finds m [PSPart.b1; PSPart.b2] ;; Done (i1, i2)
        | _ => Done ([], [])
        end ;;
      d <- swap_found (perm_indexes_assumption st) perm indexes1 indexes2 ;;
      Done (negb d)
  | Permutations.Other => Done true
  end.

Fixpoint accept_perm (st : Integrand) (perm : list Z)
         (strategies : list Permutations.Permutations) : Res bool :=
  match strategies with
  | [] => Done true
  | s :: rest =>
      ok <- accept_strategy st perm s ;;
      if ok then accept_perm st perm rest else Done false
  end.

(** [obj->getObs(hi) - obj->getObs(lo)] for the jet at the position of [part]. *)
Definition DeltaE (st : Integrand) (perm : list Z) (part : PSPart.PSPart)
           (hi lo : Observable.Observable) : Res D :=
  pos <- map_find (map_to_part st) part ;;
  j <- at_nat perm pos ;;
  obj <- at_int (obs_jets st) j ;;
  h <- getObs obj hi ;;
  l <- getObs obj lo ;;
  Done (h - l).

Definition DeltaE_q st perm part :=
  DeltaE st perm part Observable.E_HIGH_Q Observable.E_LOW_Q.
Definition DeltaE_b st perm part :=
  DeltaE st perm part Observable.E_HIGH_B Observable.E_LOW_B.

Definition get_permutation_constants (st : Integrand) (perm : list Z) : Res D :=
  let p : D := 1 in
  match fs st with
  | FinalState.LH =>
      dE <- DeltaE_q st perm PSPart.q1 ;;
      let p := p * dE in
      dE <- DeltaE_b st perm PSPart.b ;;
      let p := p * dE in
      if Hypo.eqb (hypo st) Hypo.TTBB then
        dE <- DeltaE_b st perm PSPart.bbar ;;
        Done (p * dE)
      else Done p
  | FinalState.LL =>
      dE <- DeltaE_b st perm PSPart.b ;;
      let p := p * dE in
      if Hypo.eqb (hypo st) Hypo.TTBB then
        dE <- DeltaE_b st perm PSPart.bbar ;;
        Done (p * dE)
      else Done p
  | FinalState.HH =>
      dE <- DeltaE_q st perm PSPart.q1 ;;
      let p := p * dE in
      dE <- DeltaE_q st perm PSPart.q2 ;;
      let p := p * dE in
      dE <- DeltaE_b st perm PSPart.b ;;
      let p := p * dE in
      if Hypo.eqb (hypo st) Hypo.TTBB then
        dE <- DeltaE_b st perm PSPart.bbar ;;
        Done (p * dE)
      else Done p
  | _ => Done p
  end.


(* --------------------------------------------------------------- *)
(** *** The probability integrand *)

Definition create_PS (st : Integrand) (ps : PS) (x : list D) (perm : list Z)
  : Res (PS * Z) :=
  match fs st with
  | FinalState.LH => create_PS_LH st ps x perm
  | FinalState.LL => create_PS_LL st ps x perm
  | FinalState.HH => create_PS_HH st ps x perm
  | FinalState.TTH => create_PS_TTH st ps x perm
  | _ => Done (ps, 0%Z)
  end.

(** [TLorentzVector(x,y,z,t)] *)
Definition LV_xyzt (x y z t : D) : LV :=
  {| Vect := {| X := x; Y := y; Z3 := z |}; E := t |}.

(** The products [m] of [matrix_nodecay] and [matrix] before the NaN test. *)
Definition matrix_nodecay_product (st : Integrand) (ps : PS) : Res D :=
  let m : D := 1 in
  lv_t <- PS_lv ps PSPart.t ;;
  lv_tbar <- PS_lv ps PSPart.tbar ;;
  lv_b <- (if FinalState.eqb (fs st) FinalState.TTH
           then PS_lv ps PSPart.h else PS_lv ps PSPart.b) ;;
  lv_bbar <- (if FinalState.eqb (fs st) FinalState.TTH
              then Done (LV_xyzt (frac 1 1000000) 0 0 (frac 1 1000000))
              else PS_lv ps PSPart.bbar) ;;
  let lv_h := LV_add lv_b lv_bbar in
  let '(s, x1, x2) := scattering st lv_t lv_tbar lv_b lv_bbar in
  let m := m * s in
  let m := m * pdf st x1 x2 (Pt lv_h) in
  let Jac := nodecay_Jac lv_t lv_tbar lv_h in
  Done (m * Jac).

Definition matrix_nodecay (st : Integrand) (ps : PS) : Res D :=
  m <- matrix_nodecay_product st ps ;;
  if IsNaN m then Done 0 else Done m.

Definition matrix_product (st : Integrand) (ps : PS) : Res D :=
  let m : D := 1 in
  lv_q1 <- PS_lv ps PSPart.q1 ;;
  lv_qbar1 <- PS_lv ps PSPart.qbar1 ;;
  lv_b1 <- PS_lv ps PSPart.b1 ;;
  lv_q2 <- PS_lv ps PSPart.q2 ;;
  lv_qbar2 <- PS_lv ps PSPart.qbar2 ;;
  lv_b2 <- PS_lv ps PSPart.b2 ;;
  lv_b <- PS_lv ps PSPart.b ;;
  lv_bbar <- PS_lv ps PSPart.bbar ;;
  c1 <- PS_charge ps PSPart.q1 ;;
  let m := m * t_decay_amplitude st lv_q1 lv_qbar1 lv_b1 c1 in
  c2 <- PS_charge ps PSPart.q2 ;;
  let m := m * t_decay_amplitude st lv_q2 lv_qbar2 lv_b2 c2 in
  let m := m * H_decay_amplitude st lv_b lv_bbar in
  let '(s, x1, x2) :=
    scattering st (LV_add (LV_add lv_q1 lv_qbar1) lv_b1)
               (LV_add (LV_add lv_q2 lv_qbar2) lv_b2) lv_b lv_bbar in
  let m := m * s in
  Done (m * pdf st x1 x2 (Pt lv_b + Pt lv_bbar)).

(** [matrix] is [const] and casts nothing away: it returns a value only. *)
Definition matrix (st : Integrand) (ps : PS) : Res D :=
  if FinalState.eqb (fs st) FinalState.TTH then matrix_nodecay st ps
  else
    m <- matrix_product st ps ;;
    if IsNaN m then Done 0 else Done m.

(** [transfer] returns [w], the value of [accept] on return, and the state
    ([error_code] is written through a [const_cast]). *)
Definition transfer (st : Integrand) (ps : PS) (perm : list Z) (accept : Z)
  : Res (D * Z * Integrand) :=
  let w : D := 1 in
  if (Z.land (int_code (cfg st)) IntegrandType_Transfer =? 0)%Z
  then Done (w, accept, st)
  else if FinalState.eqb (fs st) FinalState.TTH then Done (w, accept, st)
  else
    '(w, accept) <- transfer_product st ps perm accept ;;
    if IsNaN w then Done (0, accept, set_error_code st 1)
    else Done (w, accept, st).

Definition probability (x : list D) (n_perm : nat) (st : Integrand)
  : Res (D * Integrand) :=
  let p : D := 1 in
  if (int_code (cfg st) =? 0)%Z then Done (p, st)
  else
    perm <- at_nat (perm_indexes_assumption st) n_perm ;;
    '(ps, accept) <- create_PS st (PS_new (ps_dim st)) x perm ;;
    let st := add_log st CallCreatePS in
    if (accept <? 0)%Z then
      Done (0, set_n_skip st (S (n_skip st)))
    else
      let p := p * constants st in
      '(w, accept, st) <- transfer (add_log st CallTransfer) ps perm accept ;;
      let p := p * w in
      if negb (tf_suppress (cfg st) =? 0)%Z
         && (accept >=? tf_suppress (cfg st))%Z
      then Done (0, st)
      else
        m <- matrix st ps ;;
        Done (p * m, add_log st CallMatrix).

(** The [for] loop of [Eval] from [n_perm] on, for [fuel] more rounds of
    the loop test. *)
Fixpoint Eval_loop (fuel : nat) (x : list D) (n_perm : nat) (p : D)
         (st : Integrand) : Res (D * Integrand) :=
  match fuel with
  | O => Done (p, st)
  | S fuel' =>
      if (n_perm <? length (perm_indexes_assumption st))%nat then
        if perm_int (cfg st) && negb (n_perm =? this_perm st)%nat
        then Eval_loop fuel' x (S n_perm) p st
        else
          '(p0, st) <- probability x n_perm st ;;
          p1 <- at_nat (perm_const_assumption st) n_perm ;;
          Eval_loop fuel' x (S n_perm) (p + p0 * p1) st
      else Done (p, st)
  end.

Definition Eval (x : list D) (st : Integrand) : Res (D * Integrand) :=
  '(p, st) <- Eval_loop (length (perm_indexes_assumption st)) x 0 0 st ;;
  Done (p, set_n_calls st (S (n_calls st))).

(** Running the integrator on [Eval]. *)
Fixpoint Integral (ig : Integrator) (st : Integrand)
  : Res (D * D * D * Integrand) :=
  match ig with
  | Estimate i e c => Done (i, e, c, st)
  | Sample x k => '(v, st) <- Eval x st ;; Integral (k v) st
  end.


(* --------------------------------------------------------------- *)
(** *** [make_assumption] *)

(** The position [( static_cast<size_t>( *it ) - 1 ) / 3], on 64-bit [size_t]. *)
Definition lost_particle (it : PSVar) : nat :=
  Z.to_nat (((it - 1) mod 2 ^ 64) / 3).

(** The inner loop that aligns [-1] with the lost quarks. *)
Fixpoint force_lost (lost : list PSVar) (count : nat) (perm : list Z)
  : Res (list Z) :=
  match lost with
  | [] => Done perm
  | it :: rest =>
      perm <- (if Nat.even count then set_nat perm (lost_particle it) (-1)%Z
               else Done perm) ;;
      force_lost rest (S count) perm
  end.

(** [for(auto ind : perm){ if(ind<0) ++count; }] *)
Definition count_lost (perm : list Z) : nat :=
  length (filter (fun ind => (ind <? 0)%Z) perm).

Definition push_back_assumption (st : Integrand) (perm : list Z) (k : D)
  : Integrand :=
  set_assumption st (perm_indexes_assumption st ++ [perm])
                 (perm_const_assumption st ++ [k]).

(** The loop [for( auto perm : perm_indexes )]. *)
Fixpoint remove_unwanted (lost : list PSVar) (perms : list (list Z))
         (st : Integrand) : Res Integrand :=
  match perms with
  | [] => Done st
  | perm :: rest =>
      perm <- force_lost lost 0 perm ;;
      if negb (count_lost perm =? length lost / 2)%nat
      then remove_unwanted lost rest st
      else
        ok <- accept_perm st perm (perm_pruning (cfg st)) ;;
        if negb ok then remove_unwanted lost rest st
        else
          k <- get_permutation_constants st perm ;;
          remove_unwanted lost rest (push_back_assumption st perm k)
  end.

(** [get_width]: the loop from [i] on, [n] rounds left. *)
Fixpoint get_width_from (xL xU : list D) (n i : nat) (out : D) : Res D :=
  match n with
  | O => Done out
  | S n' =>
      u <- at_nat xU i ;;
      l <- at_nat xL i ;;
      get_width_from xL xU n' (S i) (out * dabs (u - l))
  end.

Definition get_width (xL xU : list D) (nvar : nat) : Res D :=
  get_width_from xL xU nvar 0 1.

(** One integral per permutation ([cfg.perm_int]). *)
Fixpoint integrate_per_perm (fuel : nat) (xL xU : list D) (n_perm : nat)
         (acc : D * D * D) (st : Integrand) : Res (D * D * D * Integrand) :=
  match fuel with
  | O => Done (acc, st)
  | S fuel' =>
      if (n_perm <? length (perm_indexes_assumption st))%nat then
        let '(prob, err2, chi2) := acc in
        let st := set_this_perm st n_perm in
        '(n_prob, err, chisqr, st) <-
          Integral (VEGAS (n_max_calls st) xL xU) (add_log st CallIntegral) ;;
        let size := frac (Z.of_nat (length (perm_indexes_assumption st))) 1 in
        integrate_per_perm fuel' xL xU (S n_perm)
          (prob + n_prob, err2 + err * err, chi2 + chisqr / size) st
      else Done (acc, st)
  end.

Definition set_result (out : MEMOutput) (p p_err chi2 : D) : MEMOutput :=
  {| out_p := p; out_p_err := p_err; out_chi2 := chi2;
     out_time := out_time out; out_num_perm := out_num_perm out;
     out_final_state := out_final_state out;
     out_hypothesis := out_hypothesis out;
     out_assumption := out_assumption out;
     out_num_max_calls := out_num_max_calls out;
     out_num_calls := out_num_calls out;
     out_efficiency := out_efficiency out;
     out_error_code := out_error_code out |}.

Definition make_assumption (lost : list PSVar) (out : MEMOutput)
           (st : Integrand) : Res (MEMOutput * Integrand) :=
  let prob : D := 0 in
  let err2 : D := 0 in
  let chi2 : D := 0 in
  (* an assumption may not be consistent with the number of observed jets *)
  let '(ok, st) := test_assumption (length lost / 2) st in
  if negb ok then Done (out, st)
  else
    let st := set_assumption st [] (perm_const_assumption st) in
    (* extra variables to integrate over *)
    let st := fill_map lost st in
    (* remove unwanted permutations *)
    st <- remove_unwanted lost (perm_indexes st) st ;;
    (* create integration ranges *)
    let npar := Z.to_nat (num_of_vars st + Z.of_nat (length lost)) in
    xL <- get_edges st lost npar false ;;
    xU <- get_edges st lost npar true ;;
    volume <- get_width xL xU npar ;;
    (* do the integral *)
    '(prob, err2, chi2, st) <-
      (if perm_int (cfg st) then
         integrate_per_perm (length (perm_indexes_assumption st)) xL xU 0
                            (prob, err2, chi2) st
       else Done (prob, err2, chi2, st)) ;;
    '(prob, err2, chi2, st) <-
      (if negb (perm_int (cfg st)) then
         '(i, err, chisqr, st) <-
           Integral (VEGAS (n_max_calls st) xL xU) (add_log st CallIntegral) ;;
         Done (prob + i, err2 + err * err, chi2 + chisqr, st)
       else Done (prob, err2, chi2, st)) ;;
    let prob := if (int_code (cfg st) =? 0)%Z then prob / volume else prob in
    Done (set_result out prob (dsqrt err2) chi2, st).

(* --------------------------------------------------------------- *)
(** *** The event / hypothesis lifecycle *)

(** [obj->addObs(name, v)]; modelled from the spec: observables are set
    at most once. *)
Definition addObs (o : Object) (name : Observable.Observable) (v : D) : Object :=
  if isSet o name then o else {| p4 := p4 o; obs := obs o ++ [(name, v)] |}.

(** The body of the loop [for( auto j : obs_jets )] of [init]. *)
Definition add_edges (st : Integrand) (j : Object) : Object :=
  let j :=
    if negb (isSet j Observable.E_LOW_Q) || negb (isSet j Observable.E_HIGH_Q)
    then let edges := get_support st j TFType.qReco in
         addObs (addObs j Observable.E_LOW_Q (fst edges))
                Observable.E_HIGH_Q (snd edges)
    else j in
  if negb (isSet j Observable.E_LOW_B) || negb (isSet j Observable.E_HIGH_B)
  then let edges := get_support st j TFType.bReco in
       addObs (addObs j Observable.E_LOW_B (fst edges))
              Observable.E_HIGH_B (snd edges)
  else j.

(** a class member: used to keep track of how many quarks are expected *)
Definition quarks_expected (f : FinalState.FinalState) : nat :=
  match f with
  | FinalState.HH => 8
  | FinalState.LH => 6
  | FinalState.LL => 4
  | _ => 0
  end.

Definition leptons_expected (f : FinalState.FinalState) : nat :=
  match f with
  | FinalState.LH => 1
  | FinalState.LL => 2
  | _ => 0
  end.

(** [perm_index]: the jet positions, filled up with [-1]. *)
Definition initial_perm_index (n_jets naive : nat) : list Z :=
  map Z.of_nat (seq 0 n_jets) ++ repeat (-1)%Z (naive - n_jets).

Definition Z_of_bool (b : bool) : Z := if b then 1%Z else 0%Z.

Definition init (f : FinalState.FinalState) (h : Hypo.Hypo) (st : Integrand)
  : Res Integrand :=
  if negb (length (obs_leptons st) =? leptons_expected f)%nat then AssertFailed
  else
    let naive := quarks_expected f in
    let perm_index := initial_perm_index (length (obs_jets st)) naive in
    let jets := map (add_edges st) (obs_jets st) in
    let unstable :=
      match f with
      | FinalState.LH | FinalState.LL | FinalState.HH => true
      | _ => false
      end in
    let dim :=
      (8 * Z_of_bool unstable
       + (3 * Z_of_bool (Hypo.eqb h Hypo.TTH)
          + 4 * Z_of_bool (Hypo.eqb h Hypo.TTBB)) * Z_of_bool (negb unstable))%Z in
    let st1 :=
      {| cfg := cfg st; error_code := error_code st;
         num_of_vars := num_of_vars st; ps_dim := ps_dim st;
         naive_jet_counting := naive; extra_jets := extra_jets st;
         fs := f; hypo := h;
         n_calls := n_calls st; n_max_calls := n_max_calls st;
         n_skip := n_skip st; this_perm := this_perm st;
         obs_jets := jets; obs_leptons := obs_leptons st;
         obs_mets := obs_mets st; perm_indexes := perm_indexes st;
         perm_indexes_assumption := perm_indexes_assumption st;
         perm_const_assumption := perm_const_assumption st;
         map_to_part := map_to_part st; log := log st |} in
    Done
      {| cfg := cfg st; error_code := error_code st;
         num_of_vars :=
           (3 * dim - 3 * Z.of_nat (length (obs_leptons st))
            - 2 * Z.of_nat naive - 4 * Z_of_bool unstable
            - Z_of_bool (Hypo.eqb h Hypo.TTH && unstable)
            - 2 * Z_of_bool (length (obs_mets st) =? 0)%nat)%Z;
         ps_dim := dim;
         naive_jet_counting := naive; extra_jets := extra_jets st;
         fs := f; hypo := h;
         n_calls := n_calls st; n_max_calls := n_max_calls st;
         n_skip := n_skip st; this_perm := this_perm st;
         obs_jets := jets; obs_leptons := obs_leptons st;
         obs_mets := obs_mets st;
         perm_indexes := perm_indexes st ++ arrangements st1 perm_index;
         perm_indexes_assumption := perm_indexes_assumption st;
         perm_const_assumption := perm_const_assumption st;
         map_to_part := map_to_part st; log := log st |}.

Definition set_n_max_calls (st : Integrand) (v : nat) : Integrand :=
  {| cfg := cfg st; error_code := error_code st; num_of_vars := num_of_vars st;
     ps_dim := ps_dim st; naive_jet_counting := naive_jet_counting st;
     extra_jets := extra_jets st; fs := fs st; hypo := hypo st;
     n_calls := n_calls st; n_max_calls := v;
     n_skip := n_skip st; this_perm := this_perm st;
     obs_jets := obs_jets st; obs_leptons := obs_leptons st;
     obs_mets := obs_mets st; perm_indexes := perm_indexes st;
     perm_indexes_assumption := perm_indexes_assumption st;
     perm_const_assumption := perm_const_assumption st;
     map_to_part := map_to_part st; log := log st |}.

Definition next_hypo (st : Integrand) : Integrand :=
  {| cfg := cfg st; error_code := error_code st; num_of_vars := num_of_vars st;
     ps_dim := ps_dim st; naive_jet_counting := naive_jet_counting st;
     extra_jets := extra_jets st; fs := fs st; hypo := hypo st;
     n_calls := 0; n_max_calls := n_max_calls st;
     n_skip := 0; this_perm := this_perm st;
     obs_jets := obs_jets st; obs_leptons := obs_leptons st;
     obs_mets := obs_mets st; perm_indexes := [];
     perm_indexes_assumption := [];
     perm_const_assumption := [];
     map_to_part := []; log := log st |}.

(** [run]; [time] is the wall-clock duration the run measures. *)
Definition run (f : FinalState.FinalState) (h : Hypo.Hypo)
           (list : list PSVar) (time : Z) (st : Integrand)
  : Res (MEMOutput * Integrand) :=
  (* the output for this evaluation *)
  let out := MEMOutput_default in
  (* prepare permutation, count variables *)
  st <- init f h st ;;
  (* number of calls *)
  let st := set_n_max_calls st
              (if is_default (cfg st)
               then calls (cfg st) (fs st) h (length list / 2)
               else cfg_n_max_calls (cfg st)) in
  (* do the calculation *)
  '(out, st) <- make_assumption list out st ;;
  let out :=
    {| out_p := out_p out; out_p_err := out_p_err out; out_chi2 := out_chi2 out;
       out_time := time;
       out_num_perm := length (perm_indexes_assumption st);
       out_final_state := fs st;
       out_hypothesis := h;
       out_assumption := (length list / 2)%nat;
       out_num_max_calls := n_max_calls st;
       out_num_calls := n_calls st;
       out_efficiency :=
         frac (Z.of_nat (n_calls st)) 1
         / frac (Z.of_nat (n_calls st + n_skip st)) 1;
       out_error_code := error_code st |} in
  (* delete stuff and prepare for new hypothesis *)
  Done (out, next_hypo st).

End Model.

Arguments TVector3 : clear implicits.
Arguments TLorentzVector : clear implicits.
Arguments LV : clear implicits.
Arguments Object : clear implicits.
Arguments GenPart : clear implicits.
Arguments PS : clear implicits.
Arguments MEMOutput : clear implicits.
Arguments Integrand : clear implicits.
Arguments Integrator : clear implicits.
Arguments Collaborators : clear implicits.

(* ================================================================= *)
(** ** Inputs for the examples *)

(** ROOT's [TLorentzVector::Beta()] and [TVector3::Angle()] read over the
    reals.  The theorems hold for every accessor; these are the ones the
    examples are evaluated with. *)
Module Root.
Definition Dot (u v : TVector3 R) : R :=
  (X u * X v + Y u * Y v + Z3 u * Z3 v)%R.

Definition Beta (p : LV R) : R := (sqrt (Mag2 (Vect p)) / E p)%R.

Definition Angle (p : LV R) (q : TVector3 R) : R :=
  let ptot2 := (Mag2 (Vect p) * Mag2 q)%R in
  if Rle_dec ptot2 0 then 0%R
  else
    let arg := (Dot (Vect p) q / sqrt ptot2)%R in
    let arg := if Rlt_dec 1 arg then 1%R else arg in
    let arg := if Rlt_dec arg (-1) then (-1)%R else arg in
    acos arg.

(** [solve] with ROOT's accessors and [TMath::Cos]. *)
Definition solve := solve (D := R) (@E R) Beta Angle cos.
End Root.

(** A parent of energy 5 and momentum 4 along x, and the x axis. *)
Definition parent_x : LV R :=
  {| Vect := {| X := 4%R; Y := 0%R; Z3 := 0%R |}; E := 5%R |}.
Definition axis_x : TVector3 R := {| X := 1%R; Y := 0%R; Z3 := 0%R |}.
Definition axis_y : TVector3 R := {| X := 0%R; Y := 1%R; Z3 := 0%R |}.

(* ================================================================= *)
(** ** Vocabulary of the properties *)

Section Vocabulary.
Context {D : Type} `{Double D} {ext : Collaborators D}.
Local Open Scope dbl_scope.

(** Two states that differ at most in the counters [n_calls], [n_skip],
    in [error_code] and in the log of calls. *)
Definition same_event (st st' : Integrand D) : Prop :=
  cfg st' = cfg st /\ num_of_vars st' = num_of_vars st
  /\ ps_dim st' = ps_dim st
  /\ naive_jet_counting st' = naive_jet_counting st
  /\ extra_jets st' = extra_jets st /\ fs st' = fs st /\ hypo st' = hypo st
  /\ n_max_calls st' = n_max_calls st /\ this_perm st' = this_perm st
  /\ obs_jets st' = obs_jets st /\ obs_leptons st' = obs_leptons st
  /\ obs_mets st' = obs_mets st /\ perm_indexes st' = perm_indexes st
  /\ perm_indexes_assumption st' = perm_indexes_assumption st
  /\ perm_const_assumption st' = perm_const_assumption st
  /\ map_to_part st' = map_to_part st.

(** The test that sends a round of the loop of [Eval] to [continue]. *)
Definition skipped (st : Integrand D) (n_perm : nat) : bool :=
  perm_int (cfg st) && negb (n_perm =? this_perm st)%nat.

(** The permutations retained for one evaluation of the integrand: all
    those of the assumption, or the one selected by [this_perm]. *)
Definition retained (st : Integrand D) : list nat :=
  if perm_int (cfg st) then
    if (this_perm st <? length (perm_indexes_assumption st))%nat
    then [this_perm st] else []
  else seq 0 (length (perm_indexes_assumption st)).

(** [probability(x, n_perm)] for each [n_perm] of a list, in turn. *)
Fixpoint probabilities (x : list D) (perms : list nat) (st : Integrand D)
  : Res (list D * Integrand D) :=
  match perms with
  | [] => Done ([], st)
  | n_perm :: rest =>
      '(p0, st) <- probability x n_perm st ;;
      '(ps, st) <- probabilities x rest st ;;
      Done (p0 :: ps, st)
  end.

(** [p + p0_1 * p1_1 + ... + p0_n * p1_n], added up from the left. *)
Definition add_products (p : D) (p0s p1s : list D) : D :=
  fold_left (fun acc pc => acc + fst pc * snd pc) (combine p0s p1s) p.

(** The cached constant of permutation [n_perm]. *)
Definition perm_const (st : Integrand D) (n_perm : nat) : D :=
  nth n_perm (perm_const_assumption st) 0.

(** The lost-quark variables that designate a slot: [make_assumption]
    uses every second entry of the list, starting with the first. *)
Fixpoint designated (lost : list PSVar) : list PSVar :=
  match lost with
  | it :: _ :: rest => it :: designated rest
  | [it] => [it]
  | [] => []
  end.

(** What holds of a permutation kept for the assumption [lost], given the
    enumerated permutations [raws]. *)
Definition kept_for (lost : list PSVar) (raws : list (list Z))
           (perm : list Z) : Prop :=
  count_lost perm = (length lost / 2)%nat
  /\ (forall it, In it (designated lost) ->
                 nth_error perm (lost_particle it) = Some (-1)%Z)
  /\ exists raw, In raw raws /\ force_lost lost 0 raw = Done perm.

(** Every cached constant is the value of [get_permutation_constants] on
    the permutation at the same position. *)
Definition cached (st : Integrand D) : Prop :=
  Forall2 (fun perm k => get_permutation_constants st perm = Done k)
          (perm_indexes_assumption st) (perm_const_assumption st).

(** The slots whose energy is an integration variable, with the
    observables that bound it. *)
Definition energy_slots (f : FinalState.FinalState) (h : Hypo.Hypo)
  : list (PSPart.PSPart * Observable.Observable * Observable.Observable) :=
  let q part := (part, Observable.E_HIGH_Q, Observable.E_LOW_Q) in
  let b part := (part, Observable.E_HIGH_B, Observable.E_LOW_B) in
  let bbar := if Hypo.eqb h Hypo.TTBB then [b PSPart.bbar] else [] in
  match f with
  | FinalState.LH => [q PSPart.q1; b PSPart.b] ++ bbar
  | FinalState.LL => [b PSPart.b] ++ bbar
  | FinalState.HH => [q PSPart.q1; q PSPart.q2; b PSPart.b] ++ bbar
  | _ => []
  end.

(** The window widths of a list of slots. *)
Fixpoint widths (st : Integrand D) (perm : list Z)
         (slots : list (PSPart.PSPart * Observable.Observable
                        * Observable.Observable)) : Res (list D) :=
  match slots with
  | [] => Done []
  | (part, hi, lo) :: rest =>
      w <- DeltaE st perm part hi lo ;;
      ws <- widths st perm rest ;;
      Done (w :: ws)
  end.

(** The permutation constant as the specification words it: the product
    of the window widths over every quark-level slot that is assigned to a
    real jet. *)
Definition quark_slots (f : FinalState.FinalState)
  : list (PSPart.PSPart * Observable.Observable * Observable.Observable) :=
  let q part := (part, Observable.E_HIGH_Q, Observable.E_LOW_Q) in
  let b part := (part, Observable.E_HIGH_B, Observable.E_LOW_B) in
  match f with
  | FinalState.LH =>
      [q PSPart.q1; q PSPart.qbar1; b PSPart.b1; b PSPart.b2; b PSPart.b;
       b PSPart.bbar]
  | FinalState.LL => [b PSPart.b1; b PSPart.b2; b PSPart.b; b PSPart.bbar]
  | FinalState.HH =>
      [q PSPart.q1; q PSPart.qbar1; b PSPart.b1; q PSPart.q2;
       q PSPart.qbar2; b PSPart.b2; b PSPart.b; b PSPart.bbar]
  | _ => []
  end.

Fixpoint spec_permutation_constant_from (st : Integrand D) (perm : list Z)
         (slots : list (PSPart.PSPart * Observable.Observable
                        * Observable.Observable)) (p : D) : Res D :=
  match slots with
  | [] => Done p
  | (part, hi, lo) :: rest =>
      pos <- map_find (map_to_part st) part ;;
      j <- at_nat perm pos ;;
      if (j <? 0)%Z then spec_permutation_constant_from st perm rest p
      else
        w <- DeltaE st perm part hi lo ;;
        spec_permutation_constant_from st perm rest (p * w)
  end.

Definition spec_permutation_constant (st : Integrand D) (perm : list Z) : Res D :=
  spec_permutation_constant_from st perm (quark_slots (fs st)) 1.

End Vocabulary.

(** Collaborators for the examples, in binary64: a phase-space builder that
    gives every particle the energy [x[0]] along the x axis and rejects a
    negative [x[0]]; unit transfer functions and amplitudes; a parton density
    [f1*f2/(x1*x2)] with [f = x], which is NaN at [x = 0]; a two-point
    integrator. *)
Module Example.
Definition axis : TVector3 float :=
  {| X := 1%float; Y := 0%float; Z3 := 0%float |}.

Definition all_parts : list PSPart.PSPart :=
  [PSPart.q1; PSPart.qbar1; PSPart.b1; PSPart.q2; PSPart.qbar2; PSPart.b2;
   PSPart.b; PSPart.bbar; PSPart.t; PSPart.tbar; PSPart.h].

Definition build (ps : PS float) (x : list float)
  : Res (PS float * Z) :=
  match x with
  | [] => Undefined
  | e :: _ =>
      Done (fold_left
              (fun ps part =>
                 extend_PS ps part e 0%float axis 0%Z 0%Z 0%Z 0%Z
                           TFType.Unknown 0%Z)
              all_parts ps,
            if (e <? 0%float)%dbl then (-1)%Z else 0%Z)
  end.

#[export] Instance ext : Collaborators float := {|
  create_PS_LH  := fun _ ps x _ => build ps x;
  create_PS_LL  := fun _ ps x _ => build ps x;
  create_PS_HH  := fun _ ps x _ => build ps x;
  create_PS_TTH := fun _ ps x _ => build ps x;
  PS_new := fun _ => [];
  constants := fun _ => 1%float;
  transfer_product := fun _ _ _ accept => Done (1%float, accept);
  t_decay_amplitude := fun _ _ _ _ _ => 1%float;
  H_decay_amplitude := fun _ _ _ => 1%float;
  scattering := fun _ _ _ lv_b lv_bbar => (1%float, E lv_b, E lv_bbar);
  pdf := fun _ x1 x2 _ => ((x1 * x2) / (x1 * x2))%dbl;
  nodecay_Jac := fun _ _ _ => 1%float;
  VEGAS := fun _ xL xU =>
    Sample xL (fun v1 => Sample xU (fun v2 =>
      Estimate ((v1 + v2) / 2%float)%dbl 0%float 1%float));
  get_edges := fun _ _ npar edge =>
    Done (repeat (if edge then 1%float else 0.5%float) npar);
  get_support := fun _ j ty =>
    match ty with
    | TFType.qReco => (E (p4 j) / 2%float, E (p4 j) * 2%float)%dbl
    | _ => (E (p4 j) / 2%float, E (p4 j) * 4%float)%dbl
    end;
  arrangements := fun _ l => [l; rev l];
  IntegrandType_Transfer := 1%Z
|}.

Definition jet (e : float) (btag : float) : Object float :=
  {| p4 := {| Vect := {| X := e; Y := 0%float; Z3 := 0%float |}; E := e |};
     obs := [(Observable.BTAG, btag)] |}.

Definition lepton : Object float :=
  {| p4 := {| Vect := {| X := 0%float; Y := 30%float; Z3 := 0%float |};
              E := 30%float |};
     obs := [(Observable.CHARGE, 1%float)] |}.

Definition config : MEMConfig :=
  {| int_code := 1; perm_int := false; perm_pruning := [];
     tf_suppress := 0; is_default := true; cfg_n_max_calls := 0;
     calls := fun _ _ _ => 2%nat; highpt_first := true |}.

(** The state of a new [Integrand] after six jets and one lepton have been
    pushed back. *)
Definition start : Integrand float :=
  {| cfg := config; error_code := 0; num_of_vars := 0; ps_dim := 0;
     naive_jet_counting := 0; extra_jets := 0;
     fs := FinalState.Undefined; hypo := Hypo.Undefined;
     n_calls := 0; n_max_calls := 0; n_skip := 0; this_perm := 0;
     obs_jets := [jet 50 0.125; jet 60 0.25; jet 70 0.875; jet 80 0.75;
                  jet 90 1; jet 100 0.625]%float;
     obs_leptons := [lepton]; obs_mets := [];
     perm_indexes := []; perm_indexes_assumption := [];
     perm_const_assumption := []; map_to_part := []; log := [] |}.

(** The same event with five jets only. *)
Definition start5 : Integrand float :=
  {| cfg := config; error_code := 0; num_of_vars := 0; ps_dim := 0;
     naive_jet_counting := 0; extra_jets := 0;
     fs := FinalState.Undefined; hypo := Hypo.Undefined;
     n_calls := 0; n_max_calls := 0; n_skip := 0; this_perm := 0;
     obs_jets := [jet 50 0.125; jet 60 0.25; jet 70 0.875; jet 80 0.75;
                  jet 90 1]%float;
     obs_leptons := [lepton]; obs_mets := [];
     perm_indexes := []; perm_indexes_assumption := [];
     perm_const_assumption := []; map_to_part := []; log := [] |}.

(** After [init(FinalState::LH, Hypothesis::TTH)]. *)
Definition initialised : Integrand float :=
  match init FinalState.LH Hypo.TTH start with
  | Done st => st
  | _ => start
  end.

(** The quark at position 1 is lost: by the comment in [make_assumption]
    the entries are the cosine, 4, and the azimuth, 5, of that quark, one
    above and two above its energy variable, and [(4 - 1) / 3 = 1]. *)
Definition lost_qbar1 : list PSVar := [4%Z; 5%Z].

(** After the permutations of [initialised] have been restricted to the
    assumption that no quark is lost. *)
Definition restricted : Integrand float :=
  match remove_unwanted [] (perm_indexes initialised)
                        (fill_map [] initialised) with
  | Done st => st
  | _ => initialised
  end.
End Example.

#[global] Existing Instance Example.ext.

(** A dileptonic event over the reals: four jets whose b-quark windows are
    [40,100], [50,130], [60,150] and [70,90]. *)
Module RealExample.

Definition jet (e lo hi : R) : Object R :=
  {| p4 := {| Vect := {| X := e; Y := 0%R; Z3 := 0%R |}; E := e |};
     obs := [(Observable.E_LOW_B, lo); (Observable.E_HIGH_B, hi)] |}.

Definition event : Integrand R :=
  fill_map []
    {| cfg := Example.config; error_code := 0; num_of_vars := 5; ps_dim := 8;
       naive_jet_counting := 4; extra_jets := 0;
       fs := FinalState.LL; hypo := Hypo.TTBB;
       n_calls := 0; n_max_calls := 0; n_skip := 0; this_perm := 0;
       obs_jets := [jet 70 40 100; jet 90 50 130; jet 100 60 150;
                    jet 80 70 90]%R;
       obs_leptons := []; obs_mets := [];
       perm_indexes := [[0; 1; 2; 3]%Z];
       perm_indexes_assumption := []; perm_const_assumption := [];
       map_to_part := []; log := [] |}.

End RealExample.

(* ================================================================= *)
(** ** Vocabulary of the pruning strategies *)

Section PruningVocabulary.
Context {D : Type} `{Double D}.

(** Position [ind] of [perm] holds a real jet whose b-tag is set to a
    value that passes [cut]. *)
Definition tagged (cut : D -> bool) (st : Integrand D) (perm : list Z)
           (ind : nat) : Prop :=
  exists (j : Z) (obj : Object D) (v : D),
    nth_error perm ind = Some j
    /\ (0 <= j)%Z
    /\ nth_error (obs_jets st) (Z.to_nat j) = Some obj
    /\ find_obs (obs obj) Observable.BTAG = Some v
    /\ cut v = true.

(** The positions that [fill_map] gives to the four b quarks. *)
Definition b_slots (f : FinalState.FinalState) : list nat :=
  match f with
  | FinalState.LH => [2; 3; 4; 5]
  | FinalState.LL => [0; 1; 2; 3]
  | FinalState.HH => [2; 5; 6; 7]
  | _ => []
  end%nat.

(** The positions that [fill_map] gives to the light quarks of the
    hadronic W decays. *)
Definition q_slots (f : FinalState.FinalState) : list nat :=
  match f with
  | FinalState.LH => [0; 1]
  | FinalState.HH => [0; 1; 3; 4]
  | _ => []
  end%nat.

(** [indexes1] of the symmetry strategies: the positions compared in
    pairs, each pair the same or exchanged. *)
Definition symmetric_slots (f : FinalState.FinalState)
           (s : Permutations.Permutations) : list nat :=
  let bb (i j : nat) :=
    match s with
    | Permutations.BBbarSymmetry => [i; j]
    | _ => []
    end in
  match f with
  | FinalState.LH => [0; 1] ++ bb 4 5
  | FinalState.LL => bb 2 3
  | FinalState.HH => [0; 1; 3; 4] ++ bb 6 7
  | _ => []
  end%nat.

(** [indexes2]: the positions that must hold the same jet. *)
Definition asymmetric_slots (f : FinalState.FinalState) : list nat :=
  match f with
  | FinalState.LH => [2; 3]
  | FinalState.LL => [0; 1]
  | FinalState.HH => [2; 5]
  | _ => []
  end%nat.

(** [visited[i] == perm[j]], both in range. *)
Definition slot_eq (visited perm : list Z) (i j : nat) : Prop :=
  exists z : Z, nth_error visited i = Some z /\ nth_error perm j = Some z.

Fixpoint pairs_of (l : list nat) : list (nat * nat) :=
  match l with
  | a :: b :: rest => (a, b) :: pairs_of rest
  | _ => []
  end.

(** [perm] repeats [visited]: the same jets at the positions [indexes2],
    and at each pair of [indexes1] the same two jets, in either order.
    Nothing is asked of the other positions. *)
Definition swapped_copy (indexes1 indexes2 : list nat)
           (visited perm : list Z) : Prop :=
  (forall k, In k indexes2 -> slot_eq visited perm k k)
  /\ (forall a b, In (a, b) (pairs_of indexes1) ->
        (slot_eq visited perm a a /\ slot_eq visited perm b b)
        \/ (slot_eq visited perm a b /\ slot_eq visited perm b a)).

(** No permutation of the list repeats an earlier one. *)
Fixpoint no_swapped_copies (indexes1 indexes2 : list nat)
         (perms : list (list Z)) : Prop :=
  match perms with
  | [] => True
  | p :: rest =>
      no_swapped_copies indexes1 indexes2 rest
      /\ forall q, In q rest -> ~ swapped_copy indexes1 indexes2 p q
  end.

End PruningVocabulary.

(** A semileptonic event with pruning switched on: the six jets of
    [Example.start], and five enumerated permutations of which the second
    exchanges the two light quarks of the first, the third its two Higgs
    b quarks, the fourth puts an untagged jet at the position of b1 and
    the fifth exchanges the b quarks of the two tops. *)
Module PruningExample.

Definition config : MEMConfig :=
  {| int_code := 1; perm_int := false;
     perm_pruning := [Permutations.BTagged; Permutations.QQbarSymmetry];
     tf_suppress := 0; is_default := true; cfg_n_max_calls := 0;
     calls := fun _ _ _ => 2%nat; highpt_first := true |}.

Definition event : Integrand float :=
  let st := Example.initialised in
  {| cfg := config; error_code := error_code st;
     num_of_vars := num_of_vars st; ps_dim := ps_dim st;
     naive_jet_counting := naive_jet_counting st;
     extra_jets := extra_jets st; fs := fs st; hypo := hypo st;
     n_calls := n_calls st; n_max_calls := n_max_calls st;
     n_skip := n_skip st; this_perm := this_perm st;
     obs_jets := obs_jets st; obs_leptons := obs_leptons st;
     obs_mets := obs_mets st;
     perm_indexes := [[0; 1; 2; 3; 4; 5]; [1; 0; 2; 3; 4; 5];
                      [0; 1; 2; 3; 5; 4]; [2; 1; 0; 3; 4; 5];
                      [0; 1; 3; 2; 4; 5]]%Z;
     perm_indexes_assumption := perm_indexes_assumption st;
     perm_const_assumption := perm_const_assumption st;
     map_to_part := map_to_part st; log := log st |}.

End PruningExample.

(* ================================================================= *)
(** ** Vocabulary of the counters *)

(** [error_code] after a step: as before, or 1. *)
Definition raised (before after : Z) : Prop := after = before \/ after = 1%Z.

Definition Call_eq_dec (a b : Call) : {a = b} + {a <> b}.
Proof. decide equality. Defined.

(** The example event in two other modes of the integrand: with
    [cfg.int_code = 0], and with [cfg.tf_suppress] set so that the example
    transfer functions, which leave [accept] at 0, count as out of range. *)
Module ModesExample.

Definition with_cfg (c : MEMConfig) (st : Integrand float) : Integrand float :=
  {| cfg := c; error_code := error_code st;
     num_of_vars := num_of_vars st; ps_dim := ps_dim st;
     naive_jet_counting := naive_jet_counting st;
     extra_jets := extra_jets st; fs := fs st; hypo := hypo st;
     n_calls := n_calls st; n_max_calls := n_max_calls st;
     n_skip := n_skip st; this_perm := this_perm st;
     obs_jets := obs_jets st; obs_leptons := obs_leptons st;
     obs_mets := obs_mets st; perm_indexes := perm_indexes st;
     perm_indexes_assumption := perm_indexes_assumption st;
     perm_const_assumption := perm_const_assumption st;
     map_to_part := map_to_part st; log := log st |}.

Definition volume : Integrand float :=
  with_cfg {| int_code := 0; perm_int := false; perm_pruning := [];
              tf_suppress := 0; is_default := true; cfg_n_max_calls := 0;
              calls := fun _ _ _ => 2%nat; highpt_first := true |}
           Example.restricted.

Definition suppressing : Integrand float :=
  with_cfg {| int_code := 1; perm_int := false; perm_pruning := [];
              tf_suppress := -1; is_default := true; cfg_n_max_calls := 0;
              calls := fun _ _ _ => 2%nat; highpt_first := true |}
           Example.restricted.

End ModesExample.

(* ================================================================= *)
(** ** Vocabulary of the energy windows *)

Section WindowVocabulary.
Context {D : Type} `{Double D}.

(** The positions, in a permutation, of the quarks whose energy is an
    integration variable: those [get_permutation_constants] looks up. *)
Definition energy_positions (f : FinalState.FinalState) (h : Hypo.Hypo)
  : list nat :=
  let bbar (i : nat) := if Hypo.eqb h Hypo.TTBB then [i] else [] in
  match f with
  | FinalState.LH => [0; 4] ++ bbar 5
  | FinalState.LL => [2] ++ bbar 3
  | FinalState.HH => [0; 3; 6] ++ bbar 7
  | _ => []
  end%nat.

(** The four window observables of a jet are set. *)
Definition has_windows (j : Object D) : Prop :=
  isSet j Observable.E_LOW_Q = true /\ isSet j Observable.E_HIGH_Q = true
  /\ isSet j Observable.E_LOW_B = true /\ isSet j Observable.E_HIGH_B = true.

(** Position [pos] of [perm] holds the index of an observed jet. *)
Definition real_jet (st : Integrand D) (perm : list Z) (pos : nat) : Prop :=
  exists j : Z,
    nth_error perm pos = Some j
    /\ (0 <= j < Z.of_nat (length (obs_jets st)))%Z.

(** [j1] is [j] with observables added: every observable of [j] is set
    in [j1]. *)
Definition extends (j j1 : Object D) : Prop :=
  p4 j1 = p4 j
  /\ forall name v, find_obs (obs j) name = Some v ->
                    find_obs (obs j1) name = Some v.

(** What [init] keeps of a jet [j] in [j1]: the four-momentum, the
    observables that are no window edge, and each pair of window edges
    that was given completely. *)
Definition keeps_given (j j1 : Object D) : Prop :=
  let same name := find_obs (obs j1) name = find_obs (obs j) name in
  p4 j1 = p4 j
  /\ same Observable.BTAG /\ same Observable.CHARGE
  /\ (isSet j Observable.E_LOW_Q = true ->
      isSet j Observable.E_HIGH_Q = true ->
      same Observable.E_LOW_Q /\ same Observable.E_HIGH_Q)
  /\ (isSet j Observable.E_LOW_B = true ->
      isSet j Observable.E_HIGH_B = true ->
      same Observable.E_LOW_B /\ same Observable.E_HIGH_B).

End WindowVocabulary.

(** The event of [Example.start5], five jets for six quarks, after [init],
    with one enumerated permutation: the jets in order, and [-1] for the
    sixth quark. *)
Module LostExample.

Definition event : Integrand float :=
  let st := match init FinalState.LH Hypo.TTH Example.start5 with
            | Done st => st
            | _ => Example.start5
            end in
  {| cfg := cfg st; error_code := error_code st;
     num_of_vars := num_of_vars st; ps_dim := ps_dim st;
     naive_jet_counting := naive_jet_counting st;
     extra_jets := extra_jets st; fs := fs st; hypo := hypo st;
     n_calls := n_calls st; n_max_calls := n_max_calls st;
     n_skip := n_skip st; this_perm := this_perm st;
     obs_jets := obs_jets st; obs_leptons := obs_leptons st;
     obs_mets := obs_mets st;
     perm_indexes := [[0; 1; 2; 3; 4; -1]]%Z;
     perm_indexes_assumption := perm_indexes_assumption st;
     perm_const_assumption := perm_const_assumption st;
     map_to_part := map_to_part st; log := log st |}.


End LostExample.

(* ================================================================= *)
(** ** The event lifecycle: setters and [next_event] *)

Module ObjectType.
(** The enumerators that [push_back_object] names; every other one takes
    the [default] branch. *)
Inductive ObjectType := Jet | Lepton | MET | Unknown.
End ObjectType.

Section EventLifecycle.
Context {D : Type} `{Double D}.







Definition set_objects (st : Integrand D) (jets leptons mets : list (Object D))
  : Integrand D :=
  {| cfg := cfg st; error_code := error_code st; num_of_vars := num_of_vars st;
     ps_dim := ps_dim st; naive_jet_counting := naive_jet_counting st;
     extra_jets := extra_jets st; fs := fs st; hypo := hypo st;
     n_calls := n_calls st; n_max_calls := n_max_calls st;
     n_skip := n_skip st; this_perm := this_perm st;
     obs_jets := jets; obs_leptons := leptons;
     obs_mets := mets; perm_indexes := perm_indexes st;
     perm_indexes_assumption := perm_indexes_assumption st;
     perm_const_assumption := perm_const_assumption st;
     map_to_part := map_to_part st; log := log st |}.

(** [push_back_object(p4, type)]: a new object without observables goes to
    the end of the collection of its type; an unknown type adds nothing. *)
Definition push_back_object (lv : LV D) (type : ObjectType.ObjectType)
           (st : Integrand D) : Integrand D :=
  let obj := {| p4 := lv; obs := [] |} in
  match type with
  | ObjectType.Jet =>
      set_objects st (obs_jets st ++ [obj]) (obs_leptons st) (obs_mets st)
  | ObjectType.Lepton =>
      set_objects st (obs_jets st) (obs_leptons st ++ [obj]) (obs_mets st)
  | ObjectType.MET =>
      set_objects st (obs_jets st) (obs_leptons st) (obs_mets st ++ [obj])
  | _ => st
  end.

(** [( coll.back() )->addObs( obs.first, obs.second )] when the collection
    is not empty. *)
Definition add_to_back (coll : list (Object D))
           (name : Observable.Observable) (v : D) : list (Object D) :=
  match rev coll with
  | [] => coll
  | last :: front => rev front ++ [addObs last name v]
  end.

Definition add_object_observable (name : Observable.Observable) (v : D)
           (type : ObjectType.ObjectType) (st : Integrand D) : Integrand D :=
  match type with
  | ObjectType.Jet =>
      set_objects st (add_to_back (obs_jets st) name v)
                  (obs_leptons st) (obs_mets st)
  | ObjectType.Lepton =>
      set_objects st (obs_jets st)
                  (add_to_back (obs_leptons st) name v) (obs_mets st)
  | ObjectType.MET =>
      set_objects st (obs_jets st) (obs_leptons st)
                  (add_to_back (obs_mets st) name v)
  | _ => st
  end.

End EventLifecycle.

(* ================================================================= *)
(** ** The integration variables: [fill_map] and [get_edges] *)

(** The enumerators of [PSVar] that the source names.  The enumeration is
    declared in a header outside src/: the numbers are not known here. *)
Module PSVars.
Record Names := {
  E_q1 : PSVar; cos_q1 : PSVar; phi_q1 : PSVar;
  E_qbar1 : PSVar; cos_qbar1 : PSVar; phi_qbar1 : PSVar;
  E_b1 : PSVar; cos_b1 : PSVar; phi_b1 : PSVar;
  E_q2 : PSVar; cos_q2 : PSVar; phi_q2 : PSVar;
  E_qbar2 : PSVar; cos_qbar2 : PSVar; phi_qbar2 : PSVar;
  E_b2 : PSVar; cos_b2 : PSVar; phi_b2 : PSVar;
  E_b : PSVar; cos_b : PSVar; phi_b : PSVar;
  E_bbar : PSVar; cos_bbar : PSVar; phi_bbar : PSVar;
  P_t : PSVar; cos_t : PSVar; phi_t : PSVar;
  P_tbar : PSVar; cos_tbar : PSVar; phi_tbar : PSVar;
  Pz_h : PSVar
}.
End PSVars.

(** [map_to_var]: a map from phase-space variables to positions in the
    array of integration variables. *)
Definition VarMap := list (PSVar * nat).

(** [map_to_var[k] = v] *)
Definition var_set (m : VarMap) (k : PSVar) (v : nat) : VarMap := (k, v) :: m.

Fixpoint var_lookup (m : VarMap) (k : PSVar) : option nat :=
  match m with
  | [] => None
  | (k', v) :: rest => if (k' =? k)%Z then Some v else var_lookup rest k
  end.

(** [map_to_var.find(k)->second] *)
Definition var_find (m : VarMap) (k : PSVar) : Res nat :=
  match var_lookup m k with
  | Some v => Done v
  | None => Undefined
  end.

(** [map_to_var[k]] read: a key that is missing is inserted with 0. *)
Definition var_index (m : VarMap) (k : PSVar) : nat * VarMap :=
  match var_lookup m k with
  | Some v => (v, m)
  | None => (0%nat, var_set m k 0)
  end.

(** [for( auto l = lost.begin() ; l!=lost.end() ; ++l )
       map_to_var[*l] = count_extra++;] *)
Fixpoint fill_lost (lost : list PSVar) (count_extra : nat) (m : VarMap)
  : VarMap :=
  match lost with
  | [] => m
  | l :: rest => fill_lost rest (S count_extra) (var_set m l count_extra)
  end.

(** [fill_map], the half that [fill_map] above leaves out: the map from
    phase-space variables to integration variables. *)
Definition fill_map_to_var (v : PSVars.Names) (lost : list PSVar)
           (f : FinalState.FinalState) (h : Hypo.Hypo) (m : VarMap) : VarMap :=
  match f with
  | FinalState.LH =>
      let m := var_set m (PSVars.E_q1 v) 0 in
      let m := var_set m (PSVars.cos_qbar2 v) 1 in
      let m := var_set m (PSVars.phi_qbar2 v) 2 in
      let m := var_set m (PSVars.E_b v) 3 in
      let m := if Hypo.eqb h Hypo.TTBB then var_set m (PSVars.E_bbar v) 4
               else m in
      let count_extra := (4 + if Hypo.eqb h Hypo.TTBB then 1 else 0)%nat in
      fill_lost lost count_extra m
  | FinalState.LL =>
      let m := var_set m (PSVars.cos_qbar1 v) 0 in
      let m := var_set m (PSVars.phi_qbar1 v) 1 in
      let m := var_set m (PSVars.cos_qbar2 v) 2 in
      let m := var_set m (PSVars.phi_qbar2 v) 3 in
      let m := var_set m (PSVars.E_b v) 4 in
      let m := if Hypo.eqb h Hypo.TTBB then var_set m (PSVars.E_bbar v) 5
               else m in
      let count_extra := (5 + if Hypo.eqb h Hypo.TTBB then 1 else 0)%nat in
      fill_lost lost count_extra m
  | FinalState.HH =>
      let m := var_set m (PSVars.E_q1 v) 0 in
      let m := var_set m (PSVars.E_q2 v) 1 in
      let m := var_set m (PSVars.E_b v) 2 in
      let m := if Hypo.eqb h Hypo.TTBB then var_set m (PSVars.E_bbar v) 3
               else m in
      let count_extra := (3 + if Hypo.eqb h Hypo.TTBB then 1 else 0)%nat in
      fill_lost lost count_extra m
  | FinalState.TTH =>
      let m := var_set m (PSVars.P_t v) 0 in
      let m := var_set m (PSVars.cos_t v) 1 in
      let m := var_set m (PSVars.phi_t v) 2 in
      let m := var_set m (PSVars.P_tbar v) 3 in
      let m := var_set m (PSVars.cos_tbar v) 4 in
      let m := var_set m (PSVars.phi_tbar v) 5 in
      var_set m (PSVars.Pz_h v) 6
  | _ => m
  end.

Module Ranges.
Section Ranges.
Context {D : Type} `{Double D}.
Local Open Scope dbl_scope.

(** The names of [PSVar], [TMath::Pi()], [cfg.m_range_CL], [cfg.emax] and
    [get_support(y, TFType::MET, alpha, debug_code)]. *)
Variable v : PSVars.Names.
Variable TMath_Pi : D.
Variable m_range_CL : D.
Variable emax : D.
Variable get_support_MET : D -> D -> D -> D * D.

(** Unary minus: in binary64 and in the reals the product with [-1]. *)
Definition neg (x : D) : D := frac (-1) 1 * x.

(** [lim[map_to_var[k]] = x], on an array of [nvar] doubles of which
    those written so far hold a value. *)
Definition write (lim : list (option D)) (m : VarMap) (k : PSVar) (x : D)
  : Res (list (option D) * VarMap) :=
  let '(i, m) := var_index m k in
  lim <- set_nat lim i (Some x) ;;
  Done (lim, m).

(** The loop over the lost variables: even positions are a cosine, odd
    ones an azimuth. *)
Fixpoint edges_lost (lost : list PSVar) (count_extra : nat) (edge : bool)
         (lim : list (option D)) (m : VarMap)
  : Res (list (option D) * VarMap) :=
  match lost with
  | [] => Done (lim, m)
  | l :: rest =>
      '(lim, m) <-
        write lim m l
              (if edge
               then (if Nat.even count_extra then frac 1 1 else TMath_Pi)
               else (if Nat.even count_extra then frac (-1) 1
                     else neg TMath_Pi)) ;;
      edges_lost rest (S count_extra) edge lim m
  end.

(** [get_edges(lim, lost, nvar, edge)]: the array [lim] and [map_to_var]
    on return. *)
Definition get_edges (st : Integrand D) (m : VarMap)
           (lim : list (option D)) (lost : list PSVar) (nvar : nat)
           (edge : bool) : Res (list (option D) * VarMap) :=
  let e01 : D := if edge then 1 else 0 in
  let e11 : D := if edge then 1 else frac (-1) 1 in
  let epi : D := if edge then TMath_Pi else neg TMath_Pi in
  let phi_edges : D * D := (neg TMath_Pi, TMath_Pi) in
  met <- at_nat (obs_mets st) 0 ;;
  let y0 := X (Vect (p4 met)) in
  let y1 := Y (Vect (p4 met)) in
  match fs st with
  | FinalState.LH =>
      let phi_edges :=
        if m_range_CL <? 1
        then get_support_MET y0 y1
                             (if edge then m_range_CL else neg m_range_CL)
        else phi_edges in
      '(lim, m) <- write lim m (PSVars.E_q1 v) e01 ;;
      '(lim, m) <- write lim m (PSVars.cos_qbar2 v) e11 ;;
      '(lim, m) <- write lim m (PSVars.phi_qbar2 v)
                         (if edge then snd phi_edges else fst phi_edges) ;;
      '(lim, m) <- write lim m (PSVars.E_b v) e01 ;;
      '(lim, m) <- (if Hypo.eqb (hypo st) Hypo.TTBB
                    then write lim m (PSVars.E_bbar v) e01
                    else Done (lim, m)) ;;
      edges_lost lost 0 edge lim m
  | FinalState.LL =>
      '(lim, m) <- write lim m (PSVars.cos_qbar1 v) e11 ;;
      '(lim, m) <- write lim m (PSVars.phi_qbar1 v) epi ;;
      '(lim, m) <- write lim m (PSVars.cos_qbar2 v) e11 ;;
      '(lim, m) <- write lim m (PSVars.phi_qbar2 v) epi ;;
      '(lim, m) <- write lim m (PSVars.E_b v) e01 ;;
      '(lim, m) <- (if Hypo.eqb (hypo st) Hypo.TTBB
                    then write lim m (PSVars.E_bbar v) e01
                    else Done (lim, m)) ;;
      edges_lost lost 0 edge lim m
  | FinalState.HH =>
      '(lim, m) <- write lim m (PSVars.E_q1 v) e01 ;;
      '(lim, m) <- write lim m (PSVars.E_q2 v) e01 ;;
      '(lim, m) <- write lim m (PSVars.E_b v) e01 ;;
      '(lim, m) <- (if Hypo.eqb (hypo st) Hypo.TTBB
                    then write lim m (PSVars.E_bbar v) e01
                    else Done (lim, m)) ;;
      edges_lost lost 0 edge lim m
  | FinalState.TTH =>
      let c99 : D := if edge then frac 99 100 else neg (frac 99 100) in
      '(lim, m) <- write lim m (PSVars.P_t v) (if edge then emax else 0) ;;
      '(lim, m) <- write lim m (PSVars.cos_t v) c99 ;;
      '(lim, m) <- write lim m (PSVars.phi_t v) epi ;;
      '(lim, m) <- write lim m (PSVars.P_tbar v) (if edge then emax else 0) ;;
      '(lim, m) <- write lim m (PSVars.cos_tbar v) c99 ;;
      '(lim, m) <- write lim m (PSVars.phi_tbar v) epi ;;
      write lim m (PSVars.Pz_h v)
            (if edge then emax / frac 2 1 else neg emax / frac 2 1)
  | _ => Done (lim, m)
  end.

(** [double xL[npar]] before [get_edges]: nothing written, and
    [map_to_var] as [fill_map] leaves it after [next_hypo] cleared it. *)
Definition edges_of (st : Integrand D) (lost : list PSVar) (npar : nat)
           (edge : bool) : Res (list (option D)) :=
  '(lim, _) <- get_edges st
                 (fill_map_to_var v lost (fs st) (hypo st) [])
                 (repeat None npar) lost npar edge ;;
  Done lim.

End Ranges.
End Ranges.

Section RangeVocabulary.
Context {D : Type} `{Double D}.
Local Open Scope dbl_scope.

(** The variables [fill_map] lays out first, in the order of their
    positions. *)
Definition named_vars (v : PSVars.Names) (f : FinalState.FinalState)
           (h : Hypo.Hypo) : list PSVar :=
  let bbar := if Hypo.eqb h Hypo.TTBB then [PSVars.E_bbar v] else [] in
  match f with
  | FinalState.LH =>
      [PSVars.E_q1 v; PSVars.cos_qbar2 v; PSVars.phi_qbar2 v; PSVars.E_b v]
        ++ bbar
  | FinalState.LL =>
      [PSVars.cos_qbar1 v; PSVars.phi_qbar1 v; PSVars.cos_qbar2 v;
       PSVars.phi_qbar2 v; PSVars.E_b v] ++ bbar
  | FinalState.HH =>
      [PSVars.E_q1 v; PSVars.E_q2 v; PSVars.E_b v] ++ bbar
  | FinalState.TTH =>
      [PSVars.P_t v; PSVars.cos_t v; PSVars.phi_t v; PSVars.P_tbar v;
       PSVars.cos_tbar v; PSVars.phi_tbar v; PSVars.Pz_h v]
  | _ => []
  end.

(** The edges of the variables of [named_vars]; [phi] is the edge of the
    azimuth of the neutrino with one lepton. *)
Definition named_edges (TMath_Pi emax phi : D) (f : FinalState.FinalState)
           (h : Hypo.Hypo) (edge : bool) : list D :=
  let e01 : D := if edge then 1 else 0 in
  let e11 : D := if edge then 1 else frac (-1) 1 in
  let epi : D := if edge then TMath_Pi else Ranges.neg TMath_Pi in
  let c99 : D := if edge then frac 99 100 else Ranges.neg (frac 99 100) in
  let bbar := if Hypo.eqb h Hypo.TTBB then [e01] else [] in
  match f with
  | FinalState.LH => [e01; e11; phi; e01] ++ bbar
  | FinalState.LL => [e11; epi; e11; epi; e01] ++ bbar
  | FinalState.HH => [e01; e01; e01] ++ bbar
  | FinalState.TTH =>
      [if edge then emax else 0; c99; epi; if edge then emax else 0; c99; epi;
       if edge then emax / frac 2 1 else Ranges.neg emax / frac 2 1]
  | _ => []
  end.

(** The edge of the neutrino azimuth with one lepton: [-pi] or [+pi], or,
    with [cfg.m_range_CL < 1], an end of the support of the MET transfer
    function. *)
Definition phi_edge (TMath_Pi m_range_CL : D)
           (get_support_MET : D -> D -> D -> D * D)
           (met : Object D) (edge : bool) : D :=
  let phi_edges :=
    if m_range_CL <? 1
    then get_support_MET (X (Vect (p4 met))) (Y (Vect (p4 met)))
                         (if edge then m_range_CL else Ranges.neg m_range_CL)
    else (Ranges.neg TMath_Pi, TMath_Pi) in
  if edge then snd phi_edges else fst phi_edges.

(** The edges of the lost variables: a cosine and an azimuth in turn. *)
Fixpoint lost_edges (TMath_Pi : D) (edge : bool) (count_extra n : nat)
  : list D :=
  match n with
  | O => []
  | S n' =>
      (if edge
       then (if Nat.even count_extra then frac 1 1 else TMath_Pi)
       else (if Nat.even count_extra then frac (-1) 1
             else Ranges.neg TMath_Pi))
        :: lost_edges TMath_Pi edge (S count_extra) n'
  end.

End RangeVocabulary.

Section RangeWrites.
Context {D : Type} `{Double D}.

(** The assignments [lim[map_to_var[k]] = x] of a list, in turn. *)
Fixpoint write_all (kxs : list (PSVar * D)) (lim : list (option D))
         (m : VarMap) : Res (list (option D) * VarMap) :=
  match kxs with
  | [] => Done (lim, m)
  | (k, x) :: rest =>
      '(lim, m) <- Ranges.write lim m k x ;;
      write_all rest lim m
  end.

(** The position of the first [k] in a list of variables. *)
Fixpoint index_of (k : PSVar) (ks : list PSVar) : option nat :=
  match ks with
  | [] => None
  | k' :: rest =>
      if (k' =? k)%Z then Some 0%nat
      else match index_of k rest with
           | Some i => Some (S i)
           | None => None
           end
  end.

End RangeWrites.

Section SourceEdges.
Context {D : Type} `{Double D}.

(** The array passed on to [get_width] and to the integrator: an edge that
    was never written has no defined value. *)
Fixpoint all_written (lim : list (option D)) : Res (list D) :=
  match lim with
  | [] => Done []
  | Some x :: rest => xs <- all_written rest ;; Done (x :: xs)
  | None :: _ => Undefined
  end.

(** The collaborators with [get_edges] as the source has it. *)
Definition with_get_edges (v : PSVars.Names) (TMath_Pi m_range_CL emax : D)
           (get_support_MET : D -> D -> D -> D * D)
           (ext : Collaborators D) : Collaborators D :=
  {| create_PS_LH := create_PS_LH;
     create_PS_LL := create_PS_LL;
     create_PS_HH := create_PS_HH;
     create_PS_TTH := create_PS_TTH;
     PS_new := PS_new;
     constants := constants;
     transfer_product := transfer_product;
     t_decay_amplitude := t_decay_amplitude;
     H_decay_amplitude := H_decay_amplitude;
     scattering := scattering;
     pdf := pdf;
     nodecay_Jac := nodecay_Jac;
     VEGAS := VEGAS;
     get_edges := fun st lost npar edge =>
       lim <- Ranges.edges_of v TMath_Pi m_range_CL emax get_support_MET
                              st lost npar edge ;;
       all_written lim;
     get_support := get_support;
     arrangements := arrangements;
     IntegrandType_Transfer := IntegrandType_Transfer |}.

End SourceEdges.

(** An event with a MET object, and the variables numbered as the comment
    in [make_assumption] has it: energy, cosine and azimuth for each of
    q1, qbar1, b1, q2, qbar2, b2, b, bbar, then the variables of the final
    state without decays. *)
Module EdgesExample.

Definition names : PSVars.Names :=
  {| PSVars.E_q1 := 0; PSVars.cos_q1 := 1; PSVars.phi_q1 := 2;
     PSVars.E_qbar1 := 3; PSVars.cos_qbar1 := 4; PSVars.phi_qbar1 := 5;
     PSVars.E_b1 := 6; PSVars.cos_b1 := 7; PSVars.phi_b1 := 8;
     PSVars.E_q2 := 9; PSVars.cos_q2 := 10; PSVars.phi_q2 := 11;
     PSVars.E_qbar2 := 12; PSVars.cos_qbar2 := 13; PSVars.phi_qbar2 := 14;
     PSVars.E_b2 := 15; PSVars.cos_b2 := 16; PSVars.phi_b2 := 17;
     PSVars.E_b := 18; PSVars.cos_b := 19; PSVars.phi_b := 20;
     PSVars.E_bbar := 21; PSVars.cos_bbar := 22; PSVars.phi_bbar := 23;
     PSVars.P_t := 24; PSVars.cos_t := 25; PSVars.phi_t := 26;
     PSVars.P_tbar := 27; PSVars.cos_tbar := 28; PSVars.phi_tbar := 29;
     PSVars.Pz_h := 30 |}%Z.

(** [TMath::Pi()] in binary64. *)
Definition pi : float := 0x1.921fb54442d18p+1%float.

Definition met : Object float :=
  {| p4 := {| Vect := {| X := 20%float; Y := 10%float; Z3 := 0%float |};
              E := 25%float |};
     obs := [] |}.

Definition event : Integrand float :=
  set_objects Example.start (obs_jets Example.start)
              (obs_leptons Example.start) [met].

(** Collaborators that read the edges as the source writes them. *)
Definition ext : Collaborators float :=
  with_get_edges names pi 1%float 8000%float
                 (fun _ _ _ => (0%float, 0%float)) Example.ext.

End EdgesExample.

(* ================================================================= *)
(** ** The phase-space builders *)

(** The operations of ROOT's [TVector3], [TLorentzVector] and [TMath] that
    the builders call, and the conversion [int(double)]. *)
Module Geo.
Class Geometry (D : Type) : Type := {
  Unit : TVector3 D -> TVector3 D;
  SetTheta : TVector3 D -> D -> TVector3 D;
  SetPhi : TVector3 D -> D -> TVector3 D;
  ACos : D -> D;
  Cos : D -> D;
  Phi : LV D -> D;
  Beta : LV D -> D;
  Angle : LV D -> TVector3 D -> D;
  to_int : D -> Z
}.
End Geo.

(** The constants of the header that the builders use. *)
Module Const.
Record Constants (D : Type) : Type := {
  MQ : D; MB : D; ML : D; MTOP : D; MH : D;
  DMW2 : D; DMT2 : D; DMH2 : D; MTOP2 : D; MH2 : D;
  PI : D
}.
Arguments MQ {D} c.
Arguments MB {D} c.
Arguments ML {D} c.
Arguments MTOP {D} c.
Arguments MH {D} c.
Arguments DMW2 {D} c.
Arguments DMT2 {D} c.
Arguments DMH2 {D} c.
Arguments MTOP2 {D} c.
Arguments MH2 {D} c.
Arguments PI {D} c.
End Const.

Module Builders.
Section Builders.
Context {D : Type} `{Double D} {geo : Geo.Geometry D}.
Local Open Scope dbl_scope.

(** The constants, the names of [PSVar], [map_to_var] and [cfg.emax]. *)
Variable c : Const.Constants D.
Variable v : PSVars.Names.
Variable m : VarMap.
Variable emax : D.

(** [solve] on ROOT's four-vectors. *)
Definition solve_ (p4_w : LV D) (DM2 M : D) (e_b : TVector3 D) (target : D)
           (accept : Z) : D * Z :=
  solve (@E D) Geo.Beta Geo.Angle Geo.Cos p4_w DM2 M e_b target accept.

(** [x[ map_to_var.find(k)->second ]] *)
Definition xvar (x : list D) (k : PSVar) : Res D :=
  i <- var_find m k ;; at_nat x i.

(** [dir.SetTheta( TMath::ACos( x[..cos..] ) ); dir.SetPhi( x[..phi..] );] *)
Definition angles (x : list D) (dir : TVector3 D) (kcos kphi : PSVar)
  : Res (TVector3 D) :=
  cs <- xvar x kcos ;;
  let dir := Geo.SetTheta dir (Geo.ACos cs) in
  ph <- xvar x kphi ;;
  Done (Geo.SetPhi dir ph).

(** [TVector3 dir (1.,0.,0.)] *)
Definition dir0 : TVector3 D := {| X := 1; Y := 0; Z3 := 0 |}.

(** [-x]: the product with [-1]. *)
Definition neg (x : D) : D := frac (-1) 1 * x.

Definition create_PS_TTH (st : Integrand D) (ps : PS D) (x : list D)
           (perm : list Z) : Res (PS D * Z) :=
  (* corrupted phase space *)
  let accept := 0%Z in
  let dir := dir0 in
  dir <- angles x dir (PSVars.cos_t v) (PSVars.phi_t v) ;;
  P <- xvar x (PSVars.P_t v) ;;
  let ps := extend_PS_nodebug ps PSPart.t (dsqrt (P * P + Const.MTOP2 c))
                              (Const.MTOP c) dir in
  dir <- angles x dir (PSVars.cos_tbar v) (PSVars.phi_tbar v) ;;
  P <- xvar x (PSVars.P_tbar v) ;;
  let ps := extend_PS_nodebug ps PSPart.tbar (dsqrt (P * P + Const.MTOP2 c))
                              (Const.MTOP c) dir in
  lv_t <- PS_lv ps PSPart.t ;;
  lv_tbar <- PS_lv ps PSPart.tbar ;;
  let Px := neg (X (Vect lv_t)) - X (Vect lv_tbar) in
  let Py := neg (Y (Vect lv_t)) - Y (Vect lv_tbar) in
  Pz <- xvar x (PSVars.Pz_h v) ;;
  let dir := {| X := Px; Y := Py; Z3 := Pz |} in
  let ps := extend_PS_nodebug ps PSPart.h (dsqrt (Mag2 dir + Const.MH2 c))
                              (Const.MH c) (Geo.Unit dir) in
  Done (ps, accept).

(** The default value of the last parameter [charge] of [extend_PS], which
    the declaration in the header gives. *)
Variable default_charge : Z.

(** [2*PI] and [-PI] *)
Definition two_PI : D := frac 2 1 * Const.PI c.

(** [phi_n] brought back to the range of the azimuth:
    [if( phi_n>+PI ) phi_n -= 2*PI; else if( phi_n<-PI ) phi_n += 2*PI;] *)
Definition wrap_phi (phi_n : D) : D :=
  if phi_n >? Const.PI c then phi_n - two_PI
  else if phi_n <? neg (Const.PI c) then phi_n + two_PI
  else phi_n.

Definition create_PS_LH (st : Integrand D) (ps : PS D) (x : list D)
           (perm : list Z) : Res (PS D * Z) :=
  (* corrupted phase space *)
  let accept := 0%Z in
  (* store temporary values to build four-vectors *)
  let E_REC := numeric_limits_max in
  let dir := dir0 in
  (* map a quark to an index inside the obs_ collections *)
  nj_q1 <- map_find (map_to_part st) PSPart.q1 ;;
  nj_qbar1 <- map_find (map_to_part st) PSPart.qbar1 ;;
  nj_b1 <- map_find (map_to_part st) PSPart.b1 ;;
  nl_q2 <- map_find (map_to_part st) PSPart.q2 ;;
  nj_b2 <- map_find (map_to_part st) PSPart.b2 ;;
  nj_b <- map_find (map_to_part st) PSPart.b ;;
  nj_bbar <- map_find (map_to_part st) PSPart.bbar ;;
  (* PSPart::q1 *)
  p <- at_nat perm nj_q1 ;;
  '(dir, E_LOW, E_HIGH) <-
    (if (0 <=? p)%Z then
       obj <- at_int (obs_jets st) p ;;
       lo <- getObs obj Observable.E_LOW_Q ;;
       hi <- getObs obj Observable.E_HIGH_Q ;;
       Done (Geo.Unit (Vect (p4 obj)), lo, hi)
     else
       dir <- angles x dir (PSVars.cos_q1 v) (PSVars.phi_q1 v) ;;
       Done (dir, Const.MQ c, emax)) ;;
  t <- xvar x (PSVars.E_q1 v) ;;
  let e := E_LOW + (E_HIGH - E_LOW) * t in
  let ps := extend_PS ps PSPart.q1 e (Const.MQ c) dir p
                      (PSVars.cos_q1 v) (PSVars.phi_q1 v) (PSVars.E_q1 v)
                      (if (0 <=? p)%Z then TFType.qReco else TFType.qLost)
                      default_charge in
  (* PSPart::qbar1 *)
  p <- at_nat perm nj_qbar1 ;;
  dir <-
    (if (0 <=? p)%Z then
       obj <- at_int (obs_jets st) p ;;
       Done (Geo.Unit (Vect (p4 obj)))
     else
       angles x dir (PSVars.cos_qbar1 v) (PSVars.phi_qbar1 v)) ;;
  l <- PS_lv ps PSPart.q1 ;;
  let '(e, accept) := solve_ l (Const.DMW2 c) (Const.MQ c) dir E_REC accept in
  let ps := extend_PS ps PSPart.qbar1 e (Const.MQ c) dir p
                      (PSVars.cos_qbar1 v) (PSVars.phi_qbar1 v)
                      (PSVars.E_qbar1 v)
                      (if (0 <=? p)%Z then TFType.qReco else TFType.qLost)
                      default_charge in
  (* PSPart::b1 *)
  p <- at_nat perm nj_b1 ;;
  '(dir, E_REC) <-
    (if (0 <=? p)%Z then
       obj <- at_int (obs_jets st) p ;;
       Done (Geo.Unit (Vect (p4 obj)), E (p4 obj))
     else
       dir <- angles x dir (PSVars.cos_b1 v) (PSVars.phi_b1 v) ;;
       Done (dir, E_REC)) ;;
  l1 <- PS_lv ps PSPart.q1 ;;
  l2 <- PS_lv ps PSPart.qbar1 ;;
  let '(e, accept) :=
    solve_ (LV_add l1 l2) (Const.DMT2 c) (Const.MB c) dir E_REC accept in
  let ps := extend_PS ps PSPart.b1 e (Const.MB c) dir p
                      (PSVars.cos_b1 v) (PSVars.phi_b1 v) (PSVars.E_b1 v)
                      (if (0 <=? p)%Z then TFType.bReco else TFType.bLost)
                      default_charge in
  (* PSPart::q2 *)
  lep <- at_nat (obs_leptons st) nl_q2 ;;
  let dir := Geo.Unit (Vect (p4 lep)) in
  let e := E (p4 lep) in
  q <- getObs lep Observable.CHARGE ;;
  let ps := extend_PS ps PSPart.q2 e (Const.ML c) dir (Z.of_nat nl_q2)
                      (PSVars.cos_q2 v) (PSVars.phi_q2 v) (PSVars.E_q2 v)
                      TFType.muReco (Geo.to_int q) in
  (* PSPart::qbar2 *)
  cs <- xvar x (PSVars.cos_qbar2 v) ;;
  let dir := Geo.SetTheta dir (Geo.ACos cs) in
  ph <- xvar x (PSVars.phi_qbar2 v) ;;
  met <- at_nat (obs_mets st) 0 ;;
  let phi_n := wrap_phi (ph + Geo.Phi (p4 met)) in
  let dir := Geo.SetPhi dir phi_n in
  l <- PS_lv ps PSPart.q2 ;;
  let '(e, accept) := solve_ l (Const.DMW2 c) (Const.ML c) dir E_REC accept in
  let ps := extend_PS ps PSPart.qbar2 e 0 dir (-1)
                      (PSVars.cos_qbar2 v) (PSVars.phi_qbar2 v)
                      (PSVars.E_qbar2 v) TFType.MET default_charge in
  (* PSPart::b2 *)
  p <- at_nat perm nj_b2 ;;
  '(dir, E_REC) <-
    (if (0 <=? p)%Z then
       obj <- at_int (obs_jets st) p ;;
       Done (Geo.Unit (Vect (p4 obj)), E (p4 obj))
     else
       dir <- angles x dir (PSVars.cos_b2 v) (PSVars.phi_b2 v) ;;
       Done (dir, E_REC)) ;;
  l1 <- PS_lv ps PSPart.q2 ;;
  l2 <- PS_lv ps PSPart.qbar2 ;;
  let '(e, accept) :=
    solve_ (LV_add l1 l2) (Const.DMT2 c) (Const.MB c) dir E_REC accept in
  let ps := extend_PS ps PSPart.b2 e (Const.MB c) dir p
                      (PSVars.cos_b2 v) (PSVars.phi_b2 v) (PSVars.E_b2 v)
                      (if (0 <=? p)%Z then TFType.bReco else TFType.bLost)
                      default_charge in
  (* PSPart::b *)
  p <- at_nat perm nj_b ;;
  '(dir, E_LOW, E_HIGH) <-
    (if (0 <=? p)%Z then
       obj <- at_int (obs_jets st) p ;;
       lo <- getObs obj Observable.E_LOW_B ;;
       hi <- getObs obj Observable.E_HIGH_B ;;
       Done (Geo.Unit (Vect (p4 obj)), lo, hi)
     else
       dir <- angles x dir (PSVars.cos_b v) (PSVars.phi_b v) ;;
       Done (dir, Const.MB c, emax)) ;;
  t <- xvar x (PSVars.E_b v) ;;
  let e := E_LOW + (E_HIGH - E_LOW) * t in
  let ps := extend_PS ps PSPart.b e (Const.MB c) dir p
                      (PSVars.cos_b v) (PSVars.phi_b v) (PSVars.E_b v)
                      (if (0 <=? p)%Z then TFType.bReco else TFType.bLost)
                      default_charge in
  (* PSPart::bbar *)
  p <- at_nat perm nj_bbar ;;
  '(dir, E_REC, E_LOW, E_HIGH) <-
    (if (0 <=? p)%Z then
       obj <- at_int (obs_jets st) p ;;
       lo <- getObs obj Observable.E_LOW_B ;;
       hi <- getObs obj Observable.E_HIGH_B ;;
       Done (Geo.Unit (Vect (p4 obj)), E (p4 obj), lo, hi)
     else
       dir <- angles x dir (PSVars.cos_bbar v) (PSVars.phi_bbar v) ;;
       Done (dir, E_REC, Const.MB c, emax)) ;;
  '(e, accept) <-
    (if Hypo.eqb (hypo st) Hypo.TTBB then
       t <- xvar x (PSVars.E_bbar v) ;;
       Done (E_LOW + (E_HIGH - E_LOW) * t, accept)
     else
       l <- PS_lv ps PSPart.b ;;
       Done (solve_ l (Const.DMH2 c) (Const.MB c) dir E_REC accept)) ;;
  let ps := extend_PS ps PSPart.bbar e (Const.MB c) dir p
                      (PSVars.cos_bbar v) (PSVars.phi_bbar v) (PSVars.E_bbar v)
                      (if (0 <=? p)%Z then TFType.bReco else TFType.bLost)
                      default_charge in
  Done (ps, accept).

Definition create_PS_LL (st : Integrand D) (ps : PS D) (x : list D)
           (perm : list Z) : Res (PS D * Z) :=
  (* corrupted phase space *)
  let accept := 0%Z in
  (* store temporary values to build four-vectors *)
  let E_REC := numeric_limits_max in
  let dir := dir0 in
  (* map a quark to an index inside the obs_ collections *)
  nl_q1 <- map_find (map_to_part st) PSPart.q1 ;;
  nj_b1 <- map_find (map_to_part st) PSPart.b1 ;;
  nl_q2 <- map_find (map_to_part st) PSPart.q2 ;;
  nj_b2 <- map_find (map_to_part st) PSPart.b2 ;;
  nj_b <- map_find (map_to_part st) PSPart.b ;;
  nj_bbar <- map_find (map_to_part st) PSPart.bbar ;;
  (* PSPart::q1 *)
  lep1 <- at_nat (obs_leptons st) nl_q1 ;;
  let dir := Geo.Unit (Vect (p4 lep1)) in
  let e := E (p4 lep1) in
  q <- getObs lep1 Observable.CHARGE ;;
  let ps := extend_PS ps PSPart.q1 e (Const.ML c) dir (Z.of_nat nl_q1)
                      (PSVars.cos_q1 v) (PSVars.phi_q1 v) (PSVars.E_q1 v)
                      TFType.muReco (Geo.to_int q) in
  (* PSPart::qbar1 *)
  dir <- angles x dir (PSVars.cos_qbar1 v) (PSVars.phi_qbar1 v) ;;
  l <- PS_lv ps PSPart.q1 ;;
  let '(e, accept) := solve_ l (Const.DMW2 c) (Const.ML c) dir E_REC accept in
  let ps := extend_PS ps PSPart.qbar1 e 0 dir (-1)
                      (PSVars.cos_qbar1 v) (PSVars.phi_qbar1 v)
                      (PSVars.E_qbar1 v) TFType.MET default_charge in
  (* PSPart::b1 *)
  p <- at_nat perm nj_b1 ;;
  '(dir, E_REC) <-
    (if (0 <=? p)%Z then
       obj <- at_int (obs_jets st) p ;;
       Done (Geo.Unit (Vect (p4 obj)), E (p4 obj))
     else
       dir <- angles x dir (PSVars.cos_b1 v) (PSVars.phi_b1 v) ;;
       Done (dir, E_REC)) ;;
  l1 <- PS_lv ps PSPart.q1 ;;
  l2 <- PS_lv ps PSPart.qbar1 ;;
  let '(e, accept) :=
    solve_ (LV_add l1 l2) (Const.DMT2 c) (Const.MB c) dir E_REC accept in
  let ps := extend_PS ps PSPart.b1 e (Const.MB c) dir p
                      (PSVars.cos_b1 v) (PSVars.phi_b1 v) (PSVars.E_b1 v)
                      (if (0 <=? p)%Z then TFType.bReco else TFType.bLost)
                      default_charge in
  (* PSPart::q2 *)
  lep2 <- at_nat (obs_leptons st) nl_q2 ;;
  let dir := Geo.Unit (Vect (p4 lep2)) in
  let e := E (p4 lep2) in
  q <- getObs lep2 Observable.CHARGE ;;
  let ps := extend_PS ps PSPart.q2 e (Const.ML c) dir (Z.of_nat nl_q2)
                      (PSVars.cos_q2 v) (PSVars.phi_q2 v) (PSVars.E_q2 v)
                      TFType.muReco (Geo.to_int q) in
  (* PSPart::qbar2 *)
  dir <- angles x dir (PSVars.cos_qbar2 v) (PSVars.phi_qbar2 v) ;;
  l <- PS_lv ps PSPart.q2 ;;
  let '(e, accept) := solve_ l (Const.DMW2 c) (Const.ML c) dir E_REC accept in
  let ps := extend_PS ps PSPart.qbar2 e 0 dir (-1)
                      (PSVars.cos_qbar2 v) (PSVars.phi_qbar2 v)
                      (PSVars.E_qbar2 v) TFType.MET default_charge in
  (* PSVar::cos_b2, PSVar::phi_b2, PSVar::E_b2 *)
  p <- at_nat perm nj_b2 ;;
  '(dir, E_REC) <-
    (if (0 <=? p)%Z then
       obj <- at_int (obs_jets st) p ;;
       Done (Geo.Unit (Vect (p4 obj)), E (p4 obj))
     else
       dir <- angles x dir (PSVars.cos_b2 v) (PSVars.phi_b2 v) ;;
       Done (dir, E_REC)) ;;
  l1 <- PS_lv ps PSPart.q2 ;;
  l2 <- PS_lv ps PSPart.qbar2 ;;
  let '(e, accept) :=
    solve_ (LV_add l1 l2) (Const.DMT2 c) (Const.MB c) dir E_REC accept in
  let ps := extend_PS ps PSPart.b2 e (Const.MB c) dir p
                      (PSVars.cos_b2 v) (PSVars.phi_b2 v) (PSVars.E_b2 v)
                      (if (0 <=? p)%Z then TFType.bReco else TFType.bLost)
                      default_charge in
  (* PSPart::b *)
  p <- at_nat perm nj_b ;;
  '(dir, E_LOW, E_HIGH) <-
    (if (0 <=? p)%Z then
       obj <- at_int (obs_jets st) p ;;
       lo <- getObs obj Observable.E_LOW_B ;;
       hi <- getObs obj Observable.E_HIGH_B ;;
       Done (Geo.Unit (Vect (p4 obj)), lo, hi)
     else
       dir <- angles x dir (PSVars.cos_b v) (PSVars.phi_b v) ;;
       Done (dir, Const.MB c, emax)) ;;
  t <- xvar x (PSVars.E_b v) ;;
  let e := E_LOW + (E_HIGH - E_LOW) * t in
  let ps := extend_PS ps PSPart.b e (Const.MB c) dir p
                      (PSVars.cos_b v) (PSVars.phi_b v) (PSVars.E_b v)
                      (if (0 <=? p)%Z then TFType.bReco else TFType.bLost)
                      default_charge in
  (* PSPart::bbar *)
  p <- at_nat perm nj_bbar ;;
  '(dir, E_REC, E_LOW, E_HIGH) <-
    (if (0 <=? p)%Z then
       obj <- at_int (obs_jets st) p ;;
       lo <- getObs obj Observable.E_LOW_B ;;
       hi <- getObs obj Observable.E_HIGH_B ;;
       Done (Geo.Unit (Vect (p4 obj)), E (p4 obj), lo, hi)
     else
       dir <- angles x dir (PSVars.cos_bbar v) (PSVars.phi_bbar v) ;;
       Done (dir, E_REC, Const.MB c, emax)) ;;
  '(e, accept) <-
    (if Hypo.eqb (hypo st) Hypo.TTBB then
       t <- xvar x (PSVars.E_bbar v) ;;
       Done (E_LOW + (E_HIGH - E_LOW) * t, accept)
     else
       l <- PS_lv ps PSPart.b ;;
       Done (solve_ l (Const.DMH2 c) (Const.MB c) dir E_REC accept)) ;;
  let ps := extend_PS ps PSPart.bbar e (Const.MB c) dir p
                      (PSVars.cos_bbar v) (PSVars.phi_bbar v) (PSVars.E_bbar v)
                      (if (0 <=? p)%Z then TFType.bReco else TFType.bLost)
                      default_charge in
  Done (ps, accept).

Definition create_PS_HH (st : Integrand D) (ps : PS D) (x : list D)
           (perm : list Z) : Res (PS D * Z) :=
  (* corrupted phase space *)
  let accept := 0%Z in
  (* store temporary values to build four-vectors *)
  let E_REC := numeric_limits_max in
  let dir := dir0 in
  (* map a quark to an index inside the obs_ collections *)
  nj_q1 <- map_find (map_to_part st) PSPart.q1 ;;
  nj_qbar1 <- map_find (map_to_part st) PSPart.qbar1 ;;
  nj_b1 <- map_find (map_to_part st) PSPart.b1 ;;
  nj_q2 <- map_find (map_to_part st) PSPart.q2 ;;
  nj_qbar2 <- map_find (map_to_part st) PSPart.qbar2 ;;
  nj_b2 <- map_find (map_to_part st) PSPart.b2 ;;
  nj_b <- map_find (map_to_part st) PSPart.b ;;
  nj_bbar <- map_find (map_to_part st) PSPart.bbar ;;
  (* PSPart::q1 *)
  p <- at_nat perm nj_q1 ;;
  '(dir, E_LOW, E_HIGH) <-
    (if (0 <=? p)%Z then
       obj <- at_int (obs_jets st) p ;;
       lo <- getObs obj Observable.E_LOW_Q ;;
       hi <- getObs obj Observable.E_HIGH_Q ;;
       Done (Geo.Unit (Vect (p4 obj)), lo, hi)
     else
       dir <- angles x dir (PSVars.cos_q1 v) (PSVars.phi_q1 v) ;;
       Done (dir, Const.MQ c, emax)) ;;
  t <- xvar x (PSVars.E_q1 v) ;;
  let e := E_LOW + (E_HIGH - E_LOW) * t in
  let ps := extend_PS ps PSPart.q1 e (Const.MQ c) dir p
                      (PSVars.cos_q1 v) (PSVars.phi_q1 v) (PSVars.E_q1 v)
                      (if (0 <=? p)%Z then TFType.qReco else TFType.qLost)
                      default_charge in
  (* PSPart::qbar1 *)
  p <- at_nat perm nj_qbar1 ;;
  dir <-
    (if (0 <=? p)%Z then
       obj <- at_int (obs_jets st) p ;;
       Done (Geo.Unit (Vect (p4 obj)))
     else
       angles x dir (PSVars.cos_qbar1 v) (PSVars.phi_qbar1 v)) ;;
  l <- PS_lv ps PSPart.q1 ;;
  let '(e, accept) := solve_ l (Const.DMW2 c) (Const.MQ c) dir E_REC accept in
  let ps := extend_PS ps PSPart.qbar1 e (Const.MQ c) dir p
                      (PSVars.cos_qbar1 v) (PSVars.phi_qbar1 v)
                      (PSVars.E_qbar1 v)
                      (if (0 <=? p)%Z then TFType.qReco else TFType.qLost)
                      default_charge in
  (* PSPart::b1 *)
  p <- at_nat perm nj_b1 ;;
  '(dir, E_REC) <-
    (if (0 <=? p)%Z then
       obj <- at_int (obs_jets st) p ;;
       Done (Geo.Unit (Vect (p4 obj)), E (p4 obj))
     else
       dir <- angles x dir (PSVars.cos_b1 v) (PSVars.phi_b1 v) ;;
       Done (dir, E_REC)) ;;
  l1 <- PS_lv ps PSPart.q1 ;;
  l2 <- PS_lv ps PSPart.qbar1 ;;
  let '(e, accept) :=
    solve_ (LV_add l1 l2) (Const.DMT2 c) (Const.MB c) dir E_REC accept in
  let ps := extend_PS ps PSPart.b1 e (Const.MB c) dir p
                      (PSVars.cos_b1 v) (PSVars.phi_b1 v) (PSVars.E_b1 v)
                      (if (0 <=? p)%Z then TFType.bReco else TFType.bLost)
                      default_charge in
  (* PSPart::q2 *)
  p <- at_nat perm nj_q2 ;;
  '(dir, E_LOW, E_HIGH) <-
    (if (0 <=? p)%Z then
       obj <- at_int (obs_jets st) p ;;
       lo <- getObs obj Observable.E_LOW_Q ;;
       hi <- getObs obj Observable.E_HIGH_Q ;;
       Done (Geo.Unit (Vect (p4 obj)), lo, hi)
     else
       dir <- angles x dir (PSVars.cos_q2 v) (PSVars.phi_q2 v) ;;
       Done (dir, Const.MQ c, emax)) ;;
  t <- xvar x (PSVars.E_q2 v) ;;
  let e := E_LOW + (E_HIGH - E_LOW) * t in
  let ps := extend_PS ps PSPart.q2 e (Const.MQ c) dir p
                      (PSVars.cos_q2 v) (PSVars.phi_q2 v) (PSVars.E_q2 v)
                      (if (0 <=? p)%Z then TFType.qReco else TFType.qLost)
                      default_charge in
  (* PSPart::qbar2 *)
  p <- at_nat perm nj_qbar2 ;;
  dir <-
    (if (0 <=? p)%Z then
       obj <- at_int (obs_jets st) p ;;
       Done (Geo.Unit (Vect (p4 obj)))
     else
       angles x dir (PSVars.cos_qbar2 v) (PSVars.phi_qbar2 v)) ;;
  l <- PS_lv ps PSPart.q2 ;;
  let '(e, accept) := solve_ l (Const.DMW2 c) (Const.MQ c) dir E_REC accept in
  let ps := extend_PS ps PSPart.qbar2 e (Const.MQ c) dir p
                      (PSVars.cos_qbar2 v) (PSVars.phi_qbar2 v)
                      (PSVars.E_qbar2 v)
                      (if (0 <=? p)%Z then TFType.qReco else TFType.qLost)
                      default_charge in
  (* PSPart::b2 *)
  p <- at_nat perm nj_b2 ;;
  '(dir, E_REC) <-
    (if (0 <=? p)%Z then
       obj <- at_int (obs_jets st) p ;;
       Done (Geo.Unit (Vect (p4 obj)), E (p4 obj))
     else
       dir <- angles x dir (PSVars.cos_b2 v) (PSVars.phi_b2 v) ;;
       Done (dir, E_REC)) ;;
  l1 <- PS_lv ps PSPart.q2 ;;
  l2 <- PS_lv ps PSPart.qbar2 ;;
  let '(e, accept) :=
    solve_ (LV_add l1 l2) (Const.DMT2 c) (Const.MB c) dir E_REC accept in
  let ps := extend_PS ps PSPart.b2 e (Const.MB c) dir p
                      (PSVars.cos_b2 v) (PSVars.phi_b2 v) (PSVars.E_b2 v)
                      (if (0 <=? p)%Z then TFType.bReco else TFType.bLost)
                      default_charge in
  (* PSPart::b *)
  p <- at_nat perm nj_b ;;
  '(dir, E_LOW, E_HIGH) <-
    (if (0 <=? p)%Z then
       obj <- at_int (obs_jets st) p ;;
       lo <- getObs obj Observable.E_LOW_B ;;
       hi <- getObs obj Observable.E_HIGH_B ;;
       Done (Geo.Unit (Vect (p4 obj)), lo, hi)
     else
       dir <- angles x dir (PSVars.cos_b v) (PSVars.phi_b v) ;;
       Done (dir, Const.MB c, emax)) ;;
  t <- xvar x (PSVars.E_b v) ;;
  let e := E_LOW + (E_HIGH - E_LOW) * t in
  let ps := extend_PS ps PSPart.b e (Const.MB c) dir p
                      (PSVars.cos_b v) (PSVars.phi_b v) (PSVars.E_b v)
                      (if (0 <=? p)%Z then TFType.bReco else TFType.bLost)
                      default_charge in
  (* PSPart::bbar *)
  p <- at_nat perm nj_bbar ;;
  '(dir, E_REC, E_LOW, E_HIGH) <-
    (if (0 <=? p)%Z then
       obj <- at_int (obs_jets st) p ;;
       lo <- getObs obj Observable.E_LOW_B ;;
       hi <- getObs obj Observable.E_HIGH_B ;;
       Done (Geo.Unit (Vect (p4 obj)), E (p4 obj), lo, hi)
     else
       dir <- angles x dir (PSVars.cos_bbar v) (PSVars.phi_bbar v) ;;
       Done (dir, E_REC, Const.MB c, emax)) ;;
  '(e, accept) <-
    (if Hypo.eqb (hypo st) Hypo.TTBB then
       t <- xvar x (PSVars.E_bbar v) ;;
       Done (E_LOW + (E_HIGH - E_LOW) * t, accept)
     else
       l <- PS_lv ps PSPart.b ;;
       Done (solve_ l (Const.DMH2 c) (Const.MB c) dir E_REC accept)) ;;
  let ps := extend_PS ps PSPart.bbar e (Const.MB c) dir p
                      (PSVars.cos_bbar v) (PSVars.phi_bbar v) (PSVars.E_bbar v)
                      (if (0 <=? p)%Z then TFType.bReco else TFType.bLost)
                      default_charge in
  Done (ps, accept).

End Builders.
End Builders.

(** The collaborators with the four builders as the source has them. *)
Definition with_builders {D : Type} `{Double D} {geo : Geo.Geometry D}
           (c : Const.Constants D) (v : PSVars.Names) (m : VarMap)
           (emax : D) (default_charge : Z)
           (ext : Collaborators D) : Collaborators D :=
  {| create_PS_LH := Builders.create_PS_LH c v m emax default_charge;
     create_PS_LL := Builders.create_PS_LL c v m emax default_charge;
     create_PS_HH := Builders.create_PS_HH c v m emax default_charge;
     create_PS_TTH := Builders.create_PS_TTH c v m;
     PS_new := PS_new;
     constants := constants;
     transfer_product := transfer_product;
     t_decay_amplitude := t_decay_amplitude;
     H_decay_amplitude := H_decay_amplitude;
     scattering := scattering;
     pdf := pdf;
     nodecay_Jac := nodecay_Jac;
     VEGAS := VEGAS;
     get_edges := get_edges;
     get_support := get_support;
     arrangements := arrangements;
     IntegrandType_Transfer := IntegrandType_Transfer |}.

(** ROOT's operations over the reals, for the examples: [Unit] divides by
    the magnitude unless it is zero; [SetTheta] and [SetPhi] keep the
    magnitude and the other angle. *)
Module RealGeometry.

Definition Mag (u : TVector3 R) : R := sqrt (Mag2 u).
Definition Perp (u : TVector3 R) : R := sqrt (X u * X u + Y u * Y u).

Definition Unit (u : TVector3 R) : TVector3 R :=
  let tot2 := Mag2 u in
  let tot := if Rltb 0 tot2 then (1 / sqrt tot2)%R else 1%R in
  {| X := X u * tot; Y := Y u * tot; Z3 := Z3 u * tot |}%R.

(** The cosine and the sine of [u.Phi()]. *)
Definition cos_phi (u : TVector3 R) : R :=
  if Rltb 0 (Perp u) then (X u / Perp u)%R else 1%R.
Definition sin_phi (u : TVector3 R) : R :=
  if Rltb 0 (Perp u) then (Y u / Perp u)%R else 0%R.

Definition SetTheta (u : TVector3 R) (th : R) : TVector3 R :=
  {| X := Mag u * sin th * cos_phi u;
     Y := Mag u * sin th * sin_phi u;
     Z3 := Mag u * cos th |}%R.

Definition SetPhi (u : TVector3 R) (ph : R) : TVector3 R :=
  {| X := Perp u * cos ph; Y := Perp u * sin ph; Z3 := Z3 u |}%R.

Definition geo : Geo.Geometry R :=
  {| Geo.Unit := Unit;
     Geo.SetTheta := SetTheta;
     Geo.SetPhi := SetPhi;
     Geo.ACos := acos;
     Geo.Cos := cos;
     Geo.Phi := fun p => atan (Y (Vect p) / X (Vect p));
     Geo.Beta := Root.Beta;
     Geo.Angle := Root.Angle;
     Geo.to_int := fun x => if Rltb x 0 then (-1)%Z else 1%Z |}.

(** Masses in GeV; the squares and the differences of squares follow. *)
Definition constants : Const.Constants R :=
  {| Const.MQ := 0; Const.MB := 5; Const.ML := 0;
     Const.MTOP := 174; Const.MH := 125;
     Const.DMW2 := (80 * 80 / 2); Const.DMT2 := ((174 * 174 - 80 * 80 - 5 * 5) / 2);
     Const.DMH2 := ((125 * 125 - 2 * 5 * 5) / 2);
     Const.MTOP2 := 174 * 174; Const.MH2 := 125 * 125;
     Const.PI := Rtrigo1.PI |}%R.

(** The seven variables of the final state without decays, at the positions
    [fill_map] gives them. *)
Definition map_to_var : VarMap :=
  fill_map_to_var EdgesExample.names [] FinalState.TTH Hypo.TTH [].

End RealGeometry.

(** An event with one lepton, six jets and the missing transverse energy,
    every quark matched to a jet; the builders run on it with ROOT's
    operations over the reals. *)
Module BuilderExample.

Definition jet (x y z e lo hi : R) : Object R :=
  {| p4 := {| Vect := {| X := x; Y := y; Z3 := z |}; E := e |};
     obs := [(Observable.E_LOW_Q, lo); (Observable.E_HIGH_Q, hi);
             (Observable.E_LOW_B, lo); (Observable.E_HIGH_B, hi)] |}.

Definition lepton : Object R :=
  {| p4 := {| Vect := {| X := 0; Y := 40; Z3 := 0 |}; E := 40 |}%R;
     obs := [(Observable.CHARGE, 1%R)] |}.

Definition met : Object R :=
  {| p4 := {| Vect := {| X := 30; Y := 0; Z3 := 0 |}; E := 30 |}%R;
     obs := [] |}.

(** Collaborators that stand for the libraries. *)
Definition base : Collaborators R :=
  {| create_PS_LH := fun _ ps _ _ => Done (ps, 0%Z);
     create_PS_LL := fun _ ps _ _ => Done (ps, 0%Z);
     create_PS_HH := fun _ ps _ _ => Done (ps, 0%Z);
     create_PS_TTH := fun _ ps _ _ => Done (ps, 0%Z);
     PS_new := fun _ => [];
     constants := fun _ => 1%R;
     transfer_product := fun _ _ _ accept => Done (1%R, accept);
     t_decay_amplitude := fun _ _ _ _ _ => 1%R;
     H_decay_amplitude := fun _ _ _ => 1%R;
     scattering := fun _ _ _ lv_b lv_bbar => (1%R, E lv_b, E lv_bbar);
     pdf := fun _ _ _ _ => 1%R;
     nodecay_Jac := fun _ _ _ => 1%R;
     VEGAS := fun _ xL _ => Sample xL (fun v1 => Estimate v1 0%R 1%R);
     get_edges := fun _ _ npar edge =>
       Done (repeat (if edge then 1%R else 0%R) npar);
     get_support := fun _ j _ => (E (p4 j) / 2, E (p4 j) * 2)%R;
     arrangements := fun _ l => [l];
     IntegrandType_Transfer := 1%Z |}.

Definition map_to_var : VarMap :=
  fill_map_to_var EdgesExample.names [] FinalState.LH Hypo.TTH [].

Definition ext : Collaborators R :=
  with_builders (geo := RealGeometry.geo) RealGeometry.constants
                EdgesExample.names map_to_var 8000%R 0%Z base.

Definition event : Integrand R :=
  fill_map []
    {| cfg := Example.config; error_code := 0; num_of_vars := 4; ps_dim := 8;
       naive_jet_counting := 6; extra_jets := 0;
       fs := FinalState.LH; hypo := Hypo.TTH;
       n_calls := 0; n_max_calls := 0; n_skip := 0; this_perm := 0;
       obs_jets := [jet 50 0 0 50 30 100; jet 0 0 60 60 30 120;
                    jet 0 70 0 70 35 140; jet 0 0 80 80 40 160;
                    jet 90 0 0 90 45 180; jet 0 100 0 100 50 200]%R;
       obs_leptons := [lepton]; obs_mets := [met];
       perm_indexes := [[0; 1; 2; 3; 4; 5]%Z];
       perm_indexes_assumption := []; perm_const_assumption := [];
       map_to_part := []; log := [] |}.

Definition x : list R := [1 / 2; 0; 0; 1 / 4]%R.

End BuilderExample.

(* ================================================================= *)
(** ** Inputs in binary64 for the solver, the clamp and the constants *)

(** A light-like parent (energy 5, momentum 5 along x) and a daughter along
    it.  The accessors give what ROOT returns for this pair: [Beta()] is
    the momentum over the energy, the angle between the two is 0, and the
    cosine of 0 is 1. *)
Module LightLike.


Definition Beta (p : LV float) : float :=
  (dsqrt (Mag2 (Vect p)) / E p)%dbl.

Definition Angle (p : LV float) (e : TVector3 float) : float := 0%float.

Definition Cos (x : float) : float := 1%float.

(** [solve] with these accessors. *)
Definition solve := solve (D := float) (@E float) Beta Angle Cos.

(** [DM2 = 62.500000000000014], one unit in the last place above 62.5. *)
Definition DM2 : float := 0x1.f400000000002p+5%float.

End LightLike.

(** An event of the dileptonic final state under the ttbb hypothesis whose
    jets have windows of width [2^-600]. *)
Module UnderflowExample.

Definition tiny : float := 0x1p-600%float.

Definition jet : Object float :=
  {| p4 := {| Vect := Example.axis; E := 1%float |};
     obs := [(Observable.E_LOW_B, 0%float); (Observable.E_HIGH_B, tiny)] |}.

Definition event : Integrand float :=
  fill_map []
    {| cfg := Example.config; error_code := 0; num_of_vars := 6; ps_dim := 8;
       naive_jet_counting := 4; extra_jets := 0;
       fs := FinalState.LL; hypo := Hypo.TTBB;
       n_calls := 0; n_max_calls := 0; n_skip := 0; this_perm := 0;
       obs_jets := [jet; jet; jet; jet];
       obs_leptons := []; obs_mets := [];
       perm_indexes := [[0; 1; 2; 3]%Z];
       perm_indexes_assumption := []; perm_const_assumption := [];
       map_to_part := []; log := [] |}.

End UnderflowExample.

(* ================================================================= *)
(** ** A session: calls of the interface in sequence *)


Section Session.
Context {D : Type} `{Double D} {ext : Collaborators D}.


End Session.

(* ================================================================= *)
(** * Properties *)

(** ** Comparisons of real numbers *)

Lemma Rltb_true (x y : R) : Rltb x y = true <-> (x < y)%R.
Proof. unfold Rltb; destruct (Rlt_dec x y); split; intros; try easy. Qed.

Lemma Rltb_false (x y : R) : Rltb x y = false <-> (y <= x)%R.
Proof.
  unfold Rltb; destruct (Rlt_dec x y); split; intros; try easy; lra.
Qed.

Lemma Rgeb_true (x y : R) : Rgeb x y = true <-> (y <= x)%R.
Proof.
  unfold Rgeb; destruct (Rge_dec x y); split; intros; try easy; lra.
Qed.

Lemma Rgeb_false (x y : R) : Rgeb x y = false <-> (x < y)%R.
Proof.
  unfold Rgeb; destruct (Rge_dec x y); split; intros; try easy; lra.
Qed.

(** Turn the outcome of a comparison into the inequality it decides. *)
Ltac real_cmp H :=
  first [ apply Rltb_true in H | apply Rltb_false in H
        | apply Rgeb_true in H | apply Rgeb_false in H ].

(** ** ROOT's accessors on the example inputs *)

Lemma Mag2_parent_x : Mag2 (Vect parent_x) = 16%R.
Proof. unfold Mag2; cbn. lra. Qed.

Lemma sqrt_16 : sqrt 16 = 4%R.
Proof. apply sqrt_lem_1; lra. Qed.

Lemma Beta_parent_x : Root.Beta parent_x = (4 / 5)%R.
Proof. unfold Root.Beta. rewrite Mag2_parent_x, sqrt_16. cbn. reflexivity. Qed.

Lemma Angle_parent_x_axis_x : Root.Angle parent_x axis_x = 0%R.
Proof.
  unfold Root.Angle. rewrite Mag2_parent_x.
  replace (Mag2 axis_x) with 1%R by (unfold Mag2; cbn; lra).
  replace (16 * 1)%R with 16%R by lra. rewrite sqrt_16.
  replace (Root.Dot (Vect parent_x) axis_x) with 4%R
    by (unfold Root.Dot; cbn; lra).
  destruct (Rle_dec 16 0); [lra|].
  replace (4 / 4)%R with 1%R by lra.
  destruct (Rlt_dec 1 1); [lra|].
  destruct (Rlt_dec 1 (-1)); [lra|].
  apply acos_1.
Qed.

Lemma Angle_parent_x_axis_y : Root.Angle parent_x axis_y = (PI / 2)%R.
Proof.
  unfold Root.Angle. rewrite Mag2_parent_x.
  replace (Mag2 axis_y) with 1%R by (unfold Mag2; cbn; lra).
  replace (16 * 1)%R with 16%R by lra. rewrite sqrt_16.
  replace (Root.Dot (Vect parent_x) axis_y) with 0%R
    by (unfold Root.Dot; cbn; lra).
  destruct (Rle_dec 16 0); [lra|].
  replace (0 / 4)%R with 0%R by lra.
  destruct (Rlt_dec 1 0); [lra|].
  destruct (Rlt_dec 0 (-1)); [lra|].
  apply acos_0.
Qed.

(** ** The kinematic solver *)

Ltac decide_Rltb :=
  match goal with
  | |- context [Rltb ?x ?y] =>
      first [ rewrite (proj2 (Rltb_true x y)) by lra
            | rewrite (proj2 (Rltb_false x y)) by lra ]
  end.

(** The solver at a boosted parent: [a = 0.61], [b = 0.8], the roots are
    [349/180] and [29/20], the discriminant is negative. *)
Lemma solve_boosted_parent :
  Root.solve parent_x (61 / 2)%R 10%R axis_x 15%R 0%Z = ((349 / 18)%R, 0%Z).
Proof.
  unfold Root.solve, solve.
  rewrite Angle_parent_x_axis_x, cos_0, Beta_parent_x.
  cbn [frac dadd dsub dmul ddiv dsqrt dabs dlt ideal E parent_x].
  replace (61 / 2 / 5 / 10)%R with (61 / 100)%R by lra.
  replace (1 * (4 / 5))%R with (4 / 5)%R by lra.
  replace (61 / 100 * (61 / 100) + 4 / 5 * (4 / 5) - IZR 1 / IZR 1)%R
    with (11 / 100 * (11 / 100))%R by lra.
  rewrite sqrt_square by lra.
  rewrite (Rabs_pos_eq (4 / 5)) by lra.
  repeat decide_Rltb.
  replace ((61 / 100 + 4 / 5 * (11 / 100)) / (IZR 1 / IZR 1 - 4 / 5 * (4 / 5)))%R
    with (349 / 180)%R by lra.
  replace ((61 / 100 - 4 / 5 * (11 / 100)) / (IZR 1 / IZR 1 - 4 / 5 * (4 / 5)))%R
    with (29 / 20)%R by lra.
  repeat decide_Rltb.
  rewrite (Rabs_pos_eq (15 - 349 / 180)) by lra.
  rewrite (Rabs_pos_eq (15 - 29 / 20)) by lra.
  repeat decide_Rltb.
  f_equal. lra.
Qed.

Lemma roots_boosted_parent :
  root_p (61 / 100)%R (4 / 5)%R = (349 / 180)%R
  /\ root_m (61 / 100)%R (4 / 5)%R = (29 / 20)%R
  /\ (discriminant (61 / 100)%R (4 / 5)%R < 0)%R.
Proof.
  unfold root_p, root_m, discriminant.
  cbn [frac dadd dsub dmul ddiv dsqrt dabs dlt ideal].
  replace (61 / 100 * (61 / 100) + 4 / 5 * (4 / 5) - IZR 1 / IZR 1)%R
    with (11 / 100 * (11 / 100))%R by lra.
  rewrite sqrt_square by lra.
  rewrite (Rabs_pos_eq (4 / 5)) by lra.
  repeat split; lra.
Qed.

Section SolveAnyArithmetic.
Context {D : Type} `{Double D}.
Context {LV TVector3 : Type}.
Variable p4_E     : LV -> D.
Variable p4_Beta  : LV -> D.
Variable p4_Angle : LV -> TVector3 -> D.
Variable TMath_Cos : D -> D.
Local Abbreviation solve_ := (solve p4_E p4_Beta p4_Angle TMath_Cos).
Local Open Scope dbl_scope.

(** C3 (amended).  For a massless daughter ([M < 1e-03]) the coefficients
    are [a = DM2 / P.E] and [b = cos(angle(P,e))], neither divided by [M]
    nor scaled by the parent's velocity: when [b < 1] fails, [solve] sets
    the reject flag ([accept = -1]) and returns
    [numeric_limits<double>::max()]; when [b < 1], it returns exactly
    [a / (1 - b)] and leaves [accept] as it was.  This holds in real and
    in binary64 arithmetic alike. *)
Theorem solve_massless
        (p4_w : LV) (DM2 M : D) (e_b : TVector3) (target : D) (accept : Z) :
  (M <? frac 1 1000) = true ->
  let a := massless_a p4_E p4_w DM2 in
  let b := massless_b p4_Angle TMath_Cos p4_w e_b in
  ((b <? 1) = false ->
     solve_ p4_w DM2 M e_b target accept = (numeric_limits_max, (-1)%Z))
  /\ ((b <? 1) = true ->
     solve_ p4_w DM2 M e_b target accept = (a / (1 - b), accept)).
Proof.
  intros HM a b. unfold solve, no_solution.
  fold (massless_a p4_E p4_w DM2) (massless_b p4_Angle TMath_Cos p4_w e_b).
  fold a b. rewrite HM.
  split; intros Hb; rewrite Hb; reflexivity.
Qed.

(** The massive branch, case by case, in terms of the two roots. *)
Lemma solve_massive
      (p4_w : LV) (DM2 M : D) (e_b : TVector3) (target : D) (accept : Z) :
  (M <? frac 1 1000) = false ->
  let a := massive_a p4_E p4_w DM2 M in
  let b := massive_b p4_Beta p4_Angle TMath_Cos p4_w e_b in
  let g_p := root_p a b in
  let g_m := if root_m a b <? 1 then root_p a b else root_m a b in
  solve_ p4_w DM2 M e_b target accept =
  if (a * a + b * b - 1) <? 0 then no_solution
  else if g_p <? 1 then no_solution
  else if b >? 0 then
    if discriminant a b <? 0 then
      (if dabs (target - g_p) <? dabs (target - g_m) then g_p * M else g_m * M,
       accept)
    else (g_p * M, accept)
  else if discriminant a b >? 0 then (g_m * M, accept)
  else no_solution.
Proof.
  intros HM a b g_p g_m. unfold solve. rewrite HM. reflexivity.
Qed.

End SolveAnyArithmetic.

(** C3, evaluated: a massless daughter emitted at a right angle to the
    parent ([b = 0]) gets the energy [a / (1 - b) = 1]. *)
Lemma solve_massless_witness :
  Rltb 0 (1 / 1000) = true
  /\ Root.solve parent_x 5%R 0%R axis_y 0%R 0%Z = (1%R, 0%Z).
Proof.
  assert (HM : Rltb 0 (1 / 1000) = true) by (apply Rltb_true; lra).
  split; [exact HM|].
  destruct (solve_massless (H := ideal) (@E R) Root.Beta Root.Angle cos
                           parent_x 5%R 0%R axis_y 0%R 0%Z HM) as [_ Hlt].
  unfold Root.solve. rewrite Hlt.
  - unfold massless_a, massless_b. rewrite Angle_parent_x_axis_y, cos_PI2.
    cbn. f_equal. lra.
  - unfold massless_b. rewrite Angle_parent_x_axis_y, cos_PI2.
    apply Rltb_true. cbn. lra.
Defined.

(** C3, as stated, fails.  With [a = DM2 / (P.E * M)] and
    [b = cos(angle(P,e)) * P.beta] a daughter of mass [1/2000] emitted along
    a parent of velocity [4/5] has [b = 4/5 < 1], so the statement promises
    the energy [a / (1 - b)] and no rejection; the code takes
    [b = cos(angle) = 1] and rejects. *)
Lemma solve_massless_spec_coefficients_fail :
  ~ (forall (p4_w : LV R) (DM2 M : R) (e_b : TVector3 R) (target : R)
            (accept : Z),
        (M < 1 / 1000)%R ->
        let a := spec_a (@E R) p4_w DM2 M in
        let b := spec_b Root.Beta Root.Angle cos p4_w e_b in
        ((1 <= b)%R ->
           Root.solve p4_w DM2 M e_b target accept
           = (numeric_limits_max, (-1)%Z))
        /\ ((b < 1)%R ->
           Root.solve p4_w DM2 M e_b target accept = ((a / (1 - b))%R, accept))).
Proof.
  intros claim.
  destruct (claim parent_x 5%R (1 / 2000)%R axis_x 0%R 0%Z) as [_ Hlt]; [lra|].
  unfold spec_a, spec_b in Hlt.
  rewrite Angle_parent_x_axis_x, cos_0, Beta_parent_x in Hlt.
  cbn [dmul ddiv ideal] in Hlt.
  specialize (Hlt ltac:(lra)).
  unfold Root.solve, solve in Hlt.
  rewrite Angle_parent_x_axis_x, cos_0 in Hlt.
  cbn [frac dadd dsub dmul ddiv dsqrt dabs dlt ideal] in Hlt.
  rewrite (proj2 (Rltb_true (1 / 2000) (IZR 1 / IZR 1000))) in Hlt by lra.
  rewrite (proj2 (Rltb_false 1 (IZR 1 / IZR 1))) in Hlt by lra.
  unfold no_solution in Hlt. inversion Hlt.
Qed.

(** C2, evaluated at a failing input.  Parent of energy 5 and velocity 4/5,
    daughter of mass 10 along the parent, [DM2 = 61/2], target energy 15:
    [a = 0.61], [b = 0.8], both roots are physical ([349/180] and [29/20]),
    the discriminant is negative, the energy [g_m * M = 14.5] is the one
    closer to the target, and [solve] returns [g_p * M = 349/18]: it
    compares the target energy with the dimensionless roots. *)
Theorem solve_tie_break_compares_target_with_dimensionless_roots :
  let M := 10%R in
  let target := 15%R in
  let a := massive_a (@E R) parent_x (61 / 2)%R M in
  let b := massive_b Root.Beta Root.Angle cos parent_x axis_x in
  a = (61 / 100)%R /\ b = (4 / 5)%R
  /\ (1 <= root_m a b)%R /\ (root_m a b < root_p a b)%R
  /\ (discriminant a b < 0)%R /\ (0 < b)%R
  /\ (Rabs (target - root_m a b * M) < Rabs (target - root_p a b * M))%R
  /\ Root.solve parent_x (61 / 2)%R M axis_x target 0%Z
     = ((root_p a b * M)%R, 0%Z).
Proof.
  intros M target a b.
  assert (Ha : a = (61 / 100)%R).
  { unfold a, massive_a, M. cbn. lra. }
  assert (Hb : b = (4 / 5)%R).
  { unfold b, massive_b. rewrite Angle_parent_x_axis_x, cos_0, Beta_parent_x.
    cbn. lra. }
  rewrite Ha, Hb.
  destruct roots_boosted_parent as (Hp & Hm & Hd).
  rewrite Hp, Hm. unfold M, target.
  rewrite solve_boosted_parent.
  repeat split; try lra.
  - rewrite (Rabs_pos_eq (15 - 29 / 20 * 10)) by lra.
    rewrite (Rabs_left (15 - 349 / 180 * 10)) by lra. lra.
  - f_equal. lra.
Qed.

Section SolveReal.
Context {LV TVector3 : Type}.
Variable p4_E     : LV -> R.
Variable p4_Beta  : LV -> R.
Variable p4_Angle : LV -> TVector3 -> R.
Variable TMath_Cos : R -> R.
Local Abbreviation solve_ := (solve p4_E p4_Beta p4_Angle TMath_Cos).

(** Over the reals.  For a massive daughter ([M >= 1e-03]), on every input
    on which [solve] does not set the reject flag (called with
    [accept = 0], as the phase-space builders start, it does not return
    [accept = -1]), [solve] leaves [accept] as it finds it and returns the
    energy [g * M] for one of the two roots [g] of the quadratic; that root
    is at least 1 -- a larger root below 1 is rejected, a smaller root
    below 1 is replaced by the larger -- so the energy is at least the rest
    mass [M]. *)
Theorem solve_massive_energy_at_least_mass
        (p4_w : LV) (DM2 M : R) (e_b : TVector3) (target : R) :
  (1 / 1000 <= M)%R ->
  snd (solve_ p4_w DM2 M e_b target 0%Z) <> (-1)%Z ->
  let a := massive_a p4_E p4_w DM2 M in
  let b := massive_b p4_Beta p4_Angle TMath_Cos p4_w e_b in
  exists g : R,
    (g = root_p a b \/ g = root_m a b)
    /\ (1 <= g)%R
    /\ (M <= g * M)%R
    /\ forall accept : Z,
        solve_ p4_w DM2 M e_b target accept = ((g * M)%R, accept).
Proof.
  intros HM Hacc a b.
  assert (HMf : dlt M (frac 1 1000) = false) by (apply Rltb_false; cbn; lra).
  rewrite (solve_massive (H := ideal) p4_E p4_Beta p4_Angle TMath_Cos
                         p4_w DM2 M e_b target 0%Z HMf) in Hacc.
  assert (Hall : forall accept,
             solve_ p4_w DM2 M e_b target accept = _)
    by (intros accept;
        exact (solve_massive (H := ideal) p4_E p4_Beta p4_Angle TMath_Cos
                             p4_w DM2 M e_b target accept HMf)).
  fold a b in Hacc, Hall.
  assert (Hone : (frac (D := R) 1 1 = 1)%R) by (cbn; lra).
  assert (Hscale : forall g : R, (1 <= g)%R -> (M <= g * M)%R) by (intros; nra).
  cbn [dlt ideal] in *.
  destruct (Rltb (dsub (dadd (dmul a a) (dmul b b)) (frac 1 1)) (frac 0 1));
    [exfalso; apply Hacc; reflexivity|].
  destruct (Rltb (root_p a b) (frac 1 1)) eqn:Hp;
    [exfalso; apply Hacc; reflexivity|].
  real_cmp Hp. rewrite Hone in Hp.
  assert (Hgm : (1 <= (if Rltb (root_m a b) (frac 1 1)
                       then root_p a b else root_m a b))%R
                /\ ((if Rltb (root_m a b) (frac 1 1)
                     then root_p a b else root_m a b) = root_p a b
                    \/ (if Rltb (root_m a b) (frac 1 1)
                        then root_p a b else root_m a b) = root_m a b)).
  { destruct (Rltb (root_m a b) (frac 1 1)) eqn:Hm.
    - split; [exact Hp | left; reflexivity].
    - real_cmp Hm. rewrite Hone in Hm. split; [exact Hm | right; reflexivity]. }
  destruct Hgm as [Hgm Hor].
  set (g_m := if Rltb (root_m a b) (frac 1 1)
              then root_p a b else root_m a b) in *.
  cbn [dmul ideal] in Hall.
  destruct (Rltb (frac 0 1) b).
  - destruct (Rltb (discriminant a b) (frac 0 1)).
    + destruct (Rltb (dabs (dsub target (root_p a b)))
                     (dabs (dsub target g_m))).
      * exists (root_p a b). repeat split; auto.
      * exists g_m. repeat split; auto.
    + exists (root_p a b). repeat split; auto.
  - destruct (Rltb (frac 0 1) (discriminant a b));
      [|exfalso; apply Hacc; reflexivity].
    exists g_m. repeat split; auto.
Qed.

End SolveReal.

(** Evaluated at the boosted parent: the energy returned is [349/18],
    above the rest mass 10. *)
Lemma solve_massive_energy_at_least_mass_witness :
  (1 / 1000 <= 10)%R
  /\ snd (Root.solve parent_x (61 / 2)%R 10%R axis_x 15%R 0%Z) <> (-1)%Z
  /\ (10 <= fst (Root.solve parent_x (61 / 2)%R 10%R axis_x 15%R 0%Z))%R.
Proof.
  assert (HM : (1 / 1000 <= 10)%R) by lra.
  assert (Hacc : snd (Root.solve parent_x (61 / 2)%R 10%R axis_x 15%R 0%Z)
                 <> (-1)%Z)
    by (rewrite solve_boosted_parent; cbn; lia).
  split; [exact HM|]. split; [exact Hacc|].
  destruct (solve_massive_energy_at_least_mass
              (@E R) Root.Beta Root.Angle cos
              parent_x (61 / 2)%R 10%R axis_x 15%R HM Hacc)
    as (g & _ & _ & Hle & Hsolve).
  unfold Root.solve. rewrite (Hsolve 0%Z). exact Hle.
Defined.

Section SolveSelectedRoot.
Context {D : Type} `{Double D}.
Context {LV TVector3 : Type}.
Variable p4_E     : LV -> D.
Variable p4_Beta  : LV -> D.
Variable p4_Angle : LV -> TVector3 -> D.
Variable TMath_Cos : D -> D.
Local Abbreviation solve_ := (solve p4_E p4_Beta p4_Angle TMath_Cos).
Local Open Scope dbl_scope.


End SolveSelectedRoot.




(** ** Extending a phase-space point *)

Lemma PSPart_eqb_refl (part : PSPart.PSPart) : PSPart.eqb part part = true.
Proof. destruct part; reflexivity. Qed.

Lemma TMath_Max_real (a b : R) : TMath_Max a b = Rmax a b.
Proof.
  unfold TMath_Max; cbn [dge ideal].
  destruct (Rgeb a b) eqn:Hc; real_cmp Hc.
  - rewrite Rmax_left; [reflexivity | lra].
  - rewrite Rmax_right; [reflexivity | lra].
Qed.

(** The clamped energy and the momentum taken from it. *)
Lemma clamped_momentum (E M : R) :
  (0 <= M)%R ->
  (M <= Rmax E M)%R
  /\ (0 <= Rmax E M * Rmax E M - M * M)%R
  /\ (sqrt (Rmax E M * Rmax E M - M * M)
      * sqrt (Rmax E M * Rmax E M - M * M)
      = Rmax E M * Rmax E M - M * M)%R.
Proof.
  intros HM.
  assert (H1 : (M <= Rmax E M)%R) by apply Rmax_r.
  assert (H2 : (0 <= Rmax E M * Rmax E M - M * M)%R) by nra.
  repeat split; auto. apply sqrt_sqrt; exact H2.
Qed.

(** Over the reals.  Whatever energy [E] is supplied, the four-momentum
    that [extend_PS] and [extend_PS_nodebug] store for [part] is
    [(dir * P, E_phys)] with [E_phys = max(E, M) >= M] and [P] the real
    square root of the non-negative number [E_phys^2 - M^2] (mass
    [M >= 0]). *)
Theorem extend_PS_energy_at_least_mass
        (ps : PS R) (part : PSPart.PSPart) (E_in M : R) (dir : TVector3 R)
        (pos : Z) (var_cos var_phi var_E : PSVar) (tf : TFType.TFType)
        (q : Z) :
  (0 <= M)%R ->
  exists E_phys P : R,
    E_phys = Rmax E_in M
    /\ (M <= E_phys)%R
    /\ (0 <= E_phys * E_phys - M * M)%R
    /\ (0 <= P)%R
    /\ (P * P = E_phys * E_phys - M * M)%R
    /\ PS_find (extend_PS ps part E_in M dir pos var_cos var_phi var_E tf q)
               part
       = Some {| lv := {| Vect := scale dir P; E := E_phys |};
                 type := tf; charge := q |}
    /\ PS_find (extend_PS_nodebug ps part E_in M dir) part
       = Some {| lv := {| Vect := scale dir P; E := E_phys |};
                 type := TFType.Unknown; charge := 0%Z |}.
Proof.
  intros HM.
  destruct (clamped_momentum E_in M HM) as (H1 & H2 & H3).
  exists (Rmax E_in M), (sqrt (Rmax E_in M * Rmax E_in M - M * M)).
  repeat split; auto.
  - apply sqrt_pos.
  - unfold extend_PS, PS_set. cbn [PS_find].
    rewrite PSPart_eqb_refl, TMath_Max_real. reflexivity.
  - unfold extend_PS_nodebug, PS_set. cbn [PS_find].
    rewrite PSPart_eqb_refl, TMath_Max_real. reflexivity.
Qed.

(** Evaluated: the "no solution" value of [solve] used as the energy of a
    particle of mass 10, over the reals. *)
Lemma extend_PS_energy_at_least_mass_witness :
  (0 <= 10)%R
  /\ exists E_phys P : R,
      E_phys = Rmax numeric_limits_max 10
      /\ (10 <= E_phys)%R
      /\ (P * P = E_phys * E_phys - 10 * 10)%R
      /\ PS_find (extend_PS_nodebug [] PSPart.b numeric_limits_max 10%R axis_x)
                 PSPart.b
         = Some {| lv := {| Vect := scale axis_x P; E := E_phys |};
                   type := TFType.Unknown; charge := 0%Z |}.
Proof.
  assert (HM : (0 <= 10)%R) by lra.
  split; [exact HM|].
  destruct (extend_PS_energy_at_least_mass
              [] PSPart.b numeric_limits_max 10%R axis_x
              0%Z 0%Z 0%Z 0%Z TFType.Unknown 0%Z HM)
    as (E_phys & P & H1 & H2 & _ & _ & H5 & _ & H7).
  exists E_phys, P. repeat split; assumption.
Defined.

Section ClampAnyArithmetic.
Context {D : Type} `{Double D}.
Local Open Scope dbl_scope.


End ClampAnyArithmetic.




(** ** The probability integrand *)

Section IntegrandFacts.
Context {D : Type} `{Double D} {ext : Collaborators D}.
Local Open Scope dbl_scope.

Lemma same_event_refl (st : Integrand D) : same_event st st.
Proof. unfold same_event; repeat split. Qed.

Lemma same_event_trans (st1 st2 st3 : Integrand D) :
  same_event st1 st2 -> same_event st2 st3 -> same_event st1 st3.
Proof.
  unfold same_event; intros H12 H23.
  repeat match goal with H : _ /\ _ |- _ => destruct H end.
  repeat split; congruence.
Qed.

(** Inversion of a successful [bind]. *)
Lemma bind_Done {A B} (m : Res A) (k : A -> Res B) (b : B) :
  bind m k = Done b -> exists a, m = Done a /\ k a = Done b.
Proof. destruct m; cbn; intros Hb; try discriminate. eauto. Qed.

Lemma transfer_same_event st ps perm accept w accept' st' :
  transfer st ps perm accept = Done (w, accept', st') -> same_event st st'.
Proof.
  unfold transfer.
  destruct (Z.land _ _ =? 0)%Z.
  { intros [= _ _ <-]; apply same_event_refl. }
  destruct (FinalState.eqb _ _).
  { intros [= _ _ <-]; apply same_event_refl. }
  intros Hb. apply bind_Done in Hb. destruct Hb as ([w0 a0] & _ & Hk).
  destruct (IsNaN w0); injection Hk as _ _ <-.
  - unfold same_event; cbn; repeat split.
  - apply same_event_refl.
Qed.

Lemma probability_same_event x n_perm st p st' :
  probability x n_perm st = Done (p, st') -> same_event st st'.
Proof.
  unfold probability.
  destruct (int_code (cfg st) =? 0)%Z.
  { intros [= _ <-]; apply same_event_refl. }
  intros Hb. apply bind_Done in Hb. destruct Hb as (perm & _ & Hb).
  apply bind_Done in Hb. destruct Hb as ([ps accept] & _ & Hb).
  destruct (accept <? 0)%Z.
  { injection Hb as _ <-. unfold same_event; cbn; repeat split. }
  apply bind_Done in Hb. destruct Hb as ([[w accept'] st1] & Ht & Hb).
  apply transfer_same_event in Ht.
  assert (H0 : same_event st st1).
  { eapply same_event_trans; [|exact Ht]. unfold same_event; cbn; repeat split. }
  destruct (negb (tf_suppress (cfg st1) =? 0)%Z
            && (accept' >=? tf_suppress (cfg st1))%Z).
  { injection Hb as _ <-. exact H0. }
  apply bind_Done in Hb. destruct Hb as (m & _ & Hb).
  injection Hb as _ <-.
  eapply same_event_trans; [exact H0|]. unfold same_event; cbn; repeat split.
Qed.

(** C7.  When [probability] calls [create_PS] and the build comes back
    rejected ([accept < 0]), [probability] returns exactly [0.], [n_skip]
    has grown by one, and nothing else has happened: [create_PS] is the
    only call in the log -- neither [transfer] nor [matrix] was
    evaluated -- and [error_code] and [n_calls] are as before. *)
Theorem probability_rejected_point
        (x : list D) (n_perm : nat) (st : Integrand D)
        (perm : list Z) (ps : PS D) (accept : Z) :
  int_code (cfg st) <> 0%Z ->
  at_nat (perm_indexes_assumption st) n_perm = Done perm ->
  create_PS st (PS_new (ps_dim st)) x perm = Done (ps, accept) ->
  (accept < 0)%Z ->
  exists st',
    probability x n_perm st = Done (0, st')
    /\ n_skip st' = S (n_skip st)
    /\ log st' = CallCreatePS :: log st
    /\ error_code st' = error_code st
    /\ n_calls st' = n_calls st
    /\ same_event st st'.
Proof.
  intros Hcode Hperm Hps Hneg.
  exists (set_n_skip (add_log st CallCreatePS) (S (n_skip st))).
  split.
  - unfold probability.
    apply Z.eqb_neq in Hcode. rewrite Hcode, Hperm. cbn [bind].
    rewrite Hps. cbn [bind].
    apply Z.ltb_lt in Hneg. rewrite Hneg. reflexivity.
  - cbn. repeat split.
Qed.

End IntegrandFacts.

(** C7, evaluated: the example builder rejects the point [x = (-1)]. *)
Lemma probability_rejected_point_witness :
  exists st',
    probability (ext := Example.ext) [(-1)%float] 0 Example.restricted
    = Done (0%float, st')
    /\ n_skip st' = 1%nat
    /\ log st' = [CallCreatePS].
Proof.
  destruct (probability_rejected_point
              (ext := Example.ext) [(-1)%float] 0 Example.restricted
              [0; 1; 2; 3; 4; 5]%Z
              (fold_left
                 (fun ps part =>
                    extend_PS ps part (-1)%float 0%float Example.axis
                              0%Z 0%Z 0%Z 0%Z TFType.Unknown 0%Z)
                 Example.all_parts [])
              (-1)%Z)
    as (st' & Hp & Hs & Hl & _).
  - vm_compute. discriminate.
  - vm_compute. reflexivity.
  - vm_compute. reflexivity.
  - lia.
  - exists st'. repeat split; assumption.
Defined.

Section EvalFacts.
Context {D : Type} `{Double D} {ext : Collaborators D}.
Local Open Scope dbl_scope.

Lemma at_nat_nth (v : list D) (i : nat) :
  (i < length v)%nat -> at_nat v i = Done (nth i v 0).
Proof.
  intros Hi. unfold at_nat.
  destruct (nth_error v i) eqn:Hn.
  - erewrite nth_error_nth; eauto.
  - apply nth_error_None in Hn. lia.
Qed.

(** The loop of [Eval], from [n_perm] on: with fuel for all the rounds that
    are left, it runs [probability] on the permutations that are not
    skipped and adds up the products. *)
Lemma Eval_loop_sum (x : list D) :
  forall (fuel n_perm : nat) (p : D) (st : Integrand D),
    length (perm_const_assumption st) = length (perm_indexes_assumption st) ->
    (length (perm_indexes_assumption st) - n_perm <= fuel)%nat ->
    let todo := filter (fun n => negb (skipped st n))
                       (seq n_perm (length (perm_indexes_assumption st) - n_perm)) in
    Eval_loop fuel x n_perm p st =
    '(p0s, st') <- probabilities x todo st ;;
    Done (add_products p p0s (map (perm_const st) todo), st').
Proof.
  induction fuel as [|fuel IH]; intros n_perm p st Hlen Hfuel todo.
  - assert (Hz : (length (perm_indexes_assumption st) - n_perm = 0)%nat) by lia.
    subst todo. rewrite Hz. reflexivity.
  - cbn [Eval_loop]. subst todo.
    destruct (n_perm <? length (perm_indexes_assumption st))%nat eqn:Hlt.
    2:{ apply Nat.ltb_ge in Hlt.
        replace (length (perm_indexes_assumption st) - n_perm)%nat with 0%nat
          by lia.
        reflexivity. }
    apply Nat.ltb_lt in Hlt.
    replace (length (perm_indexes_assumption st) - n_perm)%nat
      with (S (length (perm_indexes_assumption st) - S n_perm)) by lia.
    cbn [seq filter]. fold (skipped st n_perm).
    destruct (skipped st n_perm) eqn:Hskip; cbn [negb].
    + apply IH; [exact Hlen | lia].
    + cbn [probabilities].
      destruct (probability x n_perm st) as [[p0 st1]| |] eqn:Hp;
        cbn [bind]; try reflexivity.
      apply probability_same_event in Hp.
      destruct Hp as (Hcfg & _ & _ & _ & _ & _ & _ & _ & Hthis & _ & _ & _ & _
                      & Hi & Hc & _).
      assert (Hs : forall n, skipped st1 n = skipped st n).
      { intros n; unfold skipped. rewrite Hcfg, Hthis. reflexivity. }
      rewrite Hc, at_nat_nth by lia. cbn [bind].
      rewrite IH; [| rewrite Hc, Hi; exact Hlen | rewrite Hi; lia].
      rewrite Hi.
      rewrite (filter_ext _ _ (fun n => f_equal negb (Hs n))).
      destruct (probabilities x _ st1) as [[p0s st2]| |]; cbn [bind];
        try reflexivity.
      unfold add_products, perm_const. cbn [map combine fold_left fst snd].
      rewrite Hc. reflexivity.
Qed.

(** What the loop sums over is the list [retained]. *)
Lemma retained_filter (st : Integrand D) :
  filter (fun n => negb (skipped st n))
         (seq 0 (length (perm_indexes_assumption st))) = retained st.
Proof.
  unfold retained, skipped.
  destruct (perm_int (cfg st)); cbn [andb].
  - set (size := length (perm_indexes_assumption st)).
    set (k := this_perm st).
    rewrite (filter_ext _ (fun n => (n =? k)%nat))
      by (intros; apply negb_involutive).
    assert (Hgen : forall len start,
               filter (fun n => (n =? k)%nat) (seq start len)
               = if ((start <=? k) && (k <? start + len))%nat
                 then [k] else []).
    { induction len as [|len IHl]; intros start; cbn [seq filter].
      - destruct (Nat.leb_spec start k), (Nat.ltb_spec k (start + 0));
          cbn [andb]; auto; exfalso; lia.
      - rewrite IHl.
        destruct (Nat.eqb_spec start k), (Nat.leb_spec (S start) k),
          (Nat.ltb_spec k (S start + len)), (Nat.leb_spec start k),
          (Nat.ltb_spec k (start + S len));
          cbn [andb]; subst; auto; exfalso; lia. }
    rewrite Hgen. destruct (Nat.leb_spec 0 k); [|exfalso; lia].
    cbn [andb Nat.add]. reflexivity.
  - generalize (seq 0 (length (perm_indexes_assumption st))); intros l.
    induction l as [|a l IHl]; cbn; [reflexivity | f_equal; exact IHl].
Qed.

(** C1.  For every coordinate vector [x], [Eval(x)] is the sum, added up
    from [0.] in the order of the permutations, of
    [probability(x, n_perm) * perm_const_assumption[n_perm]] over the
    permutations retained for the assumption -- all of them, or, when
    [cfg.perm_int] is set, the single permutation [this_perm] -- and
    [n_calls] has grown by one.  (The two vectors of the assumption have
    one entry per permutation.) *)
Theorem Eval_sum_over_retained_permutations (x : list D) (st : Integrand D) :
  length (perm_const_assumption st) = length (perm_indexes_assumption st) ->
  (perm_int (cfg st) = true ->
     retained st = if (this_perm st <? length (perm_indexes_assumption st))%nat
                   then [this_perm st] else [])
  /\ (perm_int (cfg st) = false ->
        retained st = seq 0 (length (perm_indexes_assumption st)))
  /\ Eval x st =
     '(p0s, st') <- probabilities x (retained st) st ;;
     Done (add_products 0 p0s (map (perm_const st) (retained st)),
           set_n_calls st' (S (n_calls st'))).
Proof.
  intros Hlen. split; [|split].
  - intros Hp. unfold retained. rewrite Hp. reflexivity.
  - intros Hp. unfold retained. rewrite Hp. reflexivity.
  - unfold Eval.
    rewrite Eval_loop_sum by (try exact Hlen; lia).
    rewrite Nat.sub_0_r, retained_filter.
    destruct (probabilities x (retained st) st) as [[p0s st']| |];
      reflexivity.
Qed.

End EvalFacts.

(** C1, evaluated: two permutations are retained in the example, with
    constants 23625 and 31500; at [x = (2)] each has probability 1. *)
Lemma Eval_sum_over_retained_permutations_witness :
  length (perm_const_assumption Example.restricted)
  = length (perm_indexes_assumption Example.restricted)
  /\ retained Example.restricted = [0; 1]%nat
  /\ exists st',
      Eval (ext := Example.ext) [2%float] Example.restricted
      = Done (55125%float, st').
Proof.
  assert (Hlen : length (perm_const_assumption Example.restricted)
                 = length (perm_indexes_assumption Example.restricted))
    by (vm_compute; reflexivity).
  split; [exact Hlen|]. split; [vm_compute; reflexivity|].
  destruct (Eval_sum_over_retained_permutations
              (ext := Example.ext) [2%float] Example.restricted Hlen)
    as (_ & _ & Heval).
  rewrite Heval. vm_compute. eexists. reflexivity.
Defined.


(** ** NaN in the transfer functions and in the matrix element *)

Section NaNFacts.
Context {D : Type} `{Double D} {ext : Collaborators D}.
Local Open Scope dbl_scope.

(** A NaN product of transfer functions is replaced by [0.] and
    [error_code] is set to 1. *)
Lemma transfer_NaN st ps perm accept w accept' :
  Z.land (int_code (cfg st)) IntegrandType_Transfer <> 0%Z ->
  fs st <> FinalState.TTH ->
  transfer_product st ps perm accept = Done (w, accept') ->
  IsNaN w = true ->
  transfer st ps perm accept = Done (0, accept', set_error_code st 1).
Proof.
  intros Hbit Hfs Hprod Hnan. unfold transfer.
  apply Z.eqb_neq in Hbit. rewrite Hbit.
  replace (FinalState.eqb (fs st) FinalState.TTH) with false
    by (destruct (fs st); try reflexivity; congruence).
  rewrite Hprod. cbn [bind]. rewrite Hnan. reflexivity.
Qed.

(** A NaN product of amplitudes is replaced by [0.]; [matrix] returns a
    value and has no access to [error_code]. *)
Lemma matrix_NaN st ps m :
  fs st <> FinalState.TTH ->
  matrix_product st ps = Done m ->
  IsNaN m = true ->
  matrix st ps = Done 0.
Proof.
  intros Hfs Hprod Hnan. unfold matrix.
  replace (FinalState.eqb (fs st) FinalState.TTH) with false
    by (destruct (fs st); try reflexivity; congruence).
  rewrite Hprod. cbn [bind]. rewrite Hnan. reflexivity.
Qed.

Lemma matrix_nodecay_NaN st ps m :
  matrix_nodecay_product st ps = Done m ->
  IsNaN m = true ->
  matrix_nodecay st ps = Done 0.
Proof.
  intros Hprod Hnan. unfold matrix_nodecay.
  rewrite Hprod. cbn [bind]. rewrite Hnan. reflexivity.
Qed.

(** Whatever [matrix] meets, a call of [probability] whose transfer
    functions are not NaN leaves [error_code] as it found it. *)
Lemma probability_error_code_only_from_transfer x n_perm st p st' :
  probability x n_perm st = Done (p, st') ->
  error_code st' = error_code st
  \/ (error_code st' = 1%Z
      /\ exists perm ps accept w accept',
          transfer_product (add_log (add_log st CallCreatePS) CallTransfer)
                           ps perm accept = Done (w, accept')
          /\ IsNaN w = true).
Proof.
  unfold probability.
  destruct (int_code (cfg st) =? 0)%Z.
  { intros [= _ <-]; left; reflexivity. }
  intros Hb. apply bind_Done in Hb. destruct Hb as (perm & _ & Hb).
  apply bind_Done in Hb. destruct Hb as ([ps accept] & _ & Hb).
  destruct (accept <? 0)%Z.
  { injection Hb as _ <-. left; reflexivity. }
  apply bind_Done in Hb. destruct Hb as ([[w accept'] st1] & Ht & Hb).
  assert (Hst' : error_code st' = error_code st1).
  { destruct (negb (tf_suppress (cfg st1) =? 0)%Z
              && (accept' >=? tf_suppress (cfg st1))%Z).
    - injection Hb as _ <-. reflexivity.
    - apply bind_Done in Hb. destruct Hb as (m & _ & Hb).
      injection Hb as _ <-. reflexivity. }
  rewrite Hst'. clear Hb Hst'.
  unfold transfer in Ht.
  destruct (Z.land _ _ =? 0)%Z.
  { injection Ht as _ _ <-. left; reflexivity. }
  destruct (FinalState.eqb _ _).
  { injection Ht as _ _ <-. left; reflexivity. }
  apply bind_Done in Ht. destruct Ht as ([w0 a0] & Hprod & Hk).
  destruct (IsNaN w0) eqn:Hnan; injection Hk as _ _ <-.
  - right. split; [reflexivity|]. exists perm, ps, accept, w0, a0. auto.
  - left; reflexivity.
Qed.

End NaNFacts.

(** C9, evaluated at a failing input.  In the example event the point
    [x = (0)] is accepted by the phase-space builder, the transfer
    functions give 1, and the product of amplitudes is NaN (the parton
    density divides 0 by 0).  [matrix] returns [0.] and so does
    [probability], but [error_code] is still 0 after the call; the same NaN
    in the product of [transfer] would have set it to 1. *)
Theorem matrix_NaN_does_not_set_error_code :
  let st := Example.restricted in
  let x := [0%float] in
  exists ps m st',
    create_PS (ext := Example.ext) st (PS_new (ps_dim st)) x [0; 1; 2; 3; 4; 5]%Z
    = Done (ps, 0%Z)
    /\ matrix_product (ext := Example.ext) st ps = Done m
    /\ IsNaN m = true
    /\ matrix (ext := Example.ext) st ps = Done 0%float
    /\ probability (ext := Example.ext) x 0 st = Done (0%float, st')
    /\ error_code st = 0%Z
    /\ error_code st' = 0%Z.
Proof.
  intros st x. do 3 eexists.
  split; [vm_compute; reflexivity|].
  split; [vm_compute; reflexivity|].
  split; [vm_compute; reflexivity|].
  split; [vm_compute; reflexivity|].
  split; [vm_compute; reflexivity|].
  split; vm_compute; reflexivity.
Qed.

(** ** Assumptions that cannot be made *)

Section TooFewJets.
Context {D : Type} `{Double D} {ext : Collaborators D}.
Local Open Scope dbl_scope.

(** With too few jets [make_assumption] returns at once: the state and the
    result record are as they were. *)
Lemma make_assumption_too_few_jets
      (lost : list PSVar) (out : MEMOutput D) (st : Integrand D) :
  (length (obs_jets st) + length lost / 2 < naive_jet_counting st)%nat ->
  make_assumption lost out st = Done (out, st).
Proof.
  intros Hfew. unfold make_assumption, test_assumption.
  apply Nat.ltb_lt in Hfew. rewrite Hfew. reflexivity.
Qed.

(** C8.  When the observed jets plus the assumed lost quarks are fewer
    than the quarks the final state expects, [init] sets
    [naive_jet_counting] to that number, [make_assumption] returns
    immediately -- state and result record untouched, whatever the record
    held -- and [run] raises no error: its record has probability, error
    and chi-square zero and counts zero permutations, and the log of
    calls has not grown, so the integrator was never invoked.  (A run
    starts with no permutation of an earlier assumption left over, as
    after construction, [next_event] or [next_hypo].) *)
Theorem run_too_few_jets
        (f : FinalState.FinalState) (h : Hypo.Hypo) (lost : list PSVar)
        (time : Z) (st : Integrand D) :
  length (obs_leptons st) = leptons_expected f ->
  perm_indexes_assumption st = [] ->
  (length (obs_jets st) + length lost / 2 < quarks_expected f)%nat ->
  exists (st1 : Integrand D) (out : MEMOutput D) (st' : Integrand D),
    init f h st = Done st1
    /\ naive_jet_counting st1 = quarks_expected f
    /\ (forall (out0 : MEMOutput D) (n : nat),
           make_assumption lost out0 (set_n_max_calls st1 n)
           = Done (out0, set_n_max_calls st1 n))
    /\ run f h lost time st = Done (out, st')
    /\ out_p out = 0 /\ out_p_err out = 0 /\ out_chi2 out = 0
    /\ out_num_perm out = 0%nat
    /\ log st' = log st.
Proof.
  intros Hlep Hempty Hfew.
  assert (Hinit : exists st1, init f h st = Done st1
                              /\ naive_jet_counting st1 = quarks_expected f
                              /\ length (obs_jets st1) = length (obs_jets st)
                              /\ perm_indexes_assumption st1 = []
                              /\ log st1 = log st).
  { unfold init. apply Nat.eqb_eq in Hlep. rewrite Hlep. cbn [negb].
    eexists. split; [reflexivity|]. cbn.
    rewrite length_map. repeat split; auto. }
  destruct Hinit as (st1 & Hinit & Hnaive & Hjets & Hperms & Hlog).
  assert (Hmake : forall out0 n,
             make_assumption lost out0 (set_n_max_calls st1 n)
             = Done (out0, set_n_max_calls st1 n)).
  { intros out0 n. apply make_assumption_too_few_jets. cbn.
    rewrite Hjets, Hnaive. exact Hfew. }
  exists st1. unfold run. rewrite Hinit. cbn [bind].
  rewrite Hmake. cbn [bind].
  do 2 eexists. repeat split; try reflexivity; auto.
  cbn. rewrite Hperms. reflexivity.
Qed.

End TooFewJets.

(** C8, evaluated: five jets, no quark assumed lost, six quarks expected. *)
Lemma run_too_few_jets_witness :
  length (obs_leptons Example.start5) = leptons_expected FinalState.LH
  /\ perm_indexes_assumption Example.start5 = []
  /\ (length (obs_jets Example.start5) + length (@nil PSVar) / 2
      < quarks_expected FinalState.LH)%nat
  /\ exists out st',
      run FinalState.LH Hypo.TTH [] 7 Example.start5 = Done (out, st')
      /\ out_p out = 0%float /\ out_p_err out = 0%float
      /\ out_chi2 out = 0%float /\ out_num_perm out = 0%nat
      /\ log st' = [].
Proof.
  assert (H1 : length (obs_leptons Example.start5)
               = leptons_expected FinalState.LH) by reflexivity.
  assert (H2 : perm_indexes_assumption Example.start5 = []) by reflexivity.
  assert (H3 : (length (obs_jets Example.start5) + length (@nil PSVar) / 2
                < quarks_expected FinalState.LH)%nat) by (cbn; lia).
  repeat (split; [assumption|]).
  destruct (run_too_few_jets FinalState.LH Hypo.TTH [] 7 Example.start5
                             H1 H2 H3)
    as (st1 & out & st' & _ & _ & _ & Hrun & Hp & He & Hc & Hn & Hl).
  exists out, st'. repeat split; assumption.
Defined.

(** ** Permutation constants *)

Section PermutationConstants.
Context {D : Type} `{Double D}.
Local Open Scope dbl_scope.

(** In any arithmetic: when [get_permutation_constants] returns, every slot
  whose energy is an integration variable holds a real jet with its window
  set, and the value is [1.] multiplied in turn by the widths of these
  windows. *)
Lemma get_permutation_constants_widths
    (st : Integrand D) (perm : list Z) (k : D) :
get_permutation_constants st perm = Done k ->
exists ws : list D,
  widths st perm (energy_slots (fs st) (hypo st)) = Done ws
  /\ k = fold_left dmul ws 1.
Proof.
unfold get_permutation_constants, energy_slots, DeltaE_q, DeltaE_b.
destruct (fs st); destruct (Hypo.eqb (hypo st) Hypo.TTBB);
  cbn [widths app bind];
  repeat (match goal with
          | |- context [DeltaE ?s ?p ?part ?hi ?lo] =>
              destruct (DeltaE s p part hi lo); cbn [bind];
              try discriminate
          end);
  intros [= <-]; eexists; split; reflexivity.
Qed.

End PermutationConstants.

Lemma product_positive (ws : list R) (p : R) :
  (0 < p)%R -> Forall (fun w => (0 < w)%R) ws -> (0 < fold_left Rmult ws p)%R.
Proof.
  revert p. induction ws as [|w ws IH]; intros p Hp Hall; cbn [fold_left].
  - exact Hp.
  - inversion Hall; subst. apply IH; [nra | assumption].
Qed.

(** Over the reals.  When [get_permutation_constants] returns for a
    permutation, the constant is the product of the window widths
    [E_HIGH - E_LOW] of the jets in the slots whose energy is an integration
    variable, and it is strictly positive whenever each of these windows
    has [E_HIGH > E_LOW]. *)
Theorem get_permutation_constants_product
        (st : Integrand R) (perm : list Z) (k : R) :
  get_permutation_constants st perm = Done k ->
  exists ws : list R,
    widths st perm (energy_slots (fs st) (hypo st)) = Done ws
    /\ k = fold_left Rmult ws 1%R
    /\ (Forall (fun w => (0 < w)%R) ws -> (0 < k)%R).
Proof.
  intros Hk.
  destruct (get_permutation_constants_widths st perm k Hk) as (ws & Hws & Hprod).
  exists ws. cbn [frac dmul ideal] in Hprod.
  replace (IZR 1 / IZR 1)%R with 1%R in Hprod by lra.
  repeat split; auto.
  intros Hall. rewrite Hprod. apply product_positive; [lra | exact Hall].
Qed.

(** Evaluated: under TTBB the dileptonic constant is the product of the
    windows of the jets in the slots [b] and [bbar]. *)
Lemma get_permutation_constants_product_witness :
  get_permutation_constants RealExample.event [0; 1; 2; 3]%Z
  = Done (1 * (150 - 60) * (90 - 70))%R
  /\ (0 < 1 * (150 - 60) * (90 - 70))%R.
Proof.
  assert (Hk : get_permutation_constants RealExample.event [0; 1; 2; 3]%Z
               = Done (1 * (150 - 60) * (90 - 70))%R).
  { cbv -[Rplus Rminus Rmult Rdiv Rinv IZR]. f_equal. lra. }
  split; [exact Hk|].
  destruct (get_permutation_constants_product
              RealExample.event [0; 1; 2; 3]%Z _ Hk) as (ws & Hws & _ & Hpos).
  apply Hpos.
  cbv -[Rplus Rminus Rmult Rdiv Rinv IZR] in Hws.
  injection Hws as <-.
  repeat constructor; lra.
Defined.

(** C6, as stated, fails.  In the example event all six quark-level slots of
    the permutation hold real jets; the product of the six window widths is
    not the constant the code caches, which is the product of the widths for
    [q1] and [b] alone. *)
Lemma permutation_constant_is_not_product_over_all_slots :
  let st := Example.restricted in
  let perm := [0; 1; 2; 3; 4; 5]%Z in
  Forall (fun j => (0 <= j)%Z) perm
  /\ nth_error (perm_indexes_assumption st) 0 = Some perm
  /\ nth_error (perm_const_assumption st) 0 = Some 23625%float
  /\ get_permutation_constants st perm = Done 23625%float
  /\ spec_permutation_constant st perm = Done 51051262500000%float
  /\ 23625%float <> 51051262500000%float.
Proof.
  intros st perm.
  split; [repeat constructor; lia|].
  split; [vm_compute; reflexivity|].
  split; [vm_compute; reflexivity|].
  split; [vm_compute; reflexivity|].
  split; [vm_compute; reflexivity|].
  intros Heq.
  apply (f_equal (fun v => PrimFloat.ltb v 30000%float)) in Heq.
  vm_compute in Heq. discriminate.
Qed.

(** C6 (amended).  When [get_permutation_constants] returns for a
    permutation, the constant is [1.] multiplied in turn by the window
    widths [E_HIGH - E_LOW] of the jets in the slots whose energy is an
    integration variable -- [q1] and [b] (and [bbar] under TTBB) for LH,
    [b] (and [bbar]) for LL, [q1], [q2] and [b] (and [bbar]) for HH, with
    the [_Q] window for the light quarks and the [_B] window for the b
    quarks -- in any arithmetic.  In real arithmetic it is strictly
    positive whenever each of these windows has [E_HIGH > E_LOW]. *)
Theorem get_permutation_constants_product_of_widths :
  (forall (D : Type) (H : Double D) (st : Integrand D) (perm : list Z)
          (k : D),
      get_permutation_constants st perm = Done k ->
      exists ws : list D,
        widths st perm (energy_slots (fs st) (hypo st)) = Done ws
        /\ k = fold_left dmul ws (frac 1 1))
  /\ (forall (st : Integrand R) (perm : list Z) (k : R),
         get_permutation_constants st perm = Done k ->
         exists ws : list R,
           widths st perm (energy_slots (fs st) (hypo st)) = Done ws
           /\ k = fold_left Rmult ws 1%R
           /\ (Forall (fun w => (0 < w)%R) ws -> (0 < k)%R)).
Proof.
  split.
  - intros D H st perm k Hk.
    exact (get_permutation_constants_widths st perm k Hk).
  - intros st perm k Hk.
    exact (get_permutation_constants_product st perm k Hk).
Qed.

(** C6 (amended), evaluated: under TTBB the dileptonic constant is the
    product of the windows of the jets in the slots [b] and [bbar], over
    the reals and in binary64. *)
Lemma get_permutation_constants_product_of_widths_witness :
  (get_permutation_constants RealExample.event [0; 1; 2; 3]%Z
   = Done (1 * (150 - 60) * (90 - 70))%R
   /\ (0 < 1 * (150 - 60) * (90 - 70))%R)
  /\ (get_permutation_constants Example.restricted [0; 1; 2; 3; 4; 5]%Z
      = Done 23625%float
      /\ exists ws : list float,
          widths Example.restricted [0; 1; 2; 3; 4; 5]%Z
                 (energy_slots FinalState.LH Hypo.TTH) = Done ws
          /\ 23625%float = fold_left dmul ws (frac 1 1)).
Proof.
  destruct get_permutation_constants_product_of_widths as [Hany Hreal].
  split.
  - assert (Hk : get_permutation_constants RealExample.event [0; 1; 2; 3]%Z
                 = Done (1 * (150 - 60) * (90 - 70))%R).
    { cbv -[Rplus Rminus Rmult Rdiv Rinv IZR]. f_equal. lra. }
    split; [exact Hk|].
    destruct (Hreal RealExample.event [0; 1; 2; 3]%Z _ Hk)
      as (ws & Hws & _ & Hpos).
    apply Hpos.
    cbv -[Rplus Rminus Rmult Rdiv Rinv IZR] in Hws.
    injection Hws as <-.
    repeat constructor; lra.
  - assert (Hk : get_permutation_constants Example.restricted
                                           [0; 1; 2; 3; 4; 5]%Z
                 = Done 23625%float) by (vm_compute; reflexivity).
    split; [exact Hk|].
    exact (Hany float ieee Example.restricted [0; 1; 2; 3; 4; 5]%Z _ Hk).
Defined.

(** In binary64 the product of positive widths need not be positive: two
    windows of width [2^-600], each with [E_HIGH > E_LOW], give the
    constant 0, because their product underflows. *)
Lemma permutation_constant_underflows_binary64 :
  Forall (fun j => find_obs (obs j) Observable.E_LOW_B = Some 0%float
                   /\ find_obs (obs j) Observable.E_HIGH_B
                      = Some UnderflowExample.tiny
                   /\ PrimFloat.ltb 0%float UnderflowExample.tiny = true)
         (obs_jets UnderflowExample.event)
  /\ widths UnderflowExample.event [0; 1; 2; 3]%Z
            (energy_slots FinalState.LL Hypo.TTBB)
     = Done [UnderflowExample.tiny; UnderflowExample.tiny]
  /\ get_permutation_constants UnderflowExample.event [0; 1; 2; 3]%Z
     = Done 0%float
  /\ PrimFloat.ltb 0%float 0%float = false.
Proof.
  split; [repeat constructor|].
  split; [vm_compute; reflexivity|].
  split; vm_compute; reflexivity.
Qed.

(** ** Restricting the permutations to an assumption *)

Lemma set_nat_spec {A} (v : list A) (i : nat) (x : A) (v' : list A) :
  set_nat v i x = Done v' ->
  length v' = length v
  /\ nth_error v' i = Some x
  /\ forall j, j <> i -> nth_error v' j = nth_error v j.
Proof.
  revert i v'. induction v as [|a v IH]; intros i v' Hset.
  - destruct i; discriminate.
  - destruct i as [|i]; cbn [set_nat] in Hset.
    + injection Hset as <-. repeat split. intros [|j] Hj; [congruence | reflexivity].
    + destruct (set_nat v i x) as [t| |] eqn:Ht; cbn [bind] in Hset;
        try discriminate.
      injection Hset as <-. destruct (IH i t Ht) as (Hl & Hn & Ho).
      repeat split; cbn; auto. intros [|j] Hj; cbn; auto.
Qed.

(** The loop over the lost variables: it writes [-1] to the slots of the
    variables it uses (every second one) and touches nothing else. *)
Lemma force_lost_spec (lost : list PSVar) :
  forall (count : nat) (perm perm' : list Z),
    force_lost lost count perm = Done perm' ->
    length perm' = length perm
    /\ (forall j, nth_error perm' j = nth_error perm j
                  \/ nth_error perm' j = Some (-1)%Z)
    /\ (forall j, nth_error perm j = Some (-1)%Z ->
                  nth_error perm' j = Some (-1)%Z)
    /\ (forall it,
           In it (if Nat.even count then designated lost
                  else designated (tl lost)) ->
           nth_error perm' (lost_particle it) = Some (-1)%Z).
Proof.
  induction lost as [|it rest IH]; intros count perm perm' Hf.
  - injection Hf as <-. repeat split; auto.
    intros it Hin. destruct (Nat.even count); destruct Hin.
  - cbn [force_lost] in Hf.
    destruct (Nat.even count) eqn:Hev.
    + destruct (set_nat perm (lost_particle it) (-1)%Z) as [p1| |] eqn:Hset;
        cbn [bind] in Hf; try discriminate.
      destruct (set_nat_spec _ _ _ _ Hset) as (Hl1 & Hn1 & Ho1).
      destruct (IH (S count) p1 perm' Hf) as (Hl & Hor & Hkeep & Hdes).
      rewrite Nat.even_succ, <- Nat.negb_even, Hev in Hdes. cbn [negb] in Hdes.
      repeat split.
      * congruence.
      * intros j. destruct (Hor j) as [Hj | Hj]; auto.
        destruct (Nat.eq_dec j (lost_particle it)) as [-> | Hne].
        -- right. congruence.
        -- left. rewrite Hj. apply Ho1. exact Hne.
      * intros j Hj. apply Hkeep.
        destruct (Nat.eq_dec j (lost_particle it)) as [-> | Hne]; auto.
        rewrite Ho1; auto.
      * intros it' Hin.
        assert (Hcases : it' = it \/ In it' (designated (tl rest))).
        { destruct rest as [|r rest']; cbn [designated tl] in Hin |- *.
          - destruct Hin as [<- | []]. left; reflexivity.
          - destruct Hin as [<- | Hin]; [left; reflexivity | right; exact Hin]. }
        destruct Hcases as [-> | Hin'].
        -- apply Hkeep. exact Hn1.
        -- apply Hdes. exact Hin'.
    + cbn [bind] in Hf.
      destruct (IH (S count) perm perm' Hf) as (Hl & Hor & Hkeep & Hdes).
      rewrite Nat.even_succ, <- Nat.negb_even, Hev in Hdes. cbn [negb] in Hdes.
      repeat split; auto.
Qed.



Section Restriction.
Context {D : Type} `{Double D} {ext : Collaborators D}.
Local Open Scope dbl_scope.

Lemma remove_unwanted_spec (lost : list PSVar) (raws : list (list Z)) :
  forall (perms : list (list Z)) (st st' : Integrand D),
    incl perms raws ->
    remove_unwanted lost perms st = Done st' ->
    Forall (kept_for lost raws) (perm_indexes_assumption st) ->
    Forall (kept_for lost raws) (perm_indexes_assumption st')
    /\ perm_indexes st' = perm_indexes st
    /\ (length (perm_const_assumption st) = length (perm_indexes_assumption st) ->
        length (perm_const_assumption st')
        = length (perm_indexes_assumption st')).
Proof.
  induction perms as [|raw perms IH]; intros st st' Hincl Hrun Hinv.
  - injection Hrun as <-. auto.
  - cbn [remove_unwanted] in Hrun.
    assert (Hincl' : incl perms raws)
      by (intros p Hp; apply Hincl; right; exact Hp).
    destruct (force_lost lost 0 raw) as [perm| |] eqn:Hforce;
      cbn [bind] in Hrun; try discriminate.
    destruct (count_lost perm =? length lost / 2)%nat eqn:Hcount;
      cbn [negb] in Hrun.
    2:{ eapply IH; eauto. }
    destruct (accept_perm st perm (perm_pruning (cfg st))) as [ok| |];
      cbn [bind] in Hrun; try discriminate.
    destruct ok; cbn [negb] in Hrun.
    2:{ eapply IH; eauto. }
    destruct (get_permutation_constants st perm) as [k| |];
      cbn [bind] in Hrun; try discriminate.
    destruct (IH _ _ Hincl' Hrun) as (Hall & Hraw & Hlen).
    + cbn. apply Forall_app. split; [exact Hinv|].
      constructor; [|constructor].
      destruct (force_lost_spec _ _ _ _ Hforce) as (_ & _ & _ & Hdes).
      cbn [Nat.even] in Hdes.
      repeat split.
      * apply Nat.eqb_eq. exact Hcount.
      * exact Hdes.
      * exists raw. split; [apply Hincl; left; reflexivity | exact Hforce].
    + repeat split; auto.
      intros Hl. apply Hlen. cbn. rewrite !length_app. cbn. lia.
Qed.

Lemma fill_map_perms (lost : list PSVar) (st : Integrand D) :
  perm_indexes (fill_map lost st) = perm_indexes st
  /\ perm_indexes_assumption (fill_map lost st) = perm_indexes_assumption st.
Proof. unfold fill_map. destruct (fs st); split; reflexivity. Qed.

(** The integration leaves the permutations of the assumption alone. *)
Lemma Eval_loop_same_event (x : list D) :
  forall fuel n_perm p st p' st',
    Eval_loop fuel x n_perm p st = Done (p', st') -> same_event st st'.
Proof.
  induction fuel as [|fuel IH]; intros n_perm p st p' st' He.
  - injection He as _ <-. apply same_event_refl.
  - cbn [Eval_loop] in He.
    destruct (n_perm <? _)%nat.
    2:{ injection He as _ <-. apply same_event_refl. }
    destruct (perm_int (cfg st) && negb (n_perm =? this_perm st)%nat).
    { eapply IH; eauto. }
    destruct (probability x n_perm st) as [[p0 st1]| |] eqn:Hp;
      cbn [bind] in He; try discriminate.
    destruct (at_nat (perm_const_assumption st1) n_perm) as [p1| |];
      cbn [bind] in He; try discriminate.
    eapply same_event_trans; [eapply probability_same_event; eauto|].
    eapply IH; eauto.
Qed.

Lemma Eval_same_event (x : list D) st p st' :
  Eval x st = Done (p, st') -> same_event st st'.
Proof.
  unfold Eval. intros He.
  destruct (Eval_loop _ x 0 0 st) as [[p1 st1]| |] eqn:Hl;
    cbn [bind] in He; try discriminate.
  injection He as _ <-.
  eapply same_event_trans; [eapply Eval_loop_same_event; eauto|].
  unfold same_event; cbn; repeat split.
Qed.

Lemma Integral_same_event (ig : Integrator D) :
  forall st i e c st',
    Integral ig st = Done (i, e, c, st') -> same_event st st'.
Proof.
  induction ig as [i0 e0 c0 | x k IH]; intros st i e c st' Hi.
  - injection Hi as _ _ _ <-. apply same_event_refl.
  - cbn [Integral] in Hi.
    destruct (Eval x st) as [[v st1]| |] eqn:He; cbn [bind] in Hi;
      try discriminate.
    eapply same_event_trans; [eapply Eval_same_event; eauto|].
    eapply IH; eauto.
Qed.



End Restriction.

Section Caching.
Context {D : Type} `{Double D} {ext : Collaborators D}.

(** The constants are cached alongside the permutations: each one is the
    value of [get_permutation_constants] on its permutation. *)
Lemma remove_unwanted_cached (lost : list PSVar) :
  forall (perms : list (list Z)) (st st' : Integrand D),
    remove_unwanted lost perms st = Done st' ->
    cached st -> cached st'.
Proof.
  induction perms as [|raw perms IH]; intros st st' Hrun Hc.
  - injection Hrun as <-. exact Hc.
  - cbn [remove_unwanted] in Hrun.
    destruct (force_lost lost 0 raw) as [perm| |]; cbn [bind] in Hrun;
      try discriminate.
    destruct (negb (count_lost perm =? length lost / 2)%nat).
    { eapply IH; eauto. }
    destruct (accept_perm st perm (perm_pruning (cfg st))) as [ok| |];
      cbn [bind] in Hrun; try discriminate.
    destruct (negb ok).
    { eapply IH; eauto. }
    destruct (get_permutation_constants st perm) as [k| |] eqn:Hk;
      cbn [bind] in Hrun; try discriminate.
    eapply IH; eauto.
    unfold cached in *. cbn. apply Forall2_app.
    + exact Hc.
    + constructor; [exact Hk | constructor].
Qed.

End Caching.


(** ** The state between runs *)

Section Lifecycle.
Context {D : Type} `{Double D} {ext : Collaborators D}.

(** Every run ends in [next_hypo]: the next run finds no permutation and no
    constant of an earlier assumption. *)
Lemma run_clears_assumption
      (f : FinalState.FinalState) (h : Hypo.Hypo) (lost : list PSVar)
      (time : Z) (st st' : Integrand D) (out : MEMOutput D) :
  run f h lost time st = Done (out, st') ->
  perm_indexes st' = [] /\ perm_indexes_assumption st' = []
  /\ perm_const_assumption st' = [] /\ map_to_part st' = [].
Proof.
  unfold run. intros Hrun.
  apply bind_Done in Hrun. destruct Hrun as (st1 & _ & Hrun).
  apply bind_Done in Hrun. destruct Hrun as ([out1 st2] & _ & Hrun).
  injection Hrun as _ <-. repeat split.
Qed.

(** Started with no constant left over, the filter of [make_assumption]
    caches one constant per permutation: the state [Eval] is called in. *)
Lemma remove_unwanted_one_constant_per_permutation
      (lost : list PSVar) (st st' : Integrand D) :
  perm_const_assumption st = [] ->
  remove_unwanted lost (perm_indexes st)
                  (fill_map lost (set_assumption st [] (perm_const_assumption st)))
  = Done st' ->
  length (perm_const_assumption st') = length (perm_indexes_assumption st').
Proof.
  intros Hnil Hrun.
  destruct (remove_unwanted_spec lost (perm_indexes st) _ _ _
                                 (incl_refl _) Hrun) as (_ & _ & Hlen).
  - rewrite (proj2 (fill_map_perms _ _)). constructor.
  - apply Hlen. unfold fill_map. rewrite Hnil.
    cbn [fs set_assumption]. destruct (fs st); reflexivity.
Qed.

End Lifecycle.

(** ** The "no solution" value in binary64 *)

(** In binary64 the clamp also holds the "no solution" value of [solve]:
    with [E = numeric_limits<double>::max()] and the mass 5 the energy
    stored is [E] itself, at least the mass; its square overflows, and the
    momentum magnitude is [+infinity], not NaN.  The product [dir * P]
    is formed in [extend_PS_no_solution_energy_gives_NaN_momentum]. *)
Lemma no_solution_energy_binary64 :
  let E_phys := TMath_Max (numeric_limits_max (D := float)) 5%float in
  let P := dsqrt (dsub (dmul E_phys E_phys) (dmul 5 5))%float in
  E_phys = numeric_limits_max
  /\ dge E_phys 5%float = true
  /\ P = PrimFloat.infinity
  /\ IsNaN P = false.
Proof. repeat split; vm_compute; reflexivity. Qed.

(* ================================================================= *)
(** * More of the class *)

(** ** The solver and the on-shell relation *)

(** A root [(a + e*s)/c] of the quadratic, written with [e*e = b*b],
    [s*s = a*a + b*b - 1] and [c = 1 - b*b > 0], solves the relation
    before squaring as soon as [a*e + s] is not negative. *)
Lemma root_solves_relation (a b e s c g : R) :
  c = (1 - b * b)%R -> (0 < c)%R -> (e * e = b * b)%R ->
  (s * s = a * a + b * b - 1)%R ->
  g = ((a + e * s) / c)%R ->
  (0 <= a * e + s)%R ->
  (g - e * sqrt (g * g - 1) = a)%R.
Proof.
  intros Hc Hpos He Hs Hg Hsign.
  assert (Hnum : (a * a * (e * e) + s * s - a * a - (e * e) * (s * s) + c * c
                  = 0)%R) by (rewrite He, Hs, Hc; ring).
  set (t := ((a * e + s) / c)%R).
  assert (Ht0 : (0 <= t)%R).
  { unfold t. apply Rmult_le_pos; [exact Hsign|].
    left. apply Rinv_0_lt_compat. exact Hpos. }
  assert (Htt : (t * t = g * g - 1)%R).
  { unfold t. rewrite Hg.
    assert (Hd : ((a * e + s) / c * ((a * e + s) / c)
                  - ((a + e * s) / c * ((a + e * s) / c) - 1)
                  = (a * a * (e * e) + s * s - a * a - (e * e) * (s * s)
                     + c * c) / (c * c))%R) by (field; lra).
    rewrite Hnum in Hd. unfold Rdiv at 5 in Hd. rewrite Rmult_0_l in Hd. lra. }
  assert (Hsq : sqrt (g * g - 1) = t).
  { apply sqrt_lem_1; [rewrite <- Htt; nra | exact Ht0 | exact Htt]. }
  rewrite Hsq. unfold t. rewrite Hg.
  assert (Hd : ((a + e * s) / c - e * ((a * e + s) / c)
                = a * (1 - e * e) / c)%R) by (field; lra).
  rewrite Hd, He, <- Hc. field. lra.
Qed.

(** Two numbers that are not negative compare as their squares do. *)
Lemma le_of_squares (x y : R) :
  (0 <= x)%R -> (0 <= y)%R -> (y * y <= x * x)%R -> (y <= x)%R.
Proof. intros; nra. Qed.

Section SolveOnShell.
Context {LV TVector3 : Type}.
Variable p4_E     : LV -> R.
Variable p4_Beta  : LV -> R.
Variable p4_Angle : LV -> TVector3 -> R.
Variable TMath_Cos : R -> R.
Local Abbreviation solve_ := (solve p4_E p4_Beta p4_Angle TMath_Cos).

(** The two roots over a positive [c = 1 - b*b]. *)
Lemma roots_over_c (a b : R) :
  (0 <= a * a + b * b - 1)%R ->
  let s := sqrt (a * a + b * b - 1) in
  root_p a b = ((a + Rabs b * s) / (1 - b * b))%R
  /\ root_m a b = ((a - Rabs b * s) / (1 - b * b))%R
  /\ (0 <= s)%R /\ (s * s = a * a + b * b - 1)%R.
Proof.
  intros Hrad s. unfold root_p, root_m. cbn [frac dadd dsub dmul ddiv dsqrt dabs ideal].
  replace (IZR 1 / IZR 1)%R with 1%R by lra. fold s.
  repeat split; try reflexivity.
  - apply sqrt_pos.
  - apply sqrt_sqrt. exact Hrad.
Qed.

(** The on-shell relation.  For a massive daughter ([M >= 1e-03]) and a
    parent slower than light ([b*b < 1]), whenever [solve] does not reject,
    the energy it returns is [g * M] with [g >= 1] a solution of the
    relation itself, [g - b * sqrt(g*g - 1) = a] -- not only of its square,
    which both roots of the quadratic solve: the selection by the sign of
    [b] and of the discriminant keeps the root with the right sign, and when
    the discriminant is negative both roots have it. *)
Theorem solve_massive_on_shell
        (p4_w : LV) (DM2 M : R) (e_b : TVector3) (target : R) :
  (1 / 1000 <= M)%R ->
  let a := massive_a p4_E p4_w DM2 M in
  let b := massive_b p4_Beta p4_Angle TMath_Cos p4_w e_b in
  (b * b < 1)%R ->
  snd (solve_ p4_w DM2 M e_b target 0%Z) <> (-1)%Z ->
  exists g : R,
    (1 <= g)%R
    /\ (g - b * sqrt (g * g - 1) = a)%R
    /\ forall accept : Z,
        solve_ p4_w DM2 M e_b target accept = ((g * M)%R, accept).
Proof.
  intros HM a b Hb Hacc.
  assert (HMf : dlt M (frac 1 1000) = false) by (apply Rltb_false; cbn; lra).
  rewrite (solve_massive (H := ideal) p4_E p4_Beta p4_Angle TMath_Cos
                         p4_w DM2 M e_b target 0%Z HMf) in Hacc.
  assert (Hall : forall accept,
             solve_ p4_w DM2 M e_b target accept = _)
    by (intros accept;
        exact (solve_massive (H := ideal) p4_E p4_Beta p4_Angle TMath_Cos
                             p4_w DM2 M e_b target accept HMf)).
  fold a b in Hacc, Hall.
  cbn [dlt dmul ideal] in Hacc, Hall.
  replace (frac (D := R) 1 1) with 1%R in Hacc, Hall by (cbn; lra).
  replace (frac (D := R) 0 1) with 0%R in Hacc, Hall by (cbn; lra).
  cbn [dadd dsub dmul ideal] in Hacc, Hall.
  destruct (Rltb (a * a + b * b - 1) 0) eqn:Hrad;
    [exfalso; apply Hacc; reflexivity|].
  real_cmp Hrad.
  destruct (roots_over_c a b Hrad) as (HP & HQ & Hs0 & Hss).
  set (s := sqrt (a * a + b * b - 1)) in *.
  set (c := (1 - b * b)%R) in *.
  assert (Hc : (0 < c)%R) by (unfold c; lra).
  assert (Hcdef : c = (1 - b * b)%R) by reflexivity.
  destruct (Rltb (root_p a b) 1) eqn:Hp;
    [exfalso; apply Hacc; reflexivity|].
  real_cmp Hp.
  assert (Habs : (Rabs b * Rabs b = b * b)%R).
  { unfold Rabs. destruct (Rcase_abs b); ring. }
  assert (Habs0 : (0 <= Rabs b)%R) by apply Rabs_pos.
  (* the numerator of the larger root is at least c *)
  assert (HPc : (c <= a + Rabs b * s)%R).
  { rewrite HP in Hp. unfold Rdiv in Hp.
    assert (Hi : (0 < / c)%R) by (apply Rinv_0_lt_compat; exact Hc).
    assert (Hm : (1 * c <= (a + Rabs b * s) * / c * c)%R)
      by (apply Rmult_le_compat_r; lra).
    rewrite Rmult_assoc, Rinv_l in Hm by lra. lra. }
  (* hence a is positive *)
  assert (Ha : (0 < a)%R).
  { destruct (Rlt_le_dec 0 a) as [Hlt | Hle]; [exact Hlt | exfalso].
    assert (H1 : (0 <= c - a)%R) by lra.
    assert (H2 : (c - a <= Rabs b * s)%R) by lra.
    assert (H3 : ((c - a) * (c - a) <= (Rabs b * s) * (Rabs b * s))%R)
      by (apply Rmult_le_compat; lra).
    assert (H4 : ((Rabs b * s) * (Rabs b * s) = (1 - c) * (a * a - c))%R).
    { replace ((Rabs b * s) * (Rabs b * s))%R
        with ((Rabs b * Rabs b) * (s * s))%R by ring.
      rewrite Habs, Hss. unfold c. ring. }
    rewrite H4 in H3.
    assert (H5 : (c * ((a - 1) * (a - 1)) <= 0)%R) by nra.
    assert (H6 : (0 < (a - 1) * (a - 1))%R) by nra.
    nra. }
  assert (Hdisc : discriminant a b = (a * a + b * b - a * a * (b * b) - 1)%R)
    by (unfold discriminant; cbn; lra).
  rewrite Hdisc in Hacc, Hall.
  destruct (Rltb 0 b) eqn:Hbpos.
  - (* b > 0 *)
    real_cmp Hbpos.
    assert (Hab : Rabs b = b) by (apply Rabs_pos_eq; lra).
    rewrite Hab in HP, HQ.
    assert (Hrel_p : (root_p a b - b * sqrt (root_p a b * root_p a b - 1) = a)%R).
    { apply (root_solves_relation a b b s c); auto; nra. }
    destruct (Rltb (a * a + b * b - a * a * (b * b) - 1) 0) eqn:Hd.
    + real_cmp Hd.
      destruct (Rltb (root_m a b) 1) eqn:Hm.
      * (* the smaller root is replaced by the larger *)
        exists (root_p a b). repeat split; auto.
        intros accept. rewrite Hall.
        match goal with
        | |- context [if ?t then _ else _] => destruct t
        end; reflexivity.
      * real_cmp Hm.
        assert (Hrel_m :
                  (root_m a b - b * sqrt (root_m a b * root_m a b - 1) = a)%R).
        { apply (root_solves_relation a b b (- s)%R c); auto.
          - nra.
          - rewrite HQ. f_equal. ring.
          - assert (Hsq : (s * s <= (a * b) * (a * b))%R) by nra.
            assert (H0 : (0 <= a * b)%R) by nra.
            pose proof (le_of_squares (a * b) s H0 Hs0 Hsq). lra. }
        destruct (Rltb (dabs (target - root_p a b)%R)
                       (dabs (target - root_m a b)%R)) eqn:Ht.
        -- exists (root_p a b). repeat split; auto.
        -- exists (root_m a b). repeat split; auto.
    + exists (root_p a b). repeat split; auto.
  - (* b <= 0 *)
    real_cmp Hbpos.
    assert (Hab : Rabs b = (- b)%R).
    { unfold Rabs. destruct (Rcase_abs b); lra. }
    rewrite Hab in HP, HQ, HPc.
    destruct (Rltb 0 (a * a + b * b - a * a * (b * b) - 1)) eqn:Hd;
      [|exfalso; apply Hacc; reflexivity].
    real_cmp Hd.
    assert (Ha1 : (1 < a)%R).
    { assert (Hf : (0 < (a * a - 1) * c)%R) by (unfold c; lra).
      assert (Ha2 : (1 < a * a)%R) by nra. nra. }
    (* the smaller root is at least 1: it is not replaced *)
    assert (Hbs : (- b * s <= a - c)%R).
    { apply le_of_squares.
      - unfold c. nra.
      - nra.
      - replace ((- b * s) * (- b * s))%R with ((b * b) * (s * s))%R by ring.
        rewrite Hss.
        assert (Hid : ((a - c) * (a - c) - b * b * (a * a + b * b - 1)
                       = (a - 1) * (a - 1) * c)%R) by (unfold c; ring).
        assert (Hnn : (0 <= (a - 1) * (a - 1) * c)%R)
          by (apply Rmult_le_pos; [nra | lra]).
        lra. }
    assert (Hm1 : (1 <= root_m a b)%R).
    { rewrite HQ. unfold Rdiv.
      assert (Hi : (0 < / c)%R) by (apply Rinv_0_lt_compat; exact Hc).
      assert (Hm : (c * / c <= (a - - b * s) * / c)%R)
        by (apply Rmult_le_compat_r; lra).
      rewrite Rinv_r in Hm by lra. exact Hm. }
    assert (Hmf : Rltb (root_m a b) 1 = false) by (apply Rltb_false; exact Hm1).
    rewrite Hmf in Hall.
    exists (root_m a b). repeat split; auto.
    apply (root_solves_relation a b b s c); auto.
    + rewrite HQ. f_equal. ring.
    + assert (Hsq : ((- (a * b)) * (- (a * b)) <= s * s)%R) by nra.
      assert (H0 : (0 <= - (a * b))%R) by nra.
      pose proof (le_of_squares s (- (a * b))%R Hs0 H0 Hsq). lra.
Qed.

(** The order of the roots, as the comment of [solve] has it: for a parent
    slower than light the root [g_m] is the smaller one, so "remove
    unphysical root" replaces the smaller root by the larger. *)
Lemma root_m_le_root_p (a b : R) :
  (b * b < 1)%R -> (0 <= a * a + b * b - 1)%R ->
  (root_m a b <= root_p a b)%R.
Proof.
  intros Hb Hrad.
  destruct (roots_over_c a b Hrad) as (HP & HQ & Hs0 & _).
  rewrite HP, HQ. unfold Rdiv.
  apply Rmult_le_compat_r.
  - left. apply Rinv_0_lt_compat. lra.
  - pose proof (Rabs_pos b). nra.
Qed.

End SolveOnShell.

(** The on-shell relation at the boosted parent: there the discriminant is
    negative and the root returned is [349/180]. *)
Lemma solve_massive_on_shell_witness :
  (1 / 1000 <= 10)%R
  /\ (4 / 5 * (4 / 5) < 1)%R
  /\ exists g : R,
      (1 <= g)%R
      /\ (g - massive_b Root.Beta Root.Angle cos parent_x axis_x
              * sqrt (g * g - 1)
          = massive_a (@E R) parent_x (61 / 2)%R 10%R)%R
      /\ Root.solve parent_x (61 / 2)%R 10%R axis_x 15%R 0%Z
         = ((g * 10)%R, 0%Z).
Proof.
  assert (HM : (1 / 1000 <= 10)%R) by lra.
  assert (Hb : (massive_b Root.Beta Root.Angle cos parent_x axis_x
                * massive_b Root.Beta Root.Angle cos parent_x axis_x < 1)%R).
  { unfold massive_b. rewrite Angle_parent_x_axis_x, cos_0, Beta_parent_x.
    cbn. lra. }
  assert (Hacc : snd (Root.solve parent_x (61 / 2)%R 10%R axis_x 15%R 0%Z)
                 <> (-1)%Z)
    by (rewrite solve_boosted_parent; cbn; lia).
  split; [exact HM|]. split; [lra|].
  destruct (solve_massive_on_shell
              (@E R) Root.Beta Root.Angle cos
              parent_x (61 / 2)%R 10%R axis_x 15%R HM Hb Hacc)
    as (g & Hg & Hrel & Hsolve).
  exists g. repeat split; auto.
Defined.


(* ================================================================= *)
(** ** The pruning strategies *)

Section Pruning.
Context {D : Type} `{Double D} {ext : Collaborators D}.
Local Open Scope dbl_scope.

Lemma and_then_Done (a b : Res bool) (r : bool) :
  and_then a b = Done r ->
  exists x, a = Done x
            /\ (x = false -> r = false)
            /\ (x = true -> b = Done r).
Proof.
  unfold and_then. destruct a as [x| |]; cbn; try discriminate.
  intros Hr. exists x. split; [reflexivity|].
  destruct x; split; intros; try discriminate; auto.
  injection Hr as <-. reflexivity.
Qed.

Lemma at_nat_Done {A} (v : list A) (i : nat) (a : A) :
  at_nat v i = Done a <-> nth_error v i = Some a.
Proof.
  unfold at_nat. destruct (nth_error v i); split; intros Hq;
    try discriminate; congruence.
Qed.

Lemma at_int_Done {A} (v : list A) (i : Z) (a : A) :
  at_int v i = Done a <-> (0 <= i)%Z /\ nth_error v (Z.to_nat i) = Some a.
Proof.
  unfold at_int. destruct (Z.ltb_spec i 0).
  - split; [discriminate | intros [Hi _]; lia].
  - rewrite at_nat_Done. split; [auto | tauto].
Qed.

(** One round of the loops of [BTagged] and [QUntagged]: the test of the
    [if] holds exactly when the position holds a tagged jet. *)
Lemma btag_discard_round (cut : D -> bool) (st : Integrand D)
      (perm : list Z) (ind : nat) (hit : bool) :
  and_then (j <- at_nat perm ind ;; Done (0 <=? j)%Z)
           (and_then (j <- at_nat perm ind ;; obj <- at_int (obs_jets st) j ;;
                      Done (isSet obj Observable.BTAG))
                     (j <- at_nat perm ind ;; obj <- at_int (obs_jets st) j ;;
                      v <- getObs obj Observable.BTAG ;; Done (cut v)))
  = Done hit ->
  (hit = true <-> tagged cut st perm ind).
Proof.
  intros Hhit.
  apply and_then_Done in Hhit. destruct Hhit as (x & Hx & Hxf & Hxt).
  destruct (at_nat perm ind) as [j| |] eqn:Hj; cbn [bind] in Hx;
    try discriminate.
  injection Hx as Hx. apply at_nat_Done in Hj.
  destruct x.
  2:{ rewrite (Hxf eq_refl). split; [discriminate|].
      intros (j' & obj & v & Hj' & Hpos & _).
      rewrite Hj in Hj'. injection Hj' as <-.
      apply Z.leb_gt in Hx. lia. }
  apply Z.leb_le in Hx.
  specialize (Hxt eq_refl). cbn [bind] in Hxt.
  apply and_then_Done in Hxt. destruct Hxt as (y & Hy & Hyf & Hyt).
  destruct (at_int (obs_jets st) j) as [obj| |] eqn:Hobj; cbn [bind] in Hy;
    try discriminate.
  injection Hy as Hy. apply at_int_Done in Hobj. destruct Hobj as [_ Hobj].
  unfold isSet in Hy. unfold getObs in Hyt. cbn [bind] in Hyt.
  destruct (find_obs (obs obj) Observable.BTAG) as [v|] eqn:Hv.
  - subst y. specialize (Hyt eq_refl). cbn [bind] in Hyt.
    injection Hyt as Hyt. split.
    + intros ->. exists j, obj, v. auto.
    + intros (j' & obj' & v' & Hj' & _ & Hobj' & Hv' & Hcut).
      rewrite Hj in Hj'. injection Hj' as <-.
      rewrite Hobj in Hobj'. injection Hobj' as <-.
      rewrite Hv in Hv'. injection Hv' as <-.
      congruence.
  - subst y. rewrite (Hyf eq_refl). split; [discriminate|].
    intros (j' & obj' & v' & Hj' & _ & Hobj' & Hv' & _).
    rewrite Hj in Hj'. injection Hj' as <-.
    rewrite Hobj in Hobj'. injection Hobj' as <-.
    rewrite Hv in Hv'. discriminate.
Qed.

Lemma btag_discard_spec (cut : D -> bool) (st : Integrand D) (perm : list Z) :
  forall (indexes1 : list nat) (d : bool),
    btag_discard cut st perm indexes1 = Done d ->
    (d = true <-> exists ind, In ind indexes1 /\ tagged cut st perm ind).
Proof.
  induction indexes1 as [|ind rest IH]; intros d Hd.
  - injection Hd as <-. split; [discriminate | intros (? & [] & _)].
  - cbn [btag_discard] in Hd.
    apply bind_Done in Hd. destruct Hd as (hit & Hhit & Hd).
    apply btag_discard_round in Hhit.
    destruct hit.
    + injection Hd as <-. split; [|reflexivity].
      intros _. exists ind. split; [left; reflexivity | apply Hhit; reflexivity].
    + apply IH in Hd. rewrite Hd. split.
      * intros (i & Hi & Ht). exists i. split; [right; exact Hi | exact Ht].
      * intros (i & [<- | Hi] & Ht).
        -- apply Hhit in Ht. discriminate.
        -- exists i. auto.
Qed.

Lemma fill_map_jets (lost : list PSVar) (st : Integrand D) :
  obs_jets (fill_map lost st) = obs_jets st
  /\ fs (fill_map lost st) = fs st
  /\ cfg (fill_map lost st) = cfg st.
Proof. unfold fill_map. destruct (fs st) eqn:Hfs; cbn; auto. Qed.

Lemma tagged_same_jets (cut : D -> bool) (st st' : Integrand D)
      (perm : list Z) (ind : nat) :
  obs_jets st' = obs_jets st ->
  tagged cut st' perm ind <-> tagged cut st perm ind.
Proof. intros Hj. unfold tagged. rewrite Hj. tauto. Qed.

(** [BTagged], once [fill_map] has placed the quarks: a permutation is
    discarded exactly when one of the four b quark positions holds a real
    jet whose b-tag is set and below 0.5.  A lost quark ([-1]) and a jet
    without b-tag never discard a permutation. *)
Theorem BTagged_discards_low_tag_at_b_slot
        (lost : list PSVar) (st : Integrand D) (perm : list Z) (ok : bool) :
  fs st = FinalState.LH \/ fs st = FinalState.LL \/ fs st = FinalState.HH ->
  accept_strategy (fill_map lost st) perm Permutations.BTagged = Done ok ->
  (ok = false <->
   exists ind, In ind (b_slots (fs st))
               /\ tagged (fun v => v <? frac 1 2) st perm ind).
Proof.
  intros Hfs Hok.
  assert (Hfind : finds (map_to_part (fill_map lost st))
                        [PSPart.b1; PSPart.b2; PSPart.b; PSPart.bbar]
                  = Done (b_slots (fs st))).
  { unfold fill_map.
    destruct Hfs as [Hf | [Hf | Hf]]; rewrite Hf; reflexivity. }
  unfold accept_strategy in Hok. rewrite Hfind in Hok. cbn [bind] in Hok.
  apply bind_Done in Hok. destruct Hok as (d & Hd & Hok).
  injection Hok as <-.
  apply btag_discard_spec in Hd.
  destruct (fill_map_jets lost st) as (Hjets & _ & _).
  setoid_rewrite (tagged_same_jets _ st (fill_map lost st) perm) in Hd;
    [|exact Hjets].
  rewrite <- Hd. destruct d; cbn; split; congruence.
Qed.

(** [QUntagged]: a permutation is discarded exactly when a light-quark
    position of a hadronic W holds a real jet whose b-tag is set and above
    0.5; with two leptons there is no such position and nothing is
    discarded. *)
Theorem QUntagged_discards_high_tag_at_q_slot
        (lost : list PSVar) (st : Integrand D) (perm : list Z) (ok : bool) :
  fs st = FinalState.LH \/ fs st = FinalState.LL \/ fs st = FinalState.HH ->
  accept_strategy (fill_map lost st) perm Permutations.QUntagged = Done ok ->
  (ok = false <->
   exists ind, In ind (q_slots (fs st))
               /\ tagged (fun v => v >? frac 1 2) st perm ind).
Proof.
  intros Hfs Hok.
  destruct (fill_map_jets lost st) as (Hjets & Hfs' & _).
  unfold accept_strategy in Hok. rewrite Hfs' in Hok.
  assert (Hfind :
            match fs st with
            | FinalState.LH =>
                finds (map_to_part (fill_map lost st)) [PSPart.q1; PSPart.qbar1]
            | FinalState.HH =>
                finds (map_to_part (fill_map lost st))
                      [PSPart.q1; PSPart.qbar1; PSPart.q2; PSPart.qbar2]
            | _ => Done []
            end = Done (q_slots (fs st))).
  { unfold fill_map.
    destruct Hfs as [Hf | [Hf | Hf]]; rewrite Hf; reflexivity. }
  rewrite Hfind in Hok. cbn [bind] in Hok.
  apply bind_Done in Hok. destruct Hok as (d & Hd & Hok).
  injection Hok as <-.
  apply btag_discard_spec in Hd.
  setoid_rewrite (tagged_same_jets _ st (fill_map lost st) perm) in Hd;
    [|exact Hjets].
  rewrite <- Hd. destruct d; cbn; split; congruence.
Qed.

Lemma same_at_Done (visited perm : list Z) (i j : nat) (r : bool) :
  same_at visited perm i j = Done r ->
  (r = true <-> slot_eq visited perm i j)
  /\ (i < length visited)%nat /\ (j < length perm)%nat.
Proof.
  unfold same_at, slot_eq. intros Hr.
  apply bind_Done in Hr. destruct Hr as (v & Hv & Hr).
  apply bind_Done in Hr. destruct Hr as (w & Hw & Hr).
  injection Hr as <-.
  apply at_nat_Done in Hv. apply at_nat_Done in Hw.
  split; [|split; apply nth_error_Some; congruence].
  split.
  - intros Heq. apply Z.eqb_eq in Heq. subst w. exists v. auto.
  - intros (z & Hz & Hz'). apply Z.eqb_eq. congruence.
Qed.

Lemma same_at_defined (visited perm : list Z) (i j : nat) :
  (i < length visited)%nat -> (j < length perm)%nat ->
  exists r, same_at visited perm i j = Done r.
Proof.
  intros Hi Hj. unfold same_at, at_nat.
  apply nth_error_Some in Hi. apply nth_error_Some in Hj.
  destruct (nth_error visited i); [|congruence].
  destruct (nth_error perm j); [|congruence].
  cbn. eauto.
Qed.

Lemma both_same_at (visited perm : list Z) (i j k l : nat) (r : bool) :
  and_then (same_at visited perm i j) (same_at visited perm k l) = Done r ->
  (r = true <-> slot_eq visited perm i j /\ slot_eq visited perm k l).
Proof.
  intros Hr. apply and_then_Done in Hr. destruct Hr as (x & Hx & Hxf & Hxt).
  apply same_at_Done in Hx. destruct Hx as (Hx & _).
  destruct x.
  - specialize (Hxt eq_refl). apply same_at_Done in Hxt.
    destruct Hxt as (Hxt & _). rewrite Hxt.
    split; [intros Hs; split; [apply Hx; reflexivity | exact Hs] | tauto].
  - rewrite (Hxf eq_refl). split; [discriminate|].
    intros [Hs _]. apply Hx in Hs. discriminate.
Qed.

Lemma asymmetric_part_spec (visited perm : list Z) :
  forall (indexes2 : list nat) (acc r : bool),
    asymmetric_part visited perm indexes2 acc = Done r ->
    (r = true <->
     acc = true /\ forall k, In k indexes2 -> slot_eq visited perm k k).
Proof.
  induction indexes2 as [|same rest IH]; intros acc r Hr.
  - injection Hr as <-. split; [intros ->; split; [reflexivity | intros ? []]
                                | tauto].
  - cbn [asymmetric_part] in Hr.
    apply bind_Done in Hr. destruct Hr as (eq & Heq & Hr).
    apply same_at_Done in Heq. destruct Heq as (Heq & _).
    apply IH in Hr. rewrite Hr. split.
    + intros [Hacc Hall]. destruct eq; [|discriminate].
      split; [exact Hacc|]. intros k [<- | Hk]; [apply Heq; reflexivity | auto].
    + intros [Hacc Hall].
      assert (He : eq = true) by (apply Heq; apply Hall; left; reflexivity).
      rewrite He. split; [exact Hacc | intros k Hk; apply Hall; right; exact Hk].
Qed.

Lemma pairs_ind (P : list nat -> Prop) :
  P [] -> (forall a, P [a]) ->
  (forall a b rest, P rest -> P (a :: b :: rest)) ->
  forall l, P l.
Proof.
  intros Hnil Hone Hstep l.
  assert (Hboth : P l /\ forall a, P (a :: l)).
  { induction l as [|b l [IHl IHal]]; split; auto. }
  exact (proj1 Hboth).
Qed.

Lemma symmetric_part_spec (visited perm : list Z) :
  forall (indexes1 : list nat) (acc r : bool),
    symmetric_part visited perm indexes1 acc = Done r ->
    (r = true <->
     acc = true
     /\ forall a b, In (a, b) (pairs_of indexes1) ->
          (slot_eq visited perm a a /\ slot_eq visited perm b b)
          \/ (slot_eq visited perm a b /\ slot_eq visited perm b a)).
Proof.
  induction indexes1 as [|a|a b rest IH] using pairs_ind; intros acc r Hr.
  - injection Hr as <-.
    split; [intros ->; split; [reflexivity | intros ? ? []] | tauto].
  - injection Hr as <-.
    split; [intros ->; split; [reflexivity | intros ? ? []] | tauto].
  - cbn [symmetric_part] in Hr.
    apply bind_Done in Hr. destruct Hr as (same & Hsame & Hr).
    apply bind_Done in Hr. destruct Hr as (swap & Hswap & Hr).
    apply both_same_at in Hsame. apply both_same_at in Hswap.
    apply IH in Hr. rewrite Hr. cbn [pairs_of]. split.
    + intros [Hacc Hall].
      destruct (same || swap) eqn:Hor; [|discriminate].
      split; [exact Hacc|].
      intros a' b' [Hab | Hin]; [|auto].
      injection Hab as <- <-.
      apply orb_true_iff in Hor. destruct Hor as [Hs | Hs].
      * left. apply Hsame. exact Hs.
      * right. apply Hswap. exact Hs.
    + intros [Hacc Hall].
      assert (Hor : same || swap = true).
      { apply orb_true_iff.
        destruct (Hall a b (or_introl eq_refl)) as [Hs | Hs].
        - left. apply Hsame. exact Hs.
        - right. apply Hswap. exact Hs. }
      rewrite Hor. split; [exact Hacc|].
      intros a' b' Hin. apply Hall. right. exact Hin.
Qed.

Lemma swap_found_spec (perm : list Z) (indexes1 indexes2 : list nat) :
  forall (visiteds : list (list Z)) (d : bool),
    swap_found visiteds perm indexes1 indexes2 = Done d ->
    (d = true <->
     exists visited, In visited visiteds
                     /\ swapped_copy indexes1 indexes2 visited perm).
Proof.
  induction visiteds as [|visited rest IH]; intros d Hd.
  - injection Hd as <-. split; [discriminate | intros (? & [] & _)].
  - cbn [swap_found] in Hd.
    apply bind_Done in Hd. destruct Hd as (asym & Hasym & Hd).
    apply bind_Done in Hd. destruct Hd as (sym & Hsym & Hd).
    apply asymmetric_part_spec in Hasym. apply symmetric_part_spec in Hsym.
    assert (Hcopy : asym && sym = true
                    <-> swapped_copy indexes1 indexes2 visited perm).
    { unfold swapped_copy. rewrite andb_true_iff, Hasym, Hsym. tauto. }
    destruct (asym && sym).
    + injection Hd as <-. split; [|reflexivity].
      intros _. exists visited. split; [left; reflexivity|].
      apply Hcopy. reflexivity.
    + apply IH in Hd. rewrite Hd. split.
      * intros (v & Hv & Hc). exists v. split; [right; exact Hv | exact Hc].
      * intros (v & [<- | Hv] & Hc).
        -- apply Hcopy in Hc. discriminate.
        -- exists v. auto.
Qed.

(** The positions each symmetry strategy reads from the map of [fill_map]. *)
Lemma symmetry_indexes (m : list (PSPart.PSPart * nat))
      (f : FinalState.FinalState) (s : Permutations.Permutations)
      (lost : list PSVar) (st : Integrand D) :
  fs st = f -> m = map_to_part (fill_map lost st) ->
  f = FinalState.LH \/ f = FinalState.LL \/ f = FinalState.HH ->
  s = Permutations.QQbarSymmetry \/ s = Permutations.BBbarSymmetry ->
  (let bb :=
     match s with
     | Permutations.BBbarSymmetry => [PSPart.b; PSPart.bbar]
     | _ => []
     end in
   match f with
   | FinalState.LH =>
       i1 <- finds m ([PSPart.q1; PSPart.qbar1] ++ bb) ;;
       i2 <- finds m [PSPart.b1; PSPart.b2] ;; Done (i1, i2)
   | FinalState.LL =>
       i1 <- finds m bb ;;
       i2 <- finds m [PSPart.b1; PSPart.b2] ;; Done (i1, i2)
   | FinalState.HH =>
       i1 <- finds m ([PSPart.q1; PSPart.qbar1; PSPart.q2; PSPart.qbar2]
                      ++ bb) ;;
       i2 <- finds m [PSPart.b1; PSPart.b2] ;; Done (i1, i2)
   | _ => Done ([], [])
   end) = Done (symmetric_slots f s, asymmetric_slots f).
Proof.
  intros Hfs -> Hf Hs. unfold fill_map. rewrite Hfs.
  destruct Hf as [-> | [-> | ->]]; destruct Hs as [-> | ->]; reflexivity.
Qed.

(** A symmetry strategy on a state whose map is the one of [fill_map]. *)
Lemma symmetry_strategy_spec
      (lost : list PSVar) (st0 st : Integrand D) (perm : list Z)
      (s : Permutations.Permutations) (ok : bool) :
  fs st = fs st0 ->
  map_to_part st = map_to_part (fill_map lost st0) ->
  fs st0 = FinalState.LH \/ fs st0 = FinalState.LL \/ fs st0 = FinalState.HH ->
  s = Permutations.QQbarSymmetry \/ s = Permutations.BBbarSymmetry ->
  accept_strategy st perm s = Done ok ->
  (ok = false <->
   exists visited,
     In visited (perm_indexes_assumption st)
     /\ swapped_copy (symmetric_slots (fs st0) s) (asymmetric_slots (fs st0))
                     visited perm).
Proof.
  intros Hfs Hmap Hf Hs Hok.
  pose proof (symmetry_indexes (map_to_part st) (fs st0) s lost st0
                               eq_refl Hmap Hf Hs) as Hidx.
  cbv zeta in Hidx.
  assert (Hsw : exists d,
             swap_found (perm_indexes_assumption st) perm
                        (symmetric_slots (fs st0) s) (asymmetric_slots (fs st0))
             = Done d /\ ok = negb d).
  { unfold accept_strategy in Hok. rewrite Hfs in Hok.
    destruct Hs as [-> | ->]; rewrite Hidx in Hok; cbn [bind] in Hok;
      apply bind_Done in Hok; destruct Hok as (d & Hd & Hok);
      injection Hok as <-; exists d; auto. }
  destruct Hsw as (d & Hd & ->).
  apply swap_found_spec in Hd. rewrite <- Hd.
  destruct d; cbn; split; congruence.
Qed.

End Pruning.

Section PruningLoop.
Context {D : Type} `{Double D} {ext : Collaborators D}.
Local Open Scope dbl_scope.

Lemma accept_perm_all (st : Integrand D) (perm : list Z) :
  forall strategies,
    accept_perm st perm strategies = Done true ->
    forall s, In s strategies -> accept_strategy st perm s = Done true.
Proof.
  induction strategies as [|s0 rest IH]; intros Hacc s Hin; [destruct Hin|].
  cbn [accept_perm] in Hacc.
  apply bind_Done in Hacc. destruct Hacc as (ok & Hok & Hacc).
  destruct ok; [|discriminate].
  destruct Hin as [<- | Hin]; [exact Hok | apply IH; assumption].
Qed.

(** What the loop of [make_assumption] leaves alone. *)
Lemma remove_unwanted_frame (lost : list PSVar) :
  forall (perms : list (list Z)) (st st' : Integrand D),
    remove_unwanted lost perms st = Done st' ->
    fs st' = fs st /\ map_to_part st' = map_to_part st /\ cfg st' = cfg st
    /\ obs_jets st' = obs_jets st /\ hypo st' = hypo st.
Proof.
  induction perms as [|raw perms IH]; intros st st' Hrun.
  - injection Hrun as <-. auto.
  - cbn [remove_unwanted] in Hrun.
    apply bind_Done in Hrun. destruct Hrun as (perm & _ & Hrun).
    destruct (negb _); [apply IH; exact Hrun|].
    apply bind_Done in Hrun. destruct Hrun as (ok & _ & Hrun).
    destruct (negb ok); [apply IH; exact Hrun|].
    apply bind_Done in Hrun. destruct Hrun as (k & _ & Hrun).
    apply IH in Hrun. exact Hrun.
Qed.

Lemma no_swapped_copies_app (indexes1 indexes2 : list nat) (p : list Z) :
  forall perms,
    no_swapped_copies indexes1 indexes2 perms ->
    (forall v, In v perms -> ~ swapped_copy indexes1 indexes2 v p) ->
    no_swapped_copies indexes1 indexes2 (perms ++ [p]).
Proof.
  induction perms as [|v perms IH]; intros Hno Hp; cbn.
  - split; [exact I | intros ? []].
  - destruct Hno as [Hno Hv]. split.
    + apply IH; [exact Hno | intros w Hw; apply Hp; right; exact Hw].
    + intros q Hq. apply in_app_or in Hq. destruct Hq as [Hq | [<- | []]].
      * apply Hv. exact Hq.
      * apply Hp. left. reflexivity.
Qed.

(** A permutation compared with itself: both parts hold whenever the
    comparison is defined. *)
Lemma asymmetric_part_self (perm : list Z) :
  forall (indexes2 : list nat) (acc r : bool),
    asymmetric_part perm perm indexes2 acc = Done r -> r = acc.
Proof.
  induction indexes2 as [|same rest IH]; intros acc r Hr.
  - injection Hr as <-. reflexivity.
  - cbn [asymmetric_part] in Hr.
    apply bind_Done in Hr. destruct Hr as (eq & Heq & Hr).
    unfold same_at in Heq.
    destruct (at_nat perm same) as [v| |]; cbn [bind] in Heq; try discriminate.
    injection Heq as <-. rewrite Z.eqb_refl in Hr. exact (IH _ _ Hr).
Qed.

Lemma symmetric_part_self (perm : list Z) :
  forall (indexes1 : list nat) (acc r : bool),
    symmetric_part perm perm indexes1 acc = Done r -> r = acc.
Proof.
  induction indexes1 as [|a|a b rest IH] using pairs_ind; intros acc r Hr;
    try (injection Hr as <-; reflexivity).
  cbn [symmetric_part] in Hr.
  apply bind_Done in Hr. destruct Hr as (same & Hsame & Hr).
  apply bind_Done in Hr. destruct Hr as (swap & _ & Hr).
  assert (Hs : same = true).
  { unfold and_then, same_at in Hsame.
    destruct (at_nat perm a) as [v| |]; cbn [bind] in Hsame; try discriminate.
    rewrite Z.eqb_refl in Hsame.
    destruct (at_nat perm b) as [w| |]; cbn [bind] in Hsame; try discriminate.
    rewrite Z.eqb_refl in Hsame. injection Hsame as <-. reflexivity. }
  rewrite Hs in Hr. cbn [orb] in Hr. exact (IH _ _ Hr).
Qed.

Lemma swap_found_self (perm : list Z) (indexes1 indexes2 : list nat) :
  forall (visiteds : list (list Z)) (d : bool),
    swap_found visiteds perm indexes1 indexes2 = Done d ->
    In perm visiteds -> d = true.
Proof.
  induction visiteds as [|visited rest IH]; intros d Hd Hin; [destruct Hin|].
  cbn [swap_found] in Hd.
  apply bind_Done in Hd. destruct Hd as (asym & Hasym & Hd).
  apply bind_Done in Hd. destruct Hd as (sym & Hsym & Hd).
  destruct (asym && sym) eqn:Hboth; [injection Hd as <-; reflexivity|].
  destruct Hin as [-> | Hin]; [|exact (IH _ Hd Hin)].
  apply asymmetric_part_self in Hasym. apply symmetric_part_self in Hsym.
  subst. discriminate.
Qed.

(** The indexes a symmetry strategy compares, whatever the final state and
    the map: a permutation that is already kept is discarded. *)
Lemma symmetry_strategy_self (st : Integrand D) (perm : list Z)
      (s : Permutations.Permutations) (ok : bool) :
  s = Permutations.QQbarSymmetry \/ s = Permutations.BBbarSymmetry ->
  accept_strategy st perm s = Done ok ->
  In perm (perm_indexes_assumption st) -> ok = false.
Proof.
  intros Hs Hok Hin. unfold accept_strategy in Hok.
  destruct Hs as [-> | ->];
    apply bind_Done in Hok; destruct Hok as ([i1 i2] & _ & Hok);
    apply bind_Done in Hok; destruct Hok as (d & Hd & Hok);
    injection Hok as <-;
    rewrite (swap_found_self _ _ _ _ _ Hd Hin); reflexivity.
Qed.

Lemma remove_unwanted_no_swapped_copies
      (lost : list PSVar) (st0 : Integrand D) (s : Permutations.Permutations) :
  fs st0 = FinalState.LH \/ fs st0 = FinalState.LL \/ fs st0 = FinalState.HH ->
  s = Permutations.QQbarSymmetry \/ s = Permutations.BBbarSymmetry ->
  forall (perms : list (list Z)) (st st' : Integrand D),
    fs st = fs st0 ->
    map_to_part st = map_to_part (fill_map lost st0) ->
    In s (perm_pruning (cfg st)) ->
    remove_unwanted lost perms st = Done st' ->
    no_swapped_copies (symmetric_slots (fs st0) s) (asymmetric_slots (fs st0))
                      (perm_indexes_assumption st) ->
    no_swapped_copies (symmetric_slots (fs st0) s) (asymmetric_slots (fs st0))
                      (perm_indexes_assumption st').
Proof.
  intros Hf Hs.
  induction perms as [|raw perms IH]; intros st st' Hfs Hmap Hin Hrun Hno.
  - injection Hrun as <-. exact Hno.
  - cbn [remove_unwanted] in Hrun.
    apply bind_Done in Hrun. destruct Hrun as (perm & _ & Hrun).
    destruct (negb _); [exact (IH _ _ Hfs Hmap Hin Hrun Hno)|].
    apply bind_Done in Hrun. destruct Hrun as (ok & Hok & Hrun).
    destruct ok; cbn [negb] in Hrun; [|exact (IH _ _ Hfs Hmap Hin Hrun Hno)].
    apply bind_Done in Hrun. destruct Hrun as (k & _ & Hrun).
    apply (IH (push_back_assumption st perm k) st' Hfs Hmap Hin Hrun).
    cbn. apply no_swapped_copies_app; [exact Hno|].
    intros v Hv Hcopy.
    pose proof (accept_perm_all _ _ _ Hok s Hin) as Hacc.
    pose proof (symmetry_strategy_spec lost st0 st perm s true
                                       Hfs Hmap Hf Hs Hacc) as Hspec.
    assert (Hfalse : true = false) by (apply Hspec; exists v; auto).
    discriminate.
Qed.

Lemma remove_unwanted_NoDup
      (lost : list PSVar) (s : Permutations.Permutations) :
  s = Permutations.QQbarSymmetry \/ s = Permutations.BBbarSymmetry ->
  forall (perms : list (list Z)) (st st' : Integrand D),
    In s (perm_pruning (cfg st)) ->
    remove_unwanted lost perms st = Done st' ->
    NoDup (perm_indexes_assumption st) ->
    NoDup (perm_indexes_assumption st').
Proof.
  intros Hs.
  induction perms as [|raw perms IH]; intros st st' Hin Hrun Hno.
  - injection Hrun as <-. exact Hno.
  - cbn [remove_unwanted] in Hrun.
    apply bind_Done in Hrun. destruct Hrun as (perm & _ & Hrun).
    destruct (negb _); [exact (IH _ _ Hin Hrun Hno)|].
    apply bind_Done in Hrun. destruct Hrun as (ok & Hok & Hrun).
    destruct ok; cbn [negb] in Hrun; [|exact (IH _ _ Hin Hrun Hno)].
    apply bind_Done in Hrun. destruct Hrun as (k & _ & Hrun).
    apply (IH (push_back_assumption st perm k) st' Hin Hrun).
    cbn. apply NoDup_app;
      [exact Hno | constructor; [intros [] | constructor] |].
    intros v Hv [Heq | []]. subst v.
    pose proof (accept_perm_all _ _ _ Hok s Hin) as Hacc.
    pose proof (symmetry_strategy_self st perm s true Hs Hacc Hv).
    discriminate.
Qed.

(** The per-permutation integration changes [this_perm], the counters,
    [error_code] and the log only. *)
Lemma integrate_per_perm_frame (xL xU : list D) :
  forall fuel n_perm acc st acc' st',
    integrate_per_perm fuel xL xU n_perm acc st = Done (acc', st') ->
    perm_indexes_assumption st' = perm_indexes_assumption st
    /\ perm_const_assumption st' = perm_const_assumption st
    /\ cfg st' = cfg st /\ fs st' = fs st /\ hypo st' = hypo st
    /\ n_max_calls st' = n_max_calls st /\ obs_jets st' = obs_jets st.
Proof.
  induction fuel as [|fuel IH]; intros n_perm acc st acc' st' Hi.
  - injection Hi as _ <-. repeat split.
  - cbn [integrate_per_perm] in Hi.
    destruct (n_perm <? _)%nat.
    2:{ injection Hi as _ <-. repeat split. }
    destruct acc as [[prob err2] chi2].
    destruct (Integral _ _) as [[[[n_prob err] chisqr] st1]| |] eqn:Hint;
      cbn [bind] in Hi; try discriminate.
    apply Integral_same_event in Hint.
    destruct (IH _ _ _ _ _ Hi) as (H1 & H2 & H3 & H4 & H5 & H6 & H7).
    destruct Hint as (Hc & _ & _ & _ & _ & Hf & Hh & Hn & _ & Hj & _ & _ & _
                      & Hpa & Hpc & _).
    cbn in Hc, Hf, Hh, Hn, Hj, Hpa, Hpc. repeat split; congruence.
Qed.

Lemma fill_map_frame (lost : list PSVar) (st : Integrand D) :
  fs (fill_map lost st) = fs st /\ cfg (fill_map lost st) = cfg st
  /\ obs_jets (fill_map lost st) = obs_jets st
  /\ perm_const_assumption (fill_map lost st) = perm_const_assumption st
  /\ hypo (fill_map lost st) = hypo st.
Proof. unfold fill_map. destruct (fs st) eqn:Hfs; cbn; auto 6. Qed.

Lemma fill_map_map (lost : list PSVar) (st st2 : Integrand D) :
  fs st2 = fs st -> map_to_part st2 = map_to_part st ->
  map_to_part (fill_map lost st2) = map_to_part (fill_map lost st).
Proof.
  intros Hfs Hmap. unfold fill_map. rewrite Hfs.
  destruct (fs st); cbn; rewrite ?Hmap; reflexivity.
Qed.

(** The permutations [make_assumption] leaves are those of its loop. *)
Lemma make_assumption_kept
      (lost : list PSVar) (out out' : MEMOutput D) (st st' : Integrand D) :
  (naive_jet_counting st <= length (obs_jets st) + length lost / 2)%nat ->
  make_assumption lost out st = Done (out', st') ->
  exists s0 st1 : Integrand D,
    remove_unwanted lost (perm_indexes st) s0 = Done st1
    /\ perm_indexes_assumption s0 = []
    /\ map_to_part s0 = map_to_part (fill_map lost st)
    /\ fs s0 = fs st /\ cfg s0 = cfg st /\ obs_jets s0 = obs_jets st
    /\ perm_const_assumption s0 = perm_const_assumption st
    /\ hypo s0 = hypo st
    /\ perm_indexes_assumption st' = perm_indexes_assumption st1
    /\ perm_const_assumption st' = perm_const_assumption st1.
Proof.
  intros Hjets Hmake.
  unfold make_assumption, test_assumption in Hmake.
  apply Nat.ltb_ge in Hjets. rewrite Hjets in Hmake. cbn [negb] in Hmake.
  match type of Hmake with
  | bind (remove_unwanted _ ?ps ?s0) _ = _ =>
      destruct (remove_unwanted lost ps s0) as [st1| |] eqn:Hrm;
      cbn [bind] in Hmake; try discriminate;
      assert (Hps : ps = perm_indexes st)
        by (rewrite (proj1 (fill_map_perms _ _)); reflexivity);
      exists s0, st1
  end.
  rewrite Hps in Hrm.
  split; [exact Hrm|].
  split; [rewrite (proj2 (fill_map_perms _ _)); reflexivity|].
  split; [apply fill_map_map; reflexivity|].
  match goal with
  | |- context [fill_map lost ?s] =>
      destruct (fill_map_frame lost s) as (Hf1 & Hf2 & Hf3 & Hf4 & Hf5)
  end.
  split; [rewrite Hf1; reflexivity|].
  split; [rewrite Hf2; reflexivity|].
  split; [rewrite Hf3; reflexivity|].
  split; [rewrite Hf4; reflexivity|].
  split; [rewrite Hf5; reflexivity|].
  destruct (get_edges st1 lost _ false) as [xL| |]; cbn [bind] in Hmake;
    try discriminate.
  destruct (get_edges st1 lost _ true) as [xU| |]; cbn [bind] in Hmake;
    try discriminate.
  destruct (get_width xL xU _) as [volume| |]; cbn [bind] in Hmake;
    try discriminate.
  destruct (perm_int (cfg st1)) eqn:Hpi.
  - destruct (integrate_per_perm _ xL xU 0 _ st1)
      as [[[[prob err2] chi2] st2]| |] eqn:Hint;
      cbn [bind] in Hmake; try discriminate.
    apply integrate_per_perm_frame in Hint. destruct Hint as (Hpa & Hpc & _).
    destruct (perm_int (cfg st2)); cbn [negb bind] in Hmake.
    + injection Hmake as _ <-. auto.
    + destruct (Integral _ _) as [[[[i err] chisqr] st3]| |] eqn:Hi3;
        cbn [bind] in Hmake; try discriminate.
      apply Integral_same_event in Hi3.
      destruct Hi3 as (_ & _ & _ & _ & _ & _ & _ & _ & _ & _ & _ & _ & _
                       & Hpa3 & Hpc3 & _).
      cbn in Hpa3, Hpc3. injection Hmake as _ <-.
      rewrite Hpa3, Hpc3. auto.
  - cbn [bind] in Hmake. rewrite Hpi in Hmake. cbn [negb] in Hmake.
    destruct (Integral _ _) as [[[[i err] chisqr] st3]| |] eqn:Hi3;
      cbn [bind] in Hmake; try discriminate.
    apply Integral_same_event in Hi3.
    destruct Hi3 as (_ & _ & _ & _ & _ & _ & _ & _ & _ & _ & _ & _ & _
                     & Hpa3 & Hpc3 & _).
    cbn in Hpa3, Hpc3. injection Hmake as _ <-. auto.
Qed.

(** With a symmetry strategy among [cfg.perm_pruning], the permutations
    [make_assumption] keeps contain no permutation twice, and none that
    repeats an earlier one up to an exchange inside the pairs that the
    strategy compares. *)
Theorem make_assumption_keeps_no_swapped_copy
        (lost : list PSVar) (out out' : MEMOutput D) (st st' : Integrand D)
        (s : Permutations.Permutations) :
  (naive_jet_counting st <= length (obs_jets st) + length lost / 2)%nat ->
  fs st = FinalState.LH \/ fs st = FinalState.LL \/ fs st = FinalState.HH ->
  s = Permutations.QQbarSymmetry \/ s = Permutations.BBbarSymmetry ->
  In s (perm_pruning (cfg st)) ->
  make_assumption lost out st = Done (out', st') ->
  NoDup (perm_indexes_assumption st')
  /\ no_swapped_copies (symmetric_slots (fs st) s) (asymmetric_slots (fs st))
                       (perm_indexes_assumption st').
Proof.
  intros Hjets Hf Hs Hin Hmake.
  destruct (make_assumption_kept _ _ _ _ _ Hjets Hmake)
    as (s0 & st1 & Hrm & Hnil & Hmap & Hfs & Hcfg & _ & _ & _ & -> & _).
  rewrite <- Hcfg in Hin. split.
  - apply (remove_unwanted_NoDup lost s Hs _ _ _ Hin Hrm).
    rewrite Hnil. constructor.
  - apply (remove_unwanted_no_swapped_copies lost st s Hf Hs _ _ _
                                             Hfs Hmap Hin Hrm).
    rewrite Hnil. exact I.
Qed.

Lemma asymmetric_part_defined (visited perm : list Z) :
  forall (indexes2 : list nat) (acc : bool),
    (forall k, In k indexes2 ->
               (k < length visited)%nat /\ (k < length perm)%nat) ->
    exists r, asymmetric_part visited perm indexes2 acc = Done r.
Proof.
  induction indexes2 as [|same rest IH]; intros acc Hin; cbn; [eauto|].
  destruct (Hin same (or_introl eq_refl)) as [Hv Hp].
  destruct (same_at_defined visited perm same same Hv Hp) as (eq & ->).
  cbn [bind]. apply IH. intros k Hk. apply Hin. right. exact Hk.
Qed.

Lemma and_then_same_at_defined (visited perm : list Z) (i j k l : nat) :
  (i < length visited)%nat -> (j < length perm)%nat ->
  (k < length visited)%nat -> (l < length perm)%nat ->
  exists r, and_then (same_at visited perm i j) (same_at visited perm k l)
            = Done r.
Proof.
  intros Hi Hj Hk Hl. unfold and_then.
  destruct (same_at_defined visited perm i j Hi Hj) as (x & ->).
  cbn [bind]. destruct x; [apply same_at_defined; assumption | eauto].
Qed.

Lemma symmetric_part_defined (visited perm : list Z) :
  forall (indexes1 : list nat) (acc : bool),
    (forall k, In k indexes1 ->
               (k < length visited)%nat /\ (k < length perm)%nat) ->
    exists r, symmetric_part visited perm indexes1 acc = Done r.
Proof.
  induction indexes1 as [|a|a b rest IH] using pairs_ind; intros acc Hin;
    cbn [symmetric_part]; eauto.
  destruct (Hin a (or_introl eq_refl)) as [Hav Hap].
  destruct (Hin b (or_intror (or_introl eq_refl))) as [Hbv Hbp].
  destruct (and_then_same_at_defined visited perm a a b b Hav Hap Hbv Hbp)
    as (same & ->).
  destruct (and_then_same_at_defined visited perm a b b a Hav Hbp Hbv Hap)
    as (swap & ->).
  cbn [bind]. apply IH. intros k Hk. apply Hin. right. right. exact Hk.
Qed.

Lemma swap_found_defined (perm : list Z) (indexes1 indexes2 : list nat) :
  (forall k, In k (indexes1 ++ indexes2) -> (k < length perm)%nat) ->
  forall visiteds : list (list Z),
    Forall (fun visited =>
              forall k, In k (indexes1 ++ indexes2) ->
                        (k < length visited)%nat) visiteds ->
    exists d, swap_found visiteds perm indexes1 indexes2 = Done d.
Proof.
  intros Hp. induction visiteds as [|visited rest IH]; intros Hall; cbn;
    [eauto|].
  inversion Hall as [|? ? Hv Hrest]; subst.
  destruct (asymmetric_part_defined visited perm indexes2 true) as (asym & ->).
  { intros k Hk. split; [apply Hv | apply Hp]; apply in_or_app; auto. }
  destruct (symmetric_part_defined visited perm indexes1 true) as (sym & ->).
  { intros k Hk. split; [apply Hv | apply Hp]; apply in_or_app; auto. }
  cbn [bind]. destruct (asym && sym); [eauto | apply IH; exact Hrest].
Qed.

Lemma nth_error_of_firstn {A} (n : nat) (l front : list A) (k : nat) (a : A) :
  firstn n l = front -> nth_error front k = Some a -> nth_error l k = Some a.
Proof.
  intros <- Hk.
  assert (Hlt : (k < n)%nat).
  { destruct (Nat.lt_ge_cases k n) as [Hlt | Hge]; [exact Hlt|].
    assert (Hnone : nth_error (firstn n l) k = None).
    { apply nth_error_None. rewrite length_firstn. lia. }
    congruence. }
  rewrite nth_error_firstn in Hk.
  destruct (Nat.ltb_spec k n); [exact Hk | lia].
Qed.

(** With one lepton, [QQbarSymmetry] compares the positions of q1, qbar1,
    b1 and b2 and no other: a permutation that gives these four quarks the
    jets of a permutation already kept, q1 and qbar1 in either order, is
    discarded whatever jets it gives to the two b quarks of the Higgs. *)
Theorem QQbarSymmetry_LH_ignores_higgs_positions
        (lost : list PSVar) (st : Integrand D) (perm visited : list Z)
        (a b c d : Z) :
  fs st = FinalState.LH ->
  Forall (fun v => (4 <= length v)%nat) (perm_indexes_assumption st) ->
  In visited (perm_indexes_assumption st) ->
  firstn 4 visited = [a; b; c; d] ->
  firstn 4 perm = [a; b; c; d] \/ firstn 4 perm = [b; a; c; d] ->
  accept_strategy (fill_map lost st) perm Permutations.QQbarSymmetry
  = Done false.
Proof.
  intros Hfs Hlen Hin Hv Hp.
  assert (Hplen : (4 <= length perm)%nat).
  { assert (Hl : length (firstn 4 perm) = 4%nat)
      by (destruct Hp as [-> | ->]; reflexivity).
    rewrite length_firstn in Hl. lia. }
  destruct (fill_map_frame lost st) as (Hfs' & _).
  destruct (fill_map_perms lost st) as (_ & Hpa).
  assert (Hidx := symmetry_indexes (map_to_part (fill_map lost st))
                    FinalState.LH Permutations.QQbarSymmetry lost st
                    Hfs eq_refl (or_introl eq_refl) (or_introl eq_refl)).
  cbv zeta in Hidx.
  destruct (swap_found_defined perm [0; 1]%nat [2; 3]%nat) with
    (visiteds := perm_indexes_assumption st) as (dd & Hd).
  { intros k Hk. cbn in Hk. lia. }
  { eapply Forall_impl; [|exact Hlen]. intros v Hl k Hk. cbn in Hk, Hl. lia. }
  assert (Htrue : dd = true).
  { apply (swap_found_spec _ _ _ _ _ Hd).
    exists visited. split; [exact Hin|].
    assert (Hv0 := nth_error_of_firstn 4 visited _ 0 a Hv eq_refl).
    assert (Hv1 := nth_error_of_firstn 4 visited _ 1 b Hv eq_refl).
    assert (Hv2 := nth_error_of_firstn 4 visited _ 2 c Hv eq_refl).
    assert (Hv3 := nth_error_of_firstn 4 visited _ 3 d Hv eq_refl).
    unfold swapped_copy, slot_eq. cbn [pairs_of In].
    destruct Hp as [Hp | Hp].
    - assert (Hp0 := nth_error_of_firstn 4 perm _ 0 a Hp eq_refl).
      assert (Hp1 := nth_error_of_firstn 4 perm _ 1 b Hp eq_refl).
      assert (Hp2 := nth_error_of_firstn 4 perm _ 2 c Hp eq_refl).
      assert (Hp3 := nth_error_of_firstn 4 perm _ 3 d Hp eq_refl).
      split.
      + intros k [<- | [<- | []]]; eauto.
      + intros a' b' [Hab | []]. injection Hab as <- <-. left. split; eauto.
    - assert (Hp0 := nth_error_of_firstn 4 perm _ 0 b Hp eq_refl).
      assert (Hp1 := nth_error_of_firstn 4 perm _ 1 a Hp eq_refl).
      assert (Hp2 := nth_error_of_firstn 4 perm _ 2 c Hp eq_refl).
      assert (Hp3 := nth_error_of_firstn 4 perm _ 3 d Hp eq_refl).
      split.
      + intros k [<- | [<- | []]]; eauto.
      + intros a' b' [Hab | []]. injection Hab as <- <-. right. split; eauto. }
  subst dd.
  unfold accept_strategy. rewrite Hfs', Hfs, Hidx.
  cbn [bind symmetric_slots asymmetric_slots app].
  rewrite Hpa, Hd. reflexivity.
Qed.

End PruningLoop.

Lemma BTagged_discards_low_tag_at_b_slot_witness :
  (fs Example.initialised = FinalState.LH
   \/ fs Example.initialised = FinalState.LL
   \/ fs Example.initialised = FinalState.HH)
  /\ accept_strategy (fill_map [] Example.initialised) [2; 1; 0; 3; 4; 5]%Z
                     Permutations.BTagged = Done false
  /\ exists ind,
      In ind [2; 3; 4; 5]%nat
      /\ tagged (fun v => (v <? frac 1 2)%dbl) Example.initialised
                [2; 1; 0; 3; 4; 5]%Z ind.
Proof.
  assert (Hfs : fs Example.initialised = FinalState.LH
                \/ fs Example.initialised = FinalState.LL
                \/ fs Example.initialised = FinalState.HH)
    by (left; vm_compute; reflexivity).
  assert (Hacc : accept_strategy (fill_map [] Example.initialised)
                                 [2; 1; 0; 3; 4; 5]%Z Permutations.BTagged
                 = Done false) by (vm_compute; reflexivity).
  split; [exact Hfs|]. split; [exact Hacc|].
  exact (proj1 (BTagged_discards_low_tag_at_b_slot
                  [] Example.initialised _ false Hfs Hacc) eq_refl).
Defined.

Lemma QUntagged_discards_high_tag_at_q_slot_witness :
  (fs Example.initialised = FinalState.LH
   \/ fs Example.initialised = FinalState.LL
   \/ fs Example.initialised = FinalState.HH)
  /\ accept_strategy (fill_map [] Example.initialised) [2; 1; 0; 3; 4; 5]%Z
                     Permutations.QUntagged = Done false
  /\ exists ind,
      In ind [0; 1]%nat
      /\ tagged (fun v => (v >? frac 1 2)%dbl) Example.initialised
                [2; 1; 0; 3; 4; 5]%Z ind.
Proof.
  assert (Hfs : fs Example.initialised = FinalState.LH
                \/ fs Example.initialised = FinalState.LL
                \/ fs Example.initialised = FinalState.HH)
    by (left; vm_compute; reflexivity).
  assert (Hacc : accept_strategy (fill_map [] Example.initialised)
                                 [2; 1; 0; 3; 4; 5]%Z Permutations.QUntagged
                 = Done false) by (vm_compute; reflexivity).
  split; [exact Hfs|]. split; [exact Hacc|].
  exact (proj1 (QUntagged_discards_high_tag_at_q_slot
                  [] Example.initialised _ false Hfs Hacc) eq_refl).
Defined.

Lemma make_assumption_keeps_no_swapped_copy_witness :
  (naive_jet_counting PruningExample.event
   <= length (obs_jets PruningExample.event) + length (@nil PSVar) / 2)%nat
  /\ fs PruningExample.event = FinalState.LH
  /\ In Permutations.QQbarSymmetry (perm_pruning (cfg PruningExample.event))
  /\ exists out' st',
      make_assumption [] MEMOutput_default PruningExample.event
      = Done (out', st')
      /\ perm_indexes_assumption st'
         = [[0; 1; 2; 3; 4; 5]; [0; 1; 3; 2; 4; 5]]%Z
      /\ NoDup (perm_indexes_assumption st').
Proof.
  assert (Hjets : (naive_jet_counting PruningExample.event
                   <= length (obs_jets PruningExample.event)
                      + length (@nil PSVar) / 2)%nat)
    by (vm_compute; lia).
  assert (Hfs : fs PruningExample.event = FinalState.LH)
    by (vm_compute; reflexivity).
  assert (Hin : In Permutations.QQbarSymmetry
                   (perm_pruning (cfg PruningExample.event)))
    by (right; left; reflexivity).
  split; [exact Hjets|]. split; [exact Hfs|]. split; [exact Hin|].
  destruct (make_assumption [] MEMOutput_default PruningExample.event)
    as [[out' st']| |] eqn:Hmake.
  - exists out', st'. split; [reflexivity|]. split.
    + vm_compute in Hmake. injection Hmake as _ <-. reflexivity.
    + exact (proj1 (make_assumption_keeps_no_swapped_copy
                      [] MEMOutput_default out' PruningExample.event st'
                      Permutations.QQbarSymmetry Hjets (or_introl Hfs)
                      (or_introl eq_refl) Hin Hmake)).
  - vm_compute in Hmake. discriminate.
  - vm_compute in Hmake. discriminate.
Defined.

Lemma QQbarSymmetry_LH_ignores_higgs_positions_witness :
  let st := push_back_assumption PruningExample.event
                                 [0; 1; 2; 3; 4; 5]%Z 1%float in
  fs st = FinalState.LH
  /\ In [0; 1; 2; 3; 4; 5]%Z (perm_indexes_assumption st)
  /\ accept_strategy (fill_map [] st) [1; 0; 2; 3; 5; 4]%Z
                     Permutations.QQbarSymmetry = Done false.
Proof.
  cbv zeta.
  assert (Hfs : fs (push_back_assumption PruningExample.event
                                         [0; 1; 2; 3; 4; 5]%Z 1%float)
                = FinalState.LH) by (vm_compute; reflexivity).
  assert (Hin : In [0; 1; 2; 3; 4; 5]%Z
                   (perm_indexes_assumption
                      (push_back_assumption PruningExample.event
                                            [0; 1; 2; 3; 4; 5]%Z 1%float)))
    by (left; reflexivity).
  split; [exact Hfs|]. split; [exact Hin|].
  apply (QQbarSymmetry_LH_ignores_higgs_positions
           [] _ [1; 0; 2; 3; 5; 4]%Z [0; 1; 2; 3; 4; 5]%Z 0%Z 1%Z 2%Z 3%Z
           Hfs).
  - repeat constructor.
  - exact Hin.
  - reflexivity.
  - right. reflexivity.
Defined.

(* ================================================================= *)
(** ** Counters, error code and the modes of the integrand *)

Section Counters.
Context {D : Type} `{Double D} {ext : Collaborators D}.
Local Open Scope dbl_scope.

Lemma raised_refl (a : Z) : raised a a.
Proof. left. reflexivity. Qed.

Lemma raised_trans (a b c : Z) : raised a b -> raised b c -> raised a c.
Proof. unfold raised. intros [-> | ->] [-> | ->]; auto. Qed.

Lemma transfer_counters st ps perm accept w accept' st' :
  transfer st ps perm accept = Done (w, accept', st') ->
  n_calls st' = n_calls st /\ n_skip st' = n_skip st /\ log st' = log st
  /\ raised (error_code st) (error_code st').
Proof.
  unfold transfer.
  destruct (Z.land _ _ =? 0)%Z.
  { intros [= _ _ <-]. repeat split. apply raised_refl. }
  destruct (FinalState.eqb _ _).
  { intros [= _ _ <-]. repeat split. apply raised_refl. }
  intros Hb. apply bind_Done in Hb. destruct Hb as ([w0 a0] & _ & Hk).
  destruct (IsNaN w0); injection Hk as _ _ <-; repeat split;
    [right; reflexivity | apply raised_refl].
Qed.

Lemma probability_counters x n_perm st p st' :
  probability x n_perm st = Done (p, st') ->
  n_calls st' = n_calls st
  /\ (n_skip st' = n_skip st \/ n_skip st' = S (n_skip st))
  /\ raised (error_code st) (error_code st')
  /\ exists calls, log st' = calls ++ log st /\ ~ In CallIntegral calls.
Proof.
  unfold probability.
  destruct (int_code (cfg st) =? 0)%Z.
  { intros [= _ <-]. repeat split; auto using raised_refl. exists []. auto. }
  intros Hb. apply bind_Done in Hb. destruct Hb as (perm & _ & Hb).
  apply bind_Done in Hb. destruct Hb as ([ps accept] & _ & Hb).
  destruct (accept <? 0)%Z.
  { injection Hb as _ <-. cbn. repeat split; auto using raised_refl.
    exists [CallCreatePS]. split; [reflexivity|].
    intros [Hq | []]; discriminate. }
  apply bind_Done in Hb. destruct Hb as ([[w accept'] st1] & Ht & Hb).
  apply transfer_counters in Ht. cbn in Ht.
  destruct Ht as (Hc & Hs & Hl & He).
  destruct (negb (tf_suppress (cfg st1) =? 0)%Z
            && (accept' >=? tf_suppress (cfg st1))%Z).
  { injection Hb as _ <-. repeat split; auto.
    exists [CallTransfer; CallCreatePS]. split; [exact Hl|].
    intros [Hq | [Hq | []]]; discriminate. }
  apply bind_Done in Hb. destruct Hb as (m & _ & Hb).
  injection Hb as _ <-. cbn. repeat split; auto.
  exists [CallMatrix; CallTransfer; CallCreatePS].
  split; [rewrite Hl; reflexivity|].
  intros [Hq | [Hq | [Hq | []]]]; discriminate.
Qed.

Lemma skipped_same_event (st st' : Integrand D) (n : nat) :
  same_event st st' -> skipped st' n = skipped st n.
Proof.
  intros (Hc & _ & _ & _ & _ & _ & _ & _ & Ht & _).
  unfold skipped. rewrite Hc, Ht. reflexivity.
Qed.

Lemma Eval_loop_counters (x : list D) :
  forall fuel n_perm p st p' st',
    Eval_loop fuel x n_perm p st = Done (p', st') ->
    n_calls st' = n_calls st
    /\ (n_skip st <= n_skip st'
        <= n_skip st
           + length (filter (fun n => negb (skipped st n)) (seq n_perm fuel)))%nat
    /\ raised (error_code st) (error_code st')
    /\ exists calls, log st' = calls ++ log st /\ ~ In CallIntegral calls.
Proof.
  induction fuel as [|fuel IH]; intros n_perm p st p' st' He.
  - injection He as _ <-. cbn. repeat split; auto using raised_refl; try lia.
    exists []. auto.
  - cbn [Eval_loop] in He. cbn [seq filter].
    destruct (n_perm <? _)%nat.
    2:{ injection He as _ <-. repeat split; auto using raised_refl; try lia.
        exists []. auto. }
    fold (skipped st n_perm) in He.
    destruct (skipped st n_perm) eqn:Hskip; cbn [negb].
    { exact (IH _ _ _ _ _ He). }
    apply bind_Done in He. destruct He as ([p0 st1] & Hp & He).
    apply bind_Done in He. destruct He as (p1 & _ & He).
    pose proof (probability_same_event _ _ _ _ _ Hp) as Hsame.
    apply probability_counters in Hp.
    destruct Hp as (Hc & Hs & Herr & calls1 & Hl & Hno).
    apply IH in He. destruct He as (Hc' & Hs' & Herr' & calls2 & Hl' & Hno').
    assert (Hfilter :
              filter (fun n => negb (skipped st1 n)) (seq (S n_perm) fuel)
              = filter (fun n => negb (skipped st n)) (seq (S n_perm) fuel)).
    { apply filter_ext. intros n. rewrite (skipped_same_event st st1 n Hsame).
      reflexivity. }
    rewrite Hfilter in Hs'. cbn [length].
    repeat split; try lia.
    + eapply raised_trans; eauto.
    + exists (calls2 ++ calls1). split.
      * rewrite Hl', Hl, app_assoc. reflexivity.
      * intros Hin. apply in_app_or in Hin. tauto.
Qed.

Lemma Eval_raises (x : list D) (st : Integrand D) (p : D) (st' : Integrand D) :
  Eval x st = Done (p, st') ->
  n_calls st' = S (n_calls st) /\ (n_skip st <= n_skip st')%nat
  /\ raised (error_code st) (error_code st')
  /\ count_occ Call_eq_dec (log st') CallIntegral
     = count_occ Call_eq_dec (log st) CallIntegral.
Proof.
  intros He. unfold Eval in He.
  apply bind_Done in He. destruct He as ([p1 st1] & Hloop & He).
  injection He as _ <-. cbn.
  apply Eval_loop_counters in Hloop.
  destruct Hloop as (Hc & Hs & Herr & calls & Hl & Hno).
  split; [congruence|]. split; [lia|]. split; [exact Herr|].
  rewrite Hl, count_occ_app.
  apply (count_occ_not_In Call_eq_dec) in Hno. lia.
Qed.

(** One evaluation of the integrand counts once in [n_calls], whatever
    happens to the permutations; [n_skip] grows by at most one for each
    retained permutation; [error_code] stays or becomes 1, never goes back;
    the calls to the collaborators are added to the log; and nothing else
    of the state changes. *)
Theorem Eval_counters (x : list D) (st : Integrand D) (p : D)
        (st' : Integrand D) :
  Eval x st = Done (p, st') ->
  n_calls st' = S (n_calls st)
  /\ (n_skip st <= n_skip st' <= n_skip st + length (retained st))%nat
  /\ (error_code st' = error_code st \/ error_code st' = 1%Z)
  /\ (exists calls, log st' = calls ++ log st /\ ~ In CallIntegral calls)
  /\ same_event st st'.
Proof.
  intros He. pose proof (Eval_same_event _ _ _ _ He) as Hsame.
  unfold Eval in He.
  apply bind_Done in He. destruct He as ([p1 st1] & Hloop & He).
  injection He as _ <-. cbn.
  apply Eval_loop_counters in Hloop.
  destruct Hloop as (Hc & Hs & Herr & Hl).
  rewrite retained_filter in Hs.
  split; [congruence|]. split; [lia|]. split; [exact Herr|].
  split; [exact Hl | exact Hsame].
Qed.

Lemma Integral_counters (ig : Integrator D) :
  forall st i e c st',
    Integral ig st = Done (i, e, c, st') ->
    (n_calls st <= n_calls st')%nat /\ (n_skip st <= n_skip st')%nat
    /\ raised (error_code st) (error_code st')
    /\ count_occ Call_eq_dec (log st') CallIntegral
       = count_occ Call_eq_dec (log st) CallIntegral.
Proof.
  induction ig as [i0 e0 c0 | x k IH]; intros st i e c st' Hi.
  - injection Hi as _ _ _ <-. repeat split; auto using raised_refl.
  - cbn [Integral] in Hi.
    apply bind_Done in Hi. destruct Hi as ([v st1] & He & Hi).
    apply Eval_raises in He. destruct He as (Hc & Hs & Herr & Hl).
    apply IH in Hi. destruct Hi as (Hc' & Hs' & Herr' & Hl').
    repeat split; try lia. eapply raised_trans; eauto.
Qed.

Lemma integrate_per_perm_counters (xL xU : list D) :
  forall fuel n_perm acc st acc' st',
    integrate_per_perm fuel xL xU n_perm acc st = Done (acc', st') ->
    (n_calls st <= n_calls st')%nat /\ (n_skip st <= n_skip st')%nat
    /\ raised (error_code st) (error_code st')
    /\ count_occ Call_eq_dec (log st') CallIntegral
       = (count_occ Call_eq_dec (log st) CallIntegral
          + Nat.min fuel (length (perm_indexes_assumption st) - n_perm))%nat.
Proof.
  induction fuel as [|fuel IH]; intros n_perm acc st acc' st' Hi.
  - injection Hi as _ <-. cbn. repeat split; auto using raised_refl; lia.
  - cbn [integrate_per_perm] in Hi.
    destruct (Nat.ltb_spec n_perm (length (perm_indexes_assumption st)))
      as [Hlt | Hge].
    2:{ injection Hi as _ <-. repeat split; auto using raised_refl; lia. }
    destruct acc as [[prob err2] chi2].
    destruct (Integral _ _) as [[[[n_prob err] chisqr] st1]| |] eqn:Hint;
      cbn [bind] in Hi; try discriminate.
    pose proof (Integral_same_event _ _ _ _ _ _ Hint) as Hsame.
    apply Integral_counters in Hint. cbn in Hint.
    destruct Hint as (Hc & Hs & Herr & Hl).
    apply IH in Hi. destruct Hi as (Hc' & Hs' & Herr' & Hl').
    destruct Hsame as (_ & _ & _ & _ & _ & _ & _ & _ & _ & _ & _ & _ & _
                       & Hpa & _).
    cbn in Hpa. rewrite Hpa in Hl'.
    repeat split; try lia. eapply raised_trans; eauto.
Qed.

Lemma remove_unwanted_counters (lost : list PSVar) :
  forall (perms : list (list Z)) (st st' : Integrand D),
    remove_unwanted lost perms st = Done st' ->
    n_calls st' = n_calls st /\ n_skip st' = n_skip st
    /\ error_code st' = error_code st /\ log st' = log st
    /\ n_max_calls st' = n_max_calls st.
Proof.
  induction perms as [|raw perms IH]; intros st st' Hrun.
  - injection Hrun as <-. auto.
  - cbn [remove_unwanted] in Hrun.
    apply bind_Done in Hrun. destruct Hrun as (perm & _ & Hrun).
    destruct (negb _); [apply IH; exact Hrun|].
    apply bind_Done in Hrun. destruct Hrun as (ok & _ & Hrun).
    destruct (negb ok); [apply IH; exact Hrun|].
    apply bind_Done in Hrun. destruct Hrun as (k & _ & Hrun).
    apply IH in Hrun. exact Hrun.
Qed.

Lemma fill_map_counters (lost : list PSVar) (st : Integrand D) :
  n_calls (fill_map lost st) = n_calls st
  /\ n_skip (fill_map lost st) = n_skip st
  /\ error_code (fill_map lost st) = error_code st
  /\ log (fill_map lost st) = log st
  /\ n_max_calls (fill_map lost st) = n_max_calls st.
Proof. unfold fill_map. destruct (fs st) eqn:Hfs; cbn; auto. Qed.

(** What [make_assumption] does to the counters, the error code and the
    log, when the jets suffice for the assumption. *)
Lemma make_assumption_counters
      (lost : list PSVar) (out out' : MEMOutput D) (st st' : Integrand D) :
  (naive_jet_counting st <= length (obs_jets st) + length lost / 2)%nat ->
  make_assumption lost out st = Done (out', st') ->
  (n_calls st <= n_calls st')%nat /\ (n_skip st <= n_skip st')%nat
  /\ raised (error_code st) (error_code st')
  /\ count_occ Call_eq_dec (log st') CallIntegral
     = (count_occ Call_eq_dec (log st) CallIntegral
        + if perm_int (cfg st) then length (perm_indexes_assumption st')
          else 1)%nat
  /\ cfg st' = cfg st /\ n_max_calls st' = n_max_calls st
  /\ obs_jets st' = obs_jets st.
Proof.
  intros Hjets Hmake.
  unfold make_assumption, test_assumption in Hmake.
  apply Nat.ltb_ge in Hjets. rewrite Hjets in Hmake. cbn [negb] in Hmake.
  match type of Hmake with
  | bind (remove_unwanted _ ?ps ?s0) _ = _ =>
      destruct (remove_unwanted lost ps s0) as [st1| |] eqn:Hrm;
      cbn [bind] in Hmake; try discriminate;
      destruct (fill_map_counters lost
                  (set_assumption
                     (set_extra_jets st
                        (length (obs_jets st) + length lost / 2
                         - naive_jet_counting st)) []
                     (perm_const_assumption st)))
        as (Hf1 & Hf2 & Hf3 & Hf4 & Hf5);
      destruct (fill_map_frame lost
                  (set_assumption
                     (set_extra_jets st
                        (length (obs_jets st) + length lost / 2
                         - naive_jet_counting st)) []
                     (perm_const_assumption st)))
        as (_ & Hg2 & Hg3 & _)
  end.
  cbn in Hf1, Hf2, Hf3, Hf4, Hf5, Hg2, Hg3.
  destruct (remove_unwanted_counters _ _ _ _ Hrm) as (Hr1 & Hr2 & Hr3 & Hr4 & Hr5).
  destruct (remove_unwanted_frame _ _ _ _ Hrm) as (_ & _ & Hrc & Hrj & _).
  cbn in Hr1, Hr2, Hr3, Hr4, Hr5, Hrc, Hrj.
  rewrite Hf1 in Hr1. rewrite Hf2 in Hr2. rewrite Hf3 in Hr3.
  rewrite Hf4 in Hr4. rewrite Hf5 in Hr5. rewrite Hg2 in Hrc.
  rewrite Hg3 in Hrj.
  destruct (get_edges st1 lost _ false) as [xL| |]; cbn [bind] in Hmake;
    try discriminate.
  destruct (get_edges st1 lost _ true) as [xU| |]; cbn [bind] in Hmake;
    try discriminate.
  destruct (get_width xL xU _) as [volume| |]; cbn [bind] in Hmake;
    try discriminate.
  rewrite <- Hrc.
  destruct (perm_int (cfg st1)) eqn:Hpi.
  - destruct (integrate_per_perm _ xL xU 0 _ st1)
      as [[[[prob err2] chi2] st2]| |] eqn:Hint;
      cbn [bind] in Hmake; try discriminate.
    pose proof (integrate_per_perm_frame _ _ _ _ _ _ _ _ Hint)
      as (Hpa & _ & Hc2 & _ & _ & Hn2 & Hj2).
    apply integrate_per_perm_counters in Hint.
    destruct Hint as (Hi1 & Hi2 & Hi3 & Hi4).
    rewrite Hc2, Hpi in Hmake. cbn [negb bind] in Hmake.
    injection Hmake as _ <-.
    rewrite Hr1, Hr2, Hr3 in *. rewrite Hr4 in Hi4.
    repeat split; auto; try lia; try congruence.
    rewrite Hi4, Hpa. f_equal. lia.
  - cbn [bind] in Hmake. rewrite Hpi in Hmake. cbn [negb] in Hmake.
    destruct (Integral _ _) as [[[[i err] chisqr] st3]| |] eqn:Hi3;
      cbn [bind] in Hmake; try discriminate.
    pose proof (Integral_same_event _ _ _ _ _ _ Hi3) as Hsame.
    apply Integral_counters in Hi3. cbn in Hi3.
    destruct Hi3 as (Hi1 & Hi2 & Hi3' & Hi4).
    destruct Hsame as (Hc3 & _ & _ & _ & _ & _ & _ & Hn3 & _ & Hj3 & _).
    cbn in Hc3, Hn3, Hj3.
    injection Hmake as _ <-.
    rewrite Hr1, Hr2, Hr3 in *. rewrite Hr4 in Hi4.
    repeat split; auto; try lia; try congruence.
Qed.

End Counters.

Section RunCounters.
Context {D : Type} `{Double D} {ext : Collaborators D}.
Local Open Scope dbl_scope.

(** What [init] sets and what it leaves alone. *)
Lemma init_frame (f : FinalState.FinalState) (h : Hypo.Hypo)
      (st st1 : Integrand D) :
  init f h st = Done st1 ->
  length (obs_leptons st) = leptons_expected f
  /\ fs st1 = f /\ hypo st1 = h
  /\ naive_jet_counting st1 = quarks_expected f
  /\ obs_jets st1 = map (add_edges st) (obs_jets st)
  /\ obs_leptons st1 = obs_leptons st /\ obs_mets st1 = obs_mets st
  /\ cfg st1 = cfg st /\ error_code st1 = error_code st
  /\ n_calls st1 = n_calls st /\ n_skip st1 = n_skip st
  /\ log st1 = log st
  /\ perm_indexes_assumption st1 = perm_indexes_assumption st
  /\ perm_const_assumption st1 = perm_const_assumption st
  /\ map_to_part st1 = map_to_part st.
Proof.
  unfold init.
  destruct (Nat.eqb_spec (length (obs_leptons st)) (leptons_expected f))
    as [Hlep | Hlep]; cbn [negb]; [|discriminate].
  intros [= <-]. cbn. repeat split; auto.
Qed.

(** [run] never clears [error_code]: the code it reports is the one it
    found, or 1, and the state keeps the code reported.  Once a NaN of the
    transfer functions has set it, every later result of the event carries
    [error_code = 1], whatever the hypothesis. *)
Theorem run_never_clears_error_code
        (f : FinalState.FinalState) (h : Hypo.Hypo) (lost : list PSVar)
        (time : Z) (st st' : Integrand D) (out : MEMOutput D) :
  run f h lost time st = Done (out, st') ->
  (out_error_code out = error_code st \/ out_error_code out = 1%Z)
  /\ error_code st' = out_error_code out.
Proof.
  unfold run. intros Hrun.
  apply bind_Done in Hrun. destruct Hrun as (st1 & Hinit & Hrun).
  apply bind_Done in Hrun. destruct Hrun as ([out1 st2] & Hmake & Hrun).
  injection Hrun as <- <-. cbn.
  split; [|reflexivity].
  apply init_frame in Hinit.
  destruct Hinit as (_ & _ & _ & _ & _ & _ & _ & _ & Herr & _).
  rewrite <- Herr.
  match type of Hmake with
  | make_assumption _ _ ?s = _ =>
      destruct (Nat.lt_ge_cases (length (obs_jets s) + length lost / 2)
                                (naive_jet_counting s)) as [Hfew | Hjets]
  end.
  - rewrite make_assumption_too_few_jets in Hmake by exact Hfew.
    injection Hmake as _ <-. left. reflexivity.
  - apply make_assumption_counters in Hmake; [|exact Hjets].
    destruct Hmake as (_ & _ & Hraised & _). exact Hraised.
Qed.

(** The number of integrations of one [run]: none when the jets do not
    suffice for the assumption; otherwise one, or with [cfg.perm_int] one
    for each permutation kept -- none when no permutation is kept. *)
Theorem run_number_of_integrations
        (f : FinalState.FinalState) (h : Hypo.Hypo) (lost : list PSVar)
        (time : Z) (st st' : Integrand D) (out : MEMOutput D) :
  run f h lost time st = Done (out, st') ->
  count_occ Call_eq_dec (log st') CallIntegral
  = (count_occ Call_eq_dec (log st) CallIntegral
     + if (length (obs_jets st) + length lost / 2 <? quarks_expected f)%nat
       then 0
       else if perm_int (cfg st) then out_num_perm out else 1)%nat.
Proof.
  unfold run. intros Hrun.
  apply bind_Done in Hrun. destruct Hrun as (st1 & Hinit & Hrun).
  apply bind_Done in Hrun. destruct Hrun as ([out1 st2] & Hmake & Hrun).
  injection Hrun as <- <-.
  apply init_frame in Hinit.
  destruct Hinit as (_ & _ & _ & Hnaive & Hjets1 & _ & _ & Hcfg & _ & _ & _
                     & Hlog & _).
  assert (Hlen : length (obs_jets st1) = length (obs_jets st))
    by (rewrite Hjets1; apply length_map).
  cbn [log next_hypo out_num_perm].
  destruct (Nat.ltb_spec (length (obs_jets st) + length lost / 2)
                         (quarks_expected f)) as [Hfew | Hjets].
  - rewrite make_assumption_too_few_jets in Hmake
      by (cbn [obs_jets naive_jet_counting set_n_max_calls];
          rewrite Hlen, Hnaive; exact Hfew).
    injection Hmake as _ <-. cbn [log set_n_max_calls]. rewrite Hlog. lia.
  - apply make_assumption_counters in Hmake;
      [|cbn [obs_jets naive_jet_counting set_n_max_calls];
        rewrite Hlen, Hnaive; exact Hjets].
    destruct Hmake as (_ & _ & _ & Hcount & _).
    cbn [log cfg set_n_max_calls] in Hcount.
    rewrite Hcount, Hlog, Hcfg. reflexivity.
Qed.

End RunCounters.

Lemma Eval_counters_witness :
  exists p st',
    Eval [2%float] Example.restricted = Done (p, st')
    /\ n_calls st' = 1%nat /\ n_skip st' = 0%nat /\ error_code st' = 0%Z.
Proof.
  destruct (Eval [2%float] Example.restricted) as [[p st']| |] eqn:HEval.
  - exists p, st'. split; [reflexivity|].
    destruct (Eval_counters [2%float] Example.restricted p st' HEval)
      as (Hc & _ & _).
    split; [exact Hc|].
    vm_compute in HEval. injection HEval as _ <-. split; reflexivity.
  - vm_compute in HEval. discriminate.
  - vm_compute in HEval. discriminate.
Defined.

Lemma run_never_clears_error_code_witness :
  exists out st',
    run FinalState.LH Hypo.TTH [] 7 Example.start = Done (out, st')
    /\ out_error_code out = 0%Z /\ error_code st' = 0%Z.
Proof.
  destruct (run FinalState.LH Hypo.TTH [] 7 Example.start)
    as [[out st']| |] eqn:Hrun.
  - exists out, st'. split; [reflexivity|].
    destruct (run_never_clears_error_code _ _ _ _ _ _ _ Hrun) as (_ & Hst).
    rewrite Hst.
    vm_compute in Hrun. injection Hrun as <- _. split; reflexivity.
  - vm_compute in Hrun. discriminate.
  - vm_compute in Hrun. discriminate.
Defined.

Lemma run_number_of_integrations_witness :
  exists out st',
    run FinalState.LH Hypo.TTH [] 7 Example.start = Done (out, st')
    /\ count_occ Call_eq_dec (log st') CallIntegral = 1%nat.
Proof.
  destruct (run FinalState.LH Hypo.TTH [] 7 Example.start)
    as [[out st']| |] eqn:Hrun.
  - exists out, st'. split; [reflexivity|].
    rewrite (run_number_of_integrations _ _ _ _ _ _ _ Hrun).
    reflexivity.
  - vm_compute in Hrun. discriminate.
  - vm_compute in Hrun. discriminate.
Defined.

(* ================================================================= *)
(** ** The modes of the integrand *)

Section Modes.
Context {D : Type} `{Double D} {ext : Collaborators D}.
Local Open Scope dbl_scope.

Lemma probabilities_without_code (x : list D) (st : Integrand D) :
  int_code (cfg st) = 0%Z ->
  forall perms : list nat,
    probabilities x perms st = Done (map (fun _ => 1) perms, st).
Proof.
  intros Hcode. induction perms as [|n perms IH]; [reflexivity|].
  cbn [probabilities]. unfold probability at 1.
  rewrite Hcode. cbn [Z.eqb bind]. rewrite IH. reflexivity.
Qed.

Lemma add_products_ones (f : nat -> D) :
  forall (perms : list nat) (p : D),
    add_products p (map (fun _ => 1) perms) (map f perms)
    = fold_left (fun acc k => acc + 1 * k) (map f perms) p.
Proof.
  unfold add_products.
  induction perms as [|n perms IH]; intros p; [reflexivity|].
  cbn [map combine fold_left fst snd]. apply IH.
Qed.

(** With [cfg.int_code = 0] the integrand does not look at the point: it
    calls no collaborator, and its value is the sum of the cached constants
    of the retained permutations, each multiplied by the probability 1. *)
Theorem Eval_without_integrand_code (x : list D) (st : Integrand D) :
  int_code (cfg st) = 0%Z ->
  length (perm_const_assumption st) = length (perm_indexes_assumption st) ->
  Eval x st
  = Done (fold_left (fun acc k => acc + 1 * k)
                    (map (perm_const st) (retained st)) 0,
          set_n_calls st (S (n_calls st))).
Proof.
  intros Hcode Hlen. unfold Eval.
  rewrite Eval_loop_sum by (try exact Hlen; lia).
  rewrite Nat.sub_0_r, retained_filter.
  rewrite (probabilities_without_code x st Hcode). cbn [bind].
  rewrite add_products_ones. reflexivity.
Qed.

(** When the transfer functions report [accept >= cfg.tf_suppress], with
    [cfg.tf_suppress] not zero, [probability] returns 0 without evaluating
    [matrix]; unlike a rejected phase-space point, the point is not counted
    in [n_skip]. *)
Theorem probability_suppressed_by_transfer
        (x : list D) (n_perm : nat) (st st1 : Integrand D)
        (perm : list Z) (ps : PS D) (accept accept' : Z) (w : D) :
  int_code (cfg st) <> 0%Z ->
  at_nat (perm_indexes_assumption st) n_perm = Done perm ->
  create_PS st (PS_new (ps_dim st)) x perm = Done (ps, accept) ->
  (0 <= accept)%Z ->
  transfer (add_log (add_log st CallCreatePS) CallTransfer) ps perm accept
  = Done (w, accept', st1) ->
  tf_suppress (cfg st) <> 0%Z ->
  (tf_suppress (cfg st) <= accept')%Z ->
  probability x n_perm st = Done (0, st1)
  /\ log st1 = CallTransfer :: CallCreatePS :: log st
  /\ n_skip st1 = n_skip st
  /\ n_calls st1 = n_calls st.
Proof.
  intros Hcode Hperm Hps Hacc Htf Hsup Hge.
  pose proof (transfer_same_event _ _ _ _ _ _ _ Htf) as Hsame.
  destruct Hsame as (Hcfg & _). cbn in Hcfg.
  pose proof (transfer_counters _ _ _ _ _ _ _ Htf) as (Hc & Hs & Hl & _).
  cbn in Hc, Hs, Hl.
  split; [|auto].
  unfold probability.
  apply Z.eqb_neq in Hcode. rewrite Hcode, Hperm. cbn [bind].
  rewrite Hps. cbn [bind].
  assert (Hnn : (accept <? 0)%Z = false) by (apply Z.ltb_ge; exact Hacc).
  rewrite Hnn, Htf. cbn [bind]. rewrite Hcfg.
  apply Z.eqb_neq in Hsup. rewrite Hsup.
  assert (Hg : (accept' >=? tf_suppress (cfg st))%Z = true)
    by (apply Z.geb_le; exact Hge).
  rewrite Hg. reflexivity.
Qed.

End Modes.

Section Binary64.
Context {ext : Collaborators float}.

(** In binary64, [transfer] and [matrix] never return NaN: a NaN product
    is replaced by 0. *)
Theorem transfer_and_matrix_never_NaN :
  (forall (st : Integrand float) (ps : PS float) (perm : list Z) (accept : Z)
          (w : float) (accept' : Z) (st' : Integrand float),
      transfer st ps perm accept = Done (w, accept', st') ->
      IsNaN w = false)
  /\ (forall (st : Integrand float) (ps : PS float) (m : float),
         matrix st ps = Done m -> IsNaN m = false).
Proof.
  split.
  - intros st ps perm accept w accept' st'. unfold transfer.
    destruct (Z.land _ _ =? 0)%Z; [intros [= <- _ _]; reflexivity|].
    destruct (FinalState.eqb _ _); [intros [= <- _ _]; reflexivity|].
    intros Hb. apply bind_Done in Hb. destruct Hb as ([w0 a0] & _ & Hk).
    destruct (IsNaN w0) eqn:Hnan; injection Hk as <- _ _;
      [reflexivity | exact Hnan].
  - intros st ps m. unfold matrix, matrix_nodecay.
    destruct (FinalState.eqb _ _); intros Hb;
      apply bind_Done in Hb; destruct Hb as (m0 & _ & Hk);
      destruct (IsNaN m0) eqn:Hnan; injection Hk as <-;
      solve [reflexivity | exact Hnan].
Qed.

(** In binary64, a run that evaluates the integrand at no point -- one
    whose assumption is skipped for too few jets, started with the counters
    at zero as [next_event] and [next_hypo] leave them -- reports the
    efficiency [0/0], a NaN. *)
Theorem run_too_few_jets_efficiency_is_NaN
        (f : FinalState.FinalState) (h : Hypo.Hypo) (lost : list PSVar)
        (time : Z) (st : Integrand float) :
  length (obs_leptons st) = leptons_expected f ->
  (length (obs_jets st) + length lost / 2 < quarks_expected f)%nat ->
  n_calls st = 0%nat -> n_skip st = 0%nat ->
  exists (out : MEMOutput float) (st' : Integrand float),
    run f h lost time st = Done (out, st')
    /\ out_num_calls out = 0%nat
    /\ IsNaN (out_efficiency out) = true.
Proof.
  intros Hlep Hfew Hcalls Hskip.
  destruct (init f h st) as [st1| |] eqn:Hinit.
  2,3: unfold init in Hinit; apply Nat.eqb_eq in Hlep; rewrite Hlep in Hinit;
       discriminate.
  pose proof (init_frame _ _ _ _ Hinit)
    as (_ & _ & _ & Hnaive & Hjets & _ & _ & _ & _ & Hc & Hs & _).
  assert (Hlen : length (obs_jets st1) = length (obs_jets st))
    by (rewrite Hjets; apply length_map).
  unfold run. rewrite Hinit. cbn [bind].
  rewrite make_assumption_too_few_jets
    by (cbn [obs_jets naive_jet_counting set_n_max_calls];
        rewrite Hlen, Hnaive; exact Hfew).
  cbn [bind]. do 2 eexists. split; [reflexivity|].
  cbn [out_num_calls out_efficiency n_calls n_skip set_n_max_calls].
  rewrite Hc, Hs, Hcalls, Hskip. split; reflexivity.
Qed.

End Binary64.

Lemma Eval_without_integrand_code_witness :
  int_code (cfg ModesExample.volume) = 0%Z
  /\ length (perm_const_assumption ModesExample.volume)
     = length (perm_indexes_assumption ModesExample.volume)
  /\ exists st',
      Eval [2%float] ModesExample.volume = Done (55125%float, st')
      /\ log st' = [].
Proof.
  assert (Hcode : int_code (cfg ModesExample.volume) = 0%Z) by reflexivity.
  assert (Hlen : length (perm_const_assumption ModesExample.volume)
                 = length (perm_indexes_assumption ModesExample.volume))
    by (vm_compute; reflexivity).
  split; [exact Hcode|]. split; [exact Hlen|].
  eexists. split.
  - rewrite (Eval_without_integrand_code [2%float] ModesExample.volume
                                         Hcode Hlen).
    vm_compute. reflexivity.
  - vm_compute. reflexivity.
Defined.

Lemma probability_suppressed_by_transfer_witness :
  exists st1,
    probability [2%float] 0 ModesExample.suppressing = Done (0%float, st1)
    /\ log st1 = [CallTransfer; CallCreatePS]
    /\ n_skip st1 = 0%nat.
Proof.
  edestruct (probability_suppressed_by_transfer
               [2%float] 0 ModesExample.suppressing) as (Hp & Hl & Hs & _).
  - vm_compute. discriminate.
  - vm_compute. reflexivity.
  - vm_compute. reflexivity.
  - vm_compute. discriminate.
  - vm_compute. reflexivity.
  - vm_compute. discriminate.
  - vm_compute. discriminate.
  - eexists. split; [exact Hp|]. split; [exact Hl | exact Hs].
Defined.

Lemma run_too_few_jets_efficiency_is_NaN_witness :
  length (obs_leptons Example.start5) = leptons_expected FinalState.LH
  /\ (length (obs_jets Example.start5) + length (@nil PSVar) / 2
      < quarks_expected FinalState.LH)%nat
  /\ exists out st',
      run FinalState.LH Hypo.TTH [] 7 Example.start5 = Done (out, st')
      /\ IsNaN (out_efficiency out) = true.
Proof.
  assert (Hlep : length (obs_leptons Example.start5)
                 = leptons_expected FinalState.LH) by reflexivity.
  assert (Hfew : (length (obs_jets Example.start5) + length (@nil PSVar) / 2
                  < quarks_expected FinalState.LH)%nat) by (vm_compute; lia).
  split; [exact Hlep|]. split; [exact Hfew|].
  destruct (run_too_few_jets_efficiency_is_NaN
              FinalState.LH Hypo.TTH [] 7 Example.start5 Hlep Hfew
              eq_refl eq_refl) as (out & st' & Hrun & _ & Hnan).
  exists out, st'. split; [exact Hrun | exact Hnan].
Defined.

(* ================================================================= *)
(** ** Bounds: lost quarks and integration ranges *)

Section Bounds.
Context {D : Type} `{Double D}.
Local Open Scope dbl_scope.

Lemma set_nat_defined {A} (v : list A) (x : A) :
  forall i : nat,
    ((i < length v)%nat -> exists v', set_nat v i x = Done v')
    /\ ((length v <= i)%nat -> set_nat v i x = Undefined).
Proof.
  induction v as [|a v IH]; intros i; cbn [set_nat length].
  - split; [lia | reflexivity].
  - destruct i as [|i]; [split; [eauto | lia]|].
    destruct (IH i) as [Hin Hout]. split.
    + intros Hi. destruct Hin as (v' & ->); [lia|]. cbn. eauto.
    + intros Hi. rewrite Hout by lia. reflexivity.
Qed.

Lemma designated_cons (it : PSVar) (rest : list PSVar) :
  designated (it :: rest) = it :: designated (tl rest).
Proof. destruct rest; reflexivity. Qed.

Lemma force_lost_defined_from (lost : list PSVar) :
  forall (count : nat) (perm : list Z),
    let slots := if Nat.even count then designated lost
                 else designated (tl lost) in
    ((forall it, In it slots -> (lost_particle it < length perm)%nat) ->
     exists perm', force_lost lost count perm = Done perm')
    /\ ((exists it, In it slots /\ (length perm <= lost_particle it)%nat) ->
        force_lost lost count perm = Undefined).
Proof.
  induction lost as [|it rest IH]; intros count perm slots.
  - subst slots. cbn. split; [eauto|].
    intros (it & Hin & _). destruct (Nat.even count); destruct Hin.
  - cbn [force_lost]. subst slots. cbn [tl].
    specialize (IH (S count)). rewrite Nat.even_succ in IH.
    rewrite <- Nat.negb_even in IH.
    destruct (Nat.even count) eqn:Hev; cbn [negb] in IH.
    + rewrite designated_cons in *.
      destruct (set_nat_defined perm (-1)%Z (lost_particle it)) as [Hin Hout].
      split.
      * intros Hall.
        destruct Hin as (perm1 & Hset); [apply Hall; left; reflexivity|].
        rewrite Hset. cbn [bind].
        destruct (set_nat_spec _ _ _ _ Hset) as (Hlen & _).
        apply (IH perm1). intros it' Hit'. rewrite Hlen.
        apply Hall. right. exact Hit'.
      * intros (it' & [<- | Hit'] & Hlong).
        -- rewrite Hout by exact Hlong. reflexivity.
        -- destruct (Nat.lt_ge_cases (lost_particle it) (length perm))
             as [Hlt | Hge].
           ++ destruct Hin as (perm1 & Hset); [exact Hlt|].
              rewrite Hset. cbn [bind].
              destruct (set_nat_spec _ _ _ _ Hset) as (Hlen & _).
              apply (IH perm1). exists it'. rewrite Hlen. auto.
           ++ rewrite Hout by exact Hge. reflexivity.
    + cbn [bind]. exact (IH perm).
Qed.

(** [make_assumption] writes [-1] at the position of every lost quark the
    caller designates.  The write is inside the permutation exactly when
    every designated position is below its length; one position beyond it
    and the behaviour is undefined.  A variable numbered 0 designates the
    position [(2^64 - 1) / 3]: the subtraction wraps around. *)
Theorem force_lost_defined (lost : list PSVar) (perm : list Z) :
  ((exists perm', force_lost lost 0 perm = Done perm')
   <-> forall it, In it (designated lost) ->
                  (lost_particle it < length perm)%nat)
  /\ (force_lost lost 0 perm = Undefined
      <-> exists it, In it (designated lost)
                     /\ (length perm <= lost_particle it)%nat)
  /\ lost_particle 0%Z = Z.to_nat 6148914691236517205.
Proof.
  assert (Hdec : (forall it, In it (designated lost) ->
                             (lost_particle it < length perm)%nat)
                 \/ exists it, In it (designated lost)
                               /\ (length perm <= lost_particle it)%nat).
  { induction (designated lost) as [|it l IHl].
    - left. intros ? [].
    - destruct (Nat.lt_ge_cases (lost_particle it) (length perm))
        as [Hlt | Hge].
      + destruct IHl as [Hall | (it' & Hit' & Hlong)].
        * left. intros it' [<- | Hit']; auto.
        * right. exists it'. split; [right|]; assumption.
      + right. exists it. split; [left; reflexivity | exact Hge]. }
  destruct (force_lost_defined_from lost 0 perm) as [Hin Hout].
  cbn [Nat.even] in Hin, Hout.
  split; [|split].
  - split; [|exact Hin].
    intros (perm' & Hdone). destruct Hdec as [Hall | Hbad]; [exact Hall|].
    rewrite (Hout Hbad) in Hdone. discriminate.
  - split; [|exact Hout].
    intros Hundef. destruct Hdec as [Hall | Hbad]; [|exact Hbad].
    destruct (Hin Hall) as (perm' & Hdone). congruence.
  - reflexivity.
Qed.

Lemma get_width_from_defined (xL xU : list D) :
  forall (n i : nat) (out : D),
    (i + n <= length xL)%nat -> (i + n <= length xU)%nat ->
    exists w, get_width_from xL xU n i out = Done w.
Proof.
  induction n as [|n IH]; intros i out HL HU; cbn [get_width_from]; [eauto|].
  rewrite (at_nat_nth xU i) by lia. rewrite (at_nat_nth xL i) by lia.
  cbn [bind]. apply IH; lia.
Qed.

End Bounds.

Section Volume.

Lemma get_width_from_real (xL xU : list R) :
  forall (n i : nat) (out w : R),
    get_width_from xL xU n i out = Done w ->
    exists p : R,
      w = (out * p)%R /\ (0 <= p)%R
      /\ (p = 0%R <-> exists k, (i <= k < i + n)%nat
                                /\ nth k xL 0%R = nth k xU 0%R)
      /\ get_width_from xU xL n i out = Done w.
Proof.
  induction n as [|n IH]; intros i out w Hw.
  - cbn in Hw. injection Hw as Hw. subst w. exists 1%R.
    split; [ring|]. split; [lra|]. split; [|reflexivity].
    split.
    + intros Hq. exfalso. lra.
    + intros (k & Hk & _). lia.
  - cbn [get_width_from] in Hw.
    apply bind_Done in Hw. destruct Hw as (u & Hu & Hw).
    apply bind_Done in Hw. destruct Hw as (l & Hl & Hw).
    apply IH in Hw. destruct Hw as (p & -> & Hp & Hzero & Hsym).
    assert (Hui : nth i xU 0%R = u).
    { unfold at_nat in Hu. destruct (nth_error xU i) eqn:Hn; try discriminate.
      injection Hu as <-. apply nth_error_nth. exact Hn. }
    assert (Hli : nth i xL 0%R = l).
    { unfold at_nat in Hl. destruct (nth_error xL i) eqn:Hn; try discriminate.
      injection Hl as <-. apply nth_error_nth. exact Hn. }
    exists (Rabs (u - l) * p)%R. cbn [dmul dabs dsub ideal].
    split; [ring|]. split.
    { apply Rmult_le_pos; [apply Rabs_pos | exact Hp]. }
    split.
    + split.
      * intros Hz. apply Rmult_integral in Hz. destruct Hz as [Hz | Hz].
        -- exists i. split; [lia|].
           rewrite Hui, Hli.
           destruct (Req_dec u l) as [-> | Hne]; [reflexivity|].
           apply Rabs_no_R0 in Hz; [destruct Hz | lra].
        -- apply Hzero in Hz. destruct Hz as (k & Hk & Heq).
           exists k. split; [lia | exact Heq].
      * intros (k & Hk & Heq).
        destruct (Nat.eq_dec k i) as [-> | Hne].
        -- rewrite Hui, Hli in Heq. rewrite Heq.
           unfold Rminus. rewrite Rplus_opp_r, Rabs_R0. ring.
        -- assert (Hz : p = 0%R)
             by (apply Hzero; exists k; split; [lia | exact Heq]).
           rewrite Hz. ring.
    + cbn [get_width_from]. rewrite Hl, Hu. cbn [bind].
      cbn [dmul dabs dsub ideal] in Hsym |- *.
      rewrite (Rabs_minus_sym l u). exact Hsym.
Qed.

(** The volume by which [make_assumption] divides when [cfg.int_code] is 0:
    with [nvar] edges on each side it is defined, it is not negative, it
    does not depend on which side is called lower, and it is zero exactly
    when some variable has an empty range. *)
Theorem get_width_volume (xL xU : list R) (nvar : nat) :
  (nvar <= length xL)%nat -> (nvar <= length xU)%nat ->
  exists w : R,
    get_width xL xU nvar = Done w
    /\ (0 <= w)%R
    /\ (w = 0%R <-> exists k, (k < nvar)%nat /\ nth k xL 0%R = nth k xU 0%R)
    /\ get_width xU xL nvar = Done w.
Proof.
  intros HL HU. unfold get_width.
  destruct (get_width_from_defined xL xU nvar 0 1%dbl) as (w & Hw);
    [lia | lia |].
  exists w. split; [exact Hw|].
  apply get_width_from_real in Hw.
  destruct Hw as (p & -> & Hp & Hzero & Hsym).
  assert (Hone : (1%dbl : R) = 1%R) by (cbn; lra).
  rewrite Hone. split; [lra|]. split; [|rewrite Hone in Hsym; exact Hsym].
  rewrite Rmult_1_l, Hzero. split; intros (k & Hk & Heq); exists k;
    (split; [lia | exact Heq]).
Qed.

End Volume.

Lemma force_lost_defined_witness :
  (exists perm', force_lost Example.lost_qbar1 0 [0; 1; 2; 3; 4; 5]%Z
                 = Done perm')
  /\ force_lost [19%Z; 20%Z] 0 [0; 1; 2; 3; 4; 5]%Z = Undefined.
Proof.
  split.
  - apply (proj1 (force_lost_defined Example.lost_qbar1 [0; 1; 2; 3; 4; 5]%Z)).
    intros it [<- | []]. vm_compute. lia.
  - apply (proj1 (proj2 (force_lost_defined [19%Z; 20%Z]
                                            [0; 1; 2; 3; 4; 5]%Z))).
    exists 19%Z. split; [left; reflexivity | vm_compute; lia].
Defined.

Lemma get_width_volume_witness :
  (2 <= length [0; -1]%R)%nat /\ (2 <= length [1; 1]%R)%nat
  /\ get_width [0; -1]%R [1; 1]%R 2 = Done 2%R.
Proof.
  assert (HL : (2 <= length [0; -1]%R)%nat) by (cbn; lia).
  assert (HU : (2 <= length [1; 1]%R)%nat) by (cbn; lia).
  split; [exact HL|]. split; [exact HU|].
  destruct (get_width_volume [0; -1]%R [1; 1]%R 2 HL HU) as (w & Hw & _).
  rewrite Hw. f_equal.
  unfold get_width in Hw. cbn in Hw. injection Hw as <-.
  replace (1 - 0)%R with 1%R by ring.
  replace (1 - -1)%R with 2%R by ring.
  rewrite !Rabs_pos_eq by lra. lra.
Defined.

(* ================================================================= *)
(** ** The energy windows and the permutation constants *)

Section Windows.
Context {D : Type} `{Double D} {ext : Collaborators D}.
Local Open Scope dbl_scope.

Lemma Observable_eqb_eq (x y : Observable.Observable) :
  Observable.eqb x y = true <-> x = y.
Proof. destruct x, y; cbn; split; intros Hq; try discriminate; reflexivity. Qed.

Lemma find_obs_app (l l' : list (Observable.Observable * D))
      (name : Observable.Observable) :
  find_obs (l ++ l') name
  = match find_obs l name with
    | Some v => Some v
    | None => find_obs l' name
    end.
Proof.
  induction l as [|[k v] l IH]; [reflexivity|].
  cbn [app find_obs]. destruct (Observable.eqb k name); [reflexivity | exact IH].
Qed.

(** [addObs] sets the observable and keeps what was set. *)
Lemma addObs_spec (o : Object D) (name : Observable.Observable) (v : D) :
  isSet (addObs o name v) name = true /\ extends o (addObs o name v).
Proof.
  unfold addObs, isSet, extends.
  destruct (find_obs (obs o) name) as [v0|] eqn:Hf.
  - rewrite Hf. auto.
  - cbn [obs p4]. rewrite find_obs_app, Hf. cbn [find_obs].
    assert (Hrefl : Observable.eqb name name = true)
      by (apply Observable_eqb_eq; reflexivity).
    rewrite Hrefl. split; [reflexivity|]. split; [reflexivity|].
    intros name' v' Hf'. rewrite find_obs_app, Hf'. reflexivity.
Qed.

Lemma extends_refl (o : Object D) : extends o o.
Proof. split; auto. Qed.

Lemma extends_trans (o1 o2 o3 : Object D) :
  extends o1 o2 -> extends o2 o3 -> extends o1 o3.
Proof. intros [Hp Hf] [Hp' Hf']. split; [congruence | auto]. Qed.

Lemma extends_isSet (o o' : Object D) (name : Observable.Observable) :
  extends o o' -> isSet o name = true -> isSet o' name = true.
Proof.
  intros [_ Hf]. unfold isSet.
  destruct (find_obs (obs o) name) as [v|] eqn:Hv; [|discriminate].
  rewrite (Hf _ _ Hv). reflexivity.
Qed.

Lemma addObs_other (o : Object D) (name name' : Observable.Observable)
      (v : D) :
  name' <> name ->
  find_obs (obs (addObs o name v)) name' = find_obs (obs o) name'.
Proof.
  intros Hne. unfold addObs.
  destruct (isSet o name); [reflexivity|].
  cbn [obs]. rewrite find_obs_app. cbn [find_obs].
  destruct (Observable.eqb name name') eqn:Heq.
  - apply Observable_eqb_eq in Heq. congruence.
  - destruct (find_obs (obs o) name'); reflexivity.
Qed.

(** One of the two [if]s of the loop over the jets of [init]. *)
Lemma add_pair_spec (o : Object D) (lo hi : Observable.Observable)
      (edges : D * D) :
  let o' := if negb (isSet o lo) || negb (isSet o hi)
            then addObs (addObs o lo (fst edges)) hi (snd edges)
            else o in
  isSet o' lo = true /\ isSet o' hi = true /\ extends o o'
  /\ (forall name, name <> lo -> name <> hi ->
                   find_obs (obs o') name = find_obs (obs o) name)
  /\ (isSet o lo = true -> isSet o hi = true -> o' = o).
Proof.
  cbv zeta.
  destruct (isSet o lo) eqn:Hlo; destruct (isSet o hi) eqn:Hhi; cbn [negb orb];
    try (repeat split; auto using extends_refl; fail);
    destruct (addObs_spec o lo (fst edges)) as [Hs1 He1];
    destruct (addObs_spec (addObs o lo (fst edges)) hi (snd edges))
      as [Hs2 He2];
    (split; [exact (extends_isSet _ _ _ He2 Hs1)|]);
    (split; [exact Hs2|]);
    (split; [exact (extends_trans _ _ _ He1 He2)|]);
    (split; [|intros; discriminate]);
    intros name Hnlo Hnhi; rewrite !addObs_other by assumption; reflexivity.
Qed.

Lemma isSet_same (o o' : Object D) (name : Observable.Observable) :
  find_obs (obs o') name = find_obs (obs o) name ->
  isSet o' name = isSet o name.
Proof. unfold isSet. intros ->. reflexivity. Qed.

Lemma add_edges_spec (st : Integrand D) (j : Object D) :
  has_windows (add_edges st j) /\ keeps_given j (add_edges st j).
Proof.
  unfold add_edges.
  pose proof (add_pair_spec j Observable.E_LOW_Q Observable.E_HIGH_Q
                            (get_support st j TFType.qReco)) as Hq.
  cbv zeta in Hq.
  set (j1 := if negb (isSet j Observable.E_LOW_Q)
                || negb (isSet j Observable.E_HIGH_Q)
             then _ else j) in *.
  destruct Hq as (Hq1 & Hq2 & Hqe & Hqo & Hqc).
  pose proof (add_pair_spec j1 Observable.E_LOW_B Observable.E_HIGH_B
                            (get_support st j1 TFType.bReco)) as Hb.
  cbv zeta in Hb.
  set (j2 := if negb (isSet j1 Observable.E_LOW_B)
                || negb (isSet j1 Observable.E_HIGH_B)
             then _ else j1) in *.
  destruct Hb as (Hb1 & Hb2 & Hbe & Hbo & Hbc).
  split.
  - unfold has_windows.
    repeat split; auto; eapply extends_isSet; eauto.
  - unfold keeps_given. cbv zeta.
    split; [destruct Hqe as [Hp1 _]; destruct Hbe as [Hp2 _]; congruence|].
    split; [rewrite Hbo, Hqo by discriminate; reflexivity|].
    split; [rewrite Hbo, Hqo by discriminate; reflexivity|].
    split.
    + intros Hlo Hhi. rewrite !Hbo by discriminate.
      rewrite (Hqc Hlo Hhi). split; reflexivity.
    + intros Hlo Hhi.
      assert (Hlo1 : isSet j1 Observable.E_LOW_B = true)
        by (rewrite (isSet_same j j1); [exact Hlo | apply Hqo; discriminate]).
      assert (Hhi1 : isSet j1 Observable.E_HIGH_B = true)
        by (rewrite (isSet_same j j1); [exact Hhi | apply Hqo; discriminate]).
      rewrite (Hbc Hlo1 Hhi1), !Hqo by discriminate. split; reflexivity.
Qed.

(** After [init] every jet has its four energy windows: a pair of edges
    that was not given completely is filled in from [get_support].  A pair
    that the caller gave completely keeps its values, as do the b-tag and
    the charge; the four-momenta and the number of jets are as before. *)
Theorem init_sets_windows
        (f : FinalState.FinalState) (h : Hypo.Hypo) (st st1 : Integrand D) :
  init f h st = Done st1 ->
  Forall has_windows (obs_jets st1)
  /\ Forall2 keeps_given (obs_jets st) (obs_jets st1).
Proof.
  intros Hinit. apply init_frame in Hinit.
  destruct Hinit as (_ & _ & _ & _ & -> & _).
  induction (obs_jets st) as [|j jets IH]; cbn [map].
  - split; constructor.
  - destruct IH as [IH1 IH2].
    destruct (add_edges_spec st j) as [Hw He].
    split; constructor; assumption.
Qed.

End Windows.

Lemma init_sets_windows_witness :
  exists st1,
    init FinalState.LH Hypo.TTH Example.start = Done st1
    /\ Forall has_windows (obs_jets st1)
    /\ length (obs_jets st1) = 6%nat.
Proof.
  destruct (init FinalState.LH Hypo.TTH Example.start) as [st1| |] eqn:Hinit.
  - exists st1. split; [reflexivity|].
    destruct (init_sets_windows _ _ _ _ Hinit) as [Hw He].
    split; [exact Hw|].
    apply Forall2_length in He. rewrite <- He. reflexivity.
  - vm_compute in Hinit. discriminate.
  - vm_compute in Hinit. discriminate.
Defined.

Section ConstantsDefined.
Context {D : Type} `{Double D} {ext : Collaborators D}.
Local Open Scope dbl_scope.

(** [get_permutation_constants] is the product of the widths, and defined
    when they are. *)
Lemma get_permutation_constants_as_widths (st : Integrand D) (perm : list Z) :
  get_permutation_constants st perm
  = (ws <- widths st perm (energy_slots (fs st) (hypo st)) ;;
     Done (fold_left dmul ws 1)).
Proof.
  unfold get_permutation_constants, energy_slots, DeltaE_q, DeltaE_b.
  destruct (fs st); destruct (Hypo.eqb (hypo st) Hypo.TTBB);
    cbn [widths app bind];
    repeat (match goal with
            | |- context [DeltaE ?s ?p ?part ?hi ?lo] =>
                destruct (DeltaE s p part hi lo); cbn [bind];
                try reflexivity
            end);
    reflexivity.
Qed.

(** One window width: defined exactly when the position holds an observed
    jet, provided the jets have their windows; undefined otherwise. *)
Lemma DeltaE_defined (st : Integrand D) (perm : list Z)
      (part : PSPart.PSPart) (hi lo : Observable.Observable) (pos : nat) :
  map_find (map_to_part st) part = Done pos ->
  ((exists w, DeltaE st perm part hi lo = Done w) -> real_jet st perm pos)
  /\ (Forall has_windows (obs_jets st) ->
      (hi = Observable.E_HIGH_Q /\ lo = Observable.E_LOW_Q)
      \/ (hi = Observable.E_HIGH_B /\ lo = Observable.E_LOW_B) ->
      real_jet st perm pos -> exists w, DeltaE st perm part hi lo = Done w).
Proof.
  intros Hpos. unfold DeltaE, real_jet. rewrite Hpos. cbn [bind]. split.
  - intros (w & Hw).
    apply bind_Done in Hw. destruct Hw as (j & Hj & Hw).
    apply bind_Done in Hw. destruct Hw as (obj & Hobj & _).
    apply at_nat_Done in Hj. apply at_int_Done in Hobj.
    destruct Hobj as [Hj0 Hobj].
    exists j. split; [exact Hj|].
    assert (Hlt : (Z.to_nat j < length (obs_jets st))%nat)
      by (apply nth_error_Some; congruence).
    lia.
  - intros Hwin Hpair (j & Hj & Hj0 & Hjn).
    apply at_nat_Done in Hj. rewrite Hj. cbn [bind].
    assert (Hlt : (Z.to_nat j < length (obs_jets st))%nat) by lia.
    destruct (nth_error (obs_jets st) (Z.to_nat j)) as [obj|] eqn:Hobj;
      [|apply nth_error_None in Hobj; lia].
    assert (Hat : at_int (obs_jets st) j = Done obj)
      by (apply at_int_Done; auto).
    rewrite Hat. cbn [bind].
    rewrite Forall_forall in Hwin.
    destruct (Hwin obj (nth_error_In _ _ Hobj)) as (H1 & H2 & H3 & H4).
    unfold isSet in H1, H2, H3, H4. unfold getObs.
    destruct Hpair as [[-> ->] | [-> ->]].
    + destruct (find_obs (obs obj) Observable.E_HIGH_Q); [|discriminate].
      destruct (find_obs (obs obj) Observable.E_LOW_Q); [|discriminate].
      cbn. eauto.
    + destruct (find_obs (obs obj) Observable.E_HIGH_B); [|discriminate].
      destruct (find_obs (obs obj) Observable.E_LOW_B); [|discriminate].
      cbn. eauto.
Qed.

Lemma widths_defined (st : Integrand D) (perm : list Z) :
  forall (slots : list (PSPart.PSPart * Observable.Observable
                        * Observable.Observable)) (poss : list nat),
    Forall2 (fun slot pos =>
               map_find (map_to_part st) (fst (fst slot)) = Done pos
               /\ ((snd (fst slot) = Observable.E_HIGH_Q
                    /\ snd slot = Observable.E_LOW_Q)
                   \/ (snd (fst slot) = Observable.E_HIGH_B
                       /\ snd slot = Observable.E_LOW_B)))
            slots poss ->
    ((exists ws, widths st perm slots = Done ws) ->
     Forall (real_jet st perm) poss)
    /\ (Forall has_windows (obs_jets st) ->
        Forall (real_jet st perm) poss ->
        exists ws, widths st perm slots = Done ws).
Proof.
  induction 1 as [|[[part hi] lo] pos slots poss [Hpos Hpair] Hrest IH];
    cbn [widths].
  - split; [constructor | eauto].
  - cbn [fst snd] in Hpos, Hpair.
    destruct (DeltaE_defined st perm part hi lo pos Hpos) as [Hd1 Hd2].
    destruct IH as [IH1 IH2]. split.
    + intros (ws & Hws).
      apply bind_Done in Hws. destruct Hws as (w & Hw & Hws).
      apply bind_Done in Hws. destruct Hws as (ws' & Hws' & _).
      constructor; [apply Hd1; eauto | apply IH1; eauto].
    + intros Hwin Hall. inversion Hall as [|? ? Hreal Hall']; subst.
      destruct (Hd2 Hwin Hpair Hreal) as (w & ->).
      destruct (IH2 Hwin Hall') as (ws & ->).
      cbn. eauto.
Qed.

(** The slots of [energy_slots] sit at [energy_positions] in the map of
    [fill_map]. *)
Lemma energy_slots_positions (lost : list PSVar) (st0 st : Integrand D) :
  fs st = fs st0 -> hypo st = hypo st0 ->
  map_to_part st = map_to_part (fill_map lost st0) ->
  fs st0 = FinalState.LH \/ fs st0 = FinalState.LL \/ fs st0 = FinalState.HH ->
  Forall2 (fun slot pos =>
             map_find (map_to_part st) (fst (fst slot)) = Done pos
             /\ ((snd (fst slot) = Observable.E_HIGH_Q
                  /\ snd slot = Observable.E_LOW_Q)
                 \/ (snd (fst slot) = Observable.E_HIGH_B
                     /\ snd slot = Observable.E_LOW_B)))
          (energy_slots (fs st) (hypo st))
          (energy_positions (fs st0) (hypo st0)).
Proof.
  intros Hfs Hhypo Hmap Hf. rewrite Hmap, Hfs, Hhypo.
  unfold fill_map, energy_slots, energy_positions.
  destruct Hf as [Hf | [Hf | Hf]]; rewrite Hf;
    destruct (Hypo.eqb (hypo st0) Hypo.TTBB); cbn [app];
    repeat (apply Forall2_cons;
            [split;
             [reflexivity
             | cbn; first [left; split; reflexivity
                          | right; split; reflexivity]]|]);
    apply Forall2_nil.
Qed.

(** The permutation constant is defined exactly for the permutations that
    give an observed jet to every quark whose energy is an integration
    variable: it reads the energy window of that jet, also when the
    position holds [-1], a lost quark. *)
Theorem get_permutation_constants_defined
        (lost : list PSVar) (st : Integrand D) (perm : list Z) :
  fs st = FinalState.LH \/ fs st = FinalState.LL \/ fs st = FinalState.HH ->
  Forall has_windows (obs_jets st) ->
  ((exists k, get_permutation_constants (fill_map lost st) perm = Done k)
   <-> Forall (real_jet st perm) (energy_positions (fs st) (hypo st))).
Proof.
  intros Hf Hwin.
  destruct (fill_map_frame lost st) as (Hfs & _ & Hjets & _).
  assert (Hhypo : hypo (fill_map lost st) = hypo st)
    by (unfold fill_map; destruct (fs st); reflexivity).
  pose proof (energy_slots_positions lost st (fill_map lost st)
                                     Hfs Hhypo eq_refl Hf) as Hslots.
  destruct (widths_defined (fill_map lost st) perm _ _ Hslots) as [Hw1 Hw2].
  assert (Hreal : forall pos, real_jet (fill_map lost st) perm pos
                              <-> real_jet st perm pos)
    by (intros pos; unfold real_jet; rewrite Hjets; tauto).
  rewrite get_permutation_constants_as_widths.
  split.
  - intros (k & Hk).
    apply bind_Done in Hk. destruct Hk as (ws & Hws & _).
    eapply Forall_impl; [intros pos; apply Hreal|].
    apply Hw1. eauto.
  - intros Hall.
    destruct Hw2 as (ws & ->).
    + rewrite Hjets. exact Hwin.
    + eapply Forall_impl; [intros pos; apply Hreal | exact Hall].
    + cbn. eauto.
Qed.



End ConstantsDefined.

Lemma get_permutation_constants_defined_witness :
  (fs Example.initialised = FinalState.LH
   \/ fs Example.initialised = FinalState.LL
   \/ fs Example.initialised = FinalState.HH)
  /\ Forall has_windows (obs_jets Example.initialised)
  /\ (exists k,
         get_permutation_constants (fill_map [] Example.initialised)
                                   [0; 1; 2; 3; 4; 5]%Z = Done k)
  /\ ~ (exists k,
           get_permutation_constants (fill_map [] Example.initialised)
                                     [-1; 1; 2; 3; 4; 5]%Z = Done k).
Proof.
  assert (Hfs : fs Example.initialised = FinalState.LH
                \/ fs Example.initialised = FinalState.LL
                \/ fs Example.initialised = FinalState.HH)
    by (left; vm_compute; reflexivity).
  assert (Hwin : Forall has_windows (obs_jets Example.initialised))
    by (vm_compute; repeat constructor).
  split; [exact Hfs|]. split; [exact Hwin|]. split.
  - apply (proj2 (get_permutation_constants_defined
                    [] Example.initialised [0; 1; 2; 3; 4; 5]%Z Hfs Hwin)).
    vm_compute. repeat constructor; eexists; (split; [reflexivity|]);
      split; discriminate || reflexivity.
  - intros Hk.
    apply (proj1 (get_permutation_constants_defined
                    [] Example.initialised [-1; 1; 2; 3; 4; 5]%Z Hfs Hwin))
      in Hk.
    inversion Hk as [|? ? (j & Hj & Hj0 & _) _]; subst.
    cbn in Hj. injection Hj as <-. lia.
Defined.


(* ================================================================= *)
(** ** The number of calls across runs and events *)

Section CallBudget.
Context {D : Type} `{Double D} {ext : Collaborators D}.
Local Open Scope dbl_scope.




End CallBudget.


Section WindowsOnce.
Context {D : Type} `{Double D} {ext : Collaborators D}.
Local Open Scope dbl_scope.

(** A jet that has its four windows passes the loop of [init] untouched. *)
Lemma add_edges_fixed (st : Integrand D) (j : Object D) :
  has_windows j -> add_edges st j = j.
Proof.
  intros (H1 & H2 & H3 & H4). unfold add_edges.
  rewrite H1, H2. cbn [negb orb]. rewrite H3, H4. reflexivity.
Qed.

Lemma map_fixed {A} (g : A -> A) (l : list A) :
  Forall (fun a => g a = a) l -> map g l = l.
Proof.
  induction 1 as [|a l Ha _ IH]; [reflexivity|].
  cbn [map]. rewrite Ha, IH. reflexivity.
Qed.

(** The jets after a run are those [init] left. *)
Lemma run_jets (f : FinalState.FinalState) (h : Hypo.Hypo)
      (lost : list PSVar) (time : Z) (st st' : Integrand D)
      (out : MEMOutput D) :
  run f h lost time st = Done (out, st') ->
  obs_jets st' = map (add_edges st) (obs_jets st).
Proof.
  unfold run. intros Hrun.
  apply bind_Done in Hrun. destruct Hrun as (st1 & Hinit & Hrun).
  apply bind_Done in Hrun. destruct Hrun as ([out1 st2] & Hmake & Hrun).
  injection Hrun as _ <-.
  apply init_frame in Hinit.
  destruct Hinit as (_ & _ & _ & _ & Hjets1 & _).
  cbn [obs_jets next_hypo].
  match type of Hmake with
  | make_assumption _ _ ?s = _ =>
      destruct (Nat.lt_ge_cases (length (obs_jets s) + length lost / 2)
                                (naive_jet_counting s)) as [Hfew | Hjets]
  end.
  - rewrite make_assumption_too_few_jets in Hmake by exact Hfew.
    injection Hmake as _ <-. exact Hjets1.
  - apply make_assumption_counters in Hmake; [|exact Hjets].
    destruct Hmake as (_ & _ & _ & _ & _ & _ & Hj).
    rewrite Hj. exact Hjets1.
Qed.

(** The energy windows are computed once for an event: after the first
    run every jet has its four windows, and [init] for any later final
    state and hypothesis leaves the jets exactly as they are, without a
    new value from [get_support]. *)
Theorem windows_computed_once
        (f : FinalState.FinalState) (h : Hypo.Hypo) (lost : list PSVar)
        (time : Z) (st st1 : Integrand D) (out : MEMOutput D) :
  run f h lost time st = Done (out, st1) ->
  Forall has_windows (obs_jets st1)
  /\ (forall f' h' st2,
         init f' h' st1 = Done st2 -> obs_jets st2 = obs_jets st1)
  /\ (forall f' h' lost' time' out2 st2,
         run f' h' lost' time' st1 = Done (out2, st2) ->
         obs_jets st2 = obs_jets st1).
Proof.
  intros Hrun. apply run_jets in Hrun.
  assert (Hwin : Forall has_windows (obs_jets st1)).
  { rewrite Hrun. apply Forall_map, Forall_forall.
    intros j _. apply add_edges_spec. }
  assert (Hfix : map (add_edges st1) (obs_jets st1) = obs_jets st1).
  { apply map_fixed. eapply Forall_impl; [|exact Hwin].
    intros j Hj. apply add_edges_fixed. exact Hj. }
  split; [exact Hwin|]. split.
  - intros f' h' st2 Hinit. apply init_frame in Hinit.
    destruct Hinit as (_ & _ & _ & _ & -> & _). exact Hfix.
  - intros f' h' lost' time' out2 st2 Hrun2.
    apply run_jets in Hrun2. rewrite Hrun2. exact Hfix.
Qed.

End WindowsOnce.

Lemma windows_computed_once_witness :
  exists out st1,
    run FinalState.LH Hypo.TTH [] 7 Example.start = Done (out, st1)
    /\ Forall has_windows (obs_jets st1)
    /\ exists out2 st2,
        run FinalState.LH Hypo.TTBB [] 7 st1 = Done (out2, st2)
        /\ obs_jets st2 = obs_jets st1.
Proof.
  destruct (run FinalState.LH Hypo.TTH [] 7 Example.start)
    as [[out st1]| |] eqn:Hrun.
  - exists out, st1. split; [reflexivity|].
    destruct (windows_computed_once _ _ _ _ _ _ _ Hrun) as (Hwin & _ & Hnext).
    split; [exact Hwin|].
    destruct (run FinalState.LH Hypo.TTBB [] 7 st1)
      as [[out2 st2]| |] eqn:Hrun2.
    + exists out2, st2. split; [reflexivity|].
      exact (Hnext _ _ _ _ _ _ Hrun2).
    + vm_compute in Hrun. injection Hrun as _ <-.
      vm_compute in Hrun2. discriminate.
    + vm_compute in Hrun. injection Hrun as _ <-.
      vm_compute in Hrun2. discriminate.
  - vm_compute in Hrun. discriminate.
  - vm_compute in Hrun. discriminate.
Defined.

(* ================================================================= *)
(** ** The integration ranges *)

Section RangeFacts.
Context {D : Type} `{Double D}.
Local Open Scope dbl_scope.

Variable v : PSVars.Names.
Variable TMath_Pi : D.
Variable m_range_CL : D.
Variable emax : D.
Variable get_support_MET : D -> D -> D -> D * D.

Local Abbreviation get_edges_ :=
  (Ranges.get_edges v TMath_Pi m_range_CL emax get_support_MET).
Local Abbreviation edges_of_ :=
  (Ranges.edges_of v TMath_Pi m_range_CL emax get_support_MET).
Local Abbreviation phi_edge_ :=
  (phi_edge TMath_Pi m_range_CL get_support_MET).

Lemma fill_lost_lookup (k : PSVar) :
  forall (ks : list PSVar) (c : nat) (m : VarMap),
    NoDup ks ->
    var_lookup (fill_lost ks c m) k
    = match index_of k ks with
      | Some i => Some (c + i)%nat
      | None => var_lookup m k
      end.
Proof.
  induction ks as [|k' ks IH]; intros c m Hnd; [reflexivity|].
  inversion Hnd as [|? ? Hnotin Hnd']; subst.
  cbn [fill_lost index_of]. rewrite IH by exact Hnd'.
  destruct (Z.eqb_spec k' k) as [-> | Hne].
  - assert (Hnone : index_of k ks = None).
    { clear -Hnotin. induction ks as [|a ks IHks]; [reflexivity|].
      cbn [index_of]. destruct (Z.eqb_spec a k) as [-> | Hne].
      - exfalso. apply Hnotin. left. reflexivity.
      - rewrite IHks; [reflexivity|]. intros Hin. apply Hnotin. right.
        exact Hin. }
    rewrite Hnone. cbn [var_lookup var_set]. rewrite Z.eqb_refl.
    f_equal. lia.
  - destruct (index_of k ks) as [i|].
    + f_equal. lia.
    + cbn [var_lookup var_set].
      destruct (Z.eqb_spec k' k); [contradiction | reflexivity].
Qed.

Lemma index_of_nth (ks : list PSVar) :
  NoDup ks ->
  forall (i : nat) (k : PSVar),
    nth_error ks i = Some k -> index_of k ks = Some i.
Proof.
  induction 1 as [|k' ks Hnotin _ IH]; intros i k Hi.
  - destruct i; discriminate.
  - destruct i as [|i]; cbn [nth_error] in Hi; cbn [index_of].
    + injection Hi as ->. rewrite Z.eqb_refl. reflexivity.
    + destruct (Z.eqb_spec k' k) as [-> | Hne].
      * exfalso. apply Hnotin. eapply nth_error_In. exact Hi.
      * rewrite (IH _ _ Hi). reflexivity.
Qed.

Lemma fill_lost_app (ks ks' : list PSVar) (c : nat) (m : VarMap) :
  fill_lost (ks ++ ks') c m = fill_lost ks' (c + length ks) (fill_lost ks c m).
Proof.
  revert c m. induction ks as [|k ks IH]; intros c m; cbn [app fill_lost length].
  - rewrite Nat.add_0_r. reflexivity.
  - rewrite IH. f_equal. lia.
Qed.

(** [fill_map] numbers the named variables and then the lost ones, in
    order, from 0. *)
Lemma fill_map_to_var_numbers (lost : list PSVar)
      (f : FinalState.FinalState) (h : Hypo.Hypo) :
  fill_map_to_var v lost f h []
  = fill_lost (named_vars v f h
               ++ match f with
                  | FinalState.LH | FinalState.LL | FinalState.HH => lost
                  | _ => []
                  end) 0 [].
Proof.
  unfold fill_map_to_var, named_vars.
  destruct f; destruct (Hypo.eqb h Hypo.TTBB);
    rewrite ?fill_lost_app; reflexivity.
Qed.

Lemma set_nat_app {A} (l1 l2 : list A) (a x : A) :
  set_nat (l1 ++ a :: l2) (length l1) x = Done (l1 ++ x :: l2).
Proof.
  induction l1 as [|b l1 IH]; cbn [app length set_nat]; [reflexivity|].
  rewrite IH. reflexivity.
Qed.

Lemma set_nat_beyond {A} (l : list A) (i : nat) (x : A) :
  (length l <= i)%nat -> set_nat l i x = Undefined.
Proof.
  revert i. induction l as [|b l IH]; intros i Hi; cbn [set_nat];
    [reflexivity|].
  destruct i as [|i]; cbn [length] in Hi; [lia|].
  rewrite IH by lia. reflexivity.
Qed.

(** A list of assignments to the positions after those written so far. *)
Lemma write_all_next (m : VarMap) :
  forall (kxs : list (PSVar * D)) (done : list D) (free : nat),
    (forall i k x, nth_error kxs i = Some (k, x) ->
                   var_lookup m k = Some (length done + i)%nat) ->
    (length kxs <= free)%nat ->
    write_all kxs (map Some done ++ repeat None free) m
    = Done (map Some (done ++ map snd kxs)
              ++ repeat None (free - length kxs), m).
Proof.
  induction kxs as [|[k x] kxs IH]; intros done free Hidx Hfree.
  - cbn [write_all map length]. rewrite app_nil_r, Nat.sub_0_r. reflexivity.
  - cbn [write_all length] in *.
    destruct free as [|free]; [lia|].
    unfold Ranges.write, var_index.
    rewrite (Hidx 0%nat k x eq_refl), Nat.add_0_r.
    cbn [repeat].
    replace (length done) with (length (map Some done : list (option D)))
      by apply length_map.
    rewrite set_nat_app. cbn [bind].
    replace (map Some done ++ Some x :: repeat None free)
      with (map Some (done ++ [x]) ++ repeat (@None D) free)
      by (rewrite map_app, <- app_assoc; reflexivity).
    rewrite IH.
    + cbn [map snd]. rewrite <- app_assoc. reflexivity.
    + intros i k' x' Hi. rewrite (Hidx (S i) k' x' Hi).
      rewrite length_app. cbn [length]. f_equal. lia.
    + lia.
Qed.

Lemma edges_lost_as_write_all (edge : bool) :
  forall (lost : list PSVar) (count_extra : nat) (lim : list (option D))
         (m : VarMap),
    Ranges.edges_lost TMath_Pi lost count_extra edge lim m
    = write_all (combine lost
                         (lost_edges TMath_Pi edge count_extra (length lost)))
                lim m.
Proof.
  induction lost as [|l lost IH]; intros count_extra lim m; [reflexivity|].
  cbn [Ranges.edges_lost length lost_edges combine write_all].
  destruct (Ranges.write lim m l _) as [[lim' m']| |]; cbn [bind];
    [apply IH | reflexivity | reflexivity].
Qed.

Lemma write_all_app (kxs kxs' : list (PSVar * D)) :
  forall (lim : list (option D)) (m : VarMap),
    write_all (kxs ++ kxs') lim m
    = ('(lim, m) <- write_all kxs lim m ;; write_all kxs' lim m).
Proof.
  induction kxs as [|[k x] kxs IH]; intros lim m; [reflexivity|].
  cbn [app write_all].
  destruct (Ranges.write lim m k x) as [[lim' m']| |]; cbn [bind];
    [apply IH | reflexivity | reflexivity].
Qed.

(** With a MET object, [get_edges] is the list of assignments to the named
    variables followed by those to the lost ones. *)
Lemma get_edges_as_write_all
      (st : Integrand D) (met : Object D) (mets : list (Object D))
      (m : VarMap) (lim : list (option D)) (lost : list PSVar) (nvar : nat)
      (edge : bool) :
  obs_mets st = met :: mets ->
  get_edges_ st m lim lost nvar edge
  = write_all (combine (named_vars v (fs st) (hypo st))
                       (named_edges TMath_Pi emax (phi_edge_ met edge)
                                    (fs st) (hypo st) edge)
               ++ match fs st with
                  | FinalState.LH | FinalState.LL | FinalState.HH =>
                      combine lost
                              (lost_edges TMath_Pi edge 0 (length lost))
                  | _ => []
                  end) lim m.
Proof.
  intros Hmet. unfold Ranges.get_edges. rewrite Hmet.
  cbn [at_nat nth_error bind].
  unfold named_vars, named_edges, phi_edge.
  destruct (fs st); destruct (Hypo.eqb (hypo st) Hypo.TTBB);
    cbn [app combine write_all];
    repeat (match goal with
            | |- context [Ranges.write ?l ?mm ?k ?x] =>
                destruct (Ranges.write l mm k x) as [[? ?]| |]; cbn [bind];
                try reflexivity
            end);
    rewrite ?edges_lost_as_write_all; reflexivity.
Qed.

Lemma combine_append {A B} (l1 l2 : list A) (r1 r2 : list B) :
  length l1 = length r1 ->
  combine l1 r1 ++ combine l2 r2 = combine (l1 ++ l2) (r1 ++ r2).
Proof.
  revert r1. induction l1 as [|a l1 IH]; intros [|b r1] Hl;
    try discriminate; [reflexivity|].
  cbn [combine app]. rewrite IH by (injection Hl; auto). reflexivity.
Qed.

Lemma map_fst_combine {A B} (l : list A) (r : list B) :
  length l = length r -> map fst (combine l r) = l.
Proof.
  revert r. induction l as [|a l IH]; intros [|b r] Hl; try discriminate;
    [reflexivity|].
  cbn [combine map fst]. rewrite IH by (injection Hl; auto). reflexivity.
Qed.

Lemma map_snd_combine {A B} (l : list A) (r : list B) :
  length l = length r -> map snd (combine l r) = r.
Proof.
  revert r. induction l as [|a l IH]; intros [|b r] Hl; try discriminate;
    [reflexivity|].
  cbn [combine map snd]. rewrite IH by (injection Hl; auto). reflexivity.
Qed.

Lemma lost_edges_length (edge : bool) :
  forall (n c : nat), length (lost_edges TMath_Pi edge c n) = n.
Proof.
  induction n as [|n IH]; intros c; cbn [lost_edges length];
    [reflexivity | rewrite IH; reflexivity].
Qed.

Lemma init_num_of_vars (f : FinalState.FinalState) (h : Hypo.Hypo)
      {ext : Collaborators D} (st st1 : Integrand D) :
  init f h st = Done st1 ->
  let unstable :=
    match f with
    | FinalState.LH | FinalState.LL | FinalState.HH => true
    | _ => false
    end in
  let dim :=
    (8 * Z_of_bool unstable
     + (3 * Z_of_bool (Hypo.eqb h Hypo.TTH)
        + 4 * Z_of_bool (Hypo.eqb h Hypo.TTBB)) * Z_of_bool (negb unstable))%Z in
  num_of_vars st1
  = (3 * dim - 3 * Z.of_nat (leptons_expected f)
     - 2 * Z.of_nat (quarks_expected f) - 4 * Z_of_bool unstable
     - Z_of_bool (Hypo.eqb h Hypo.TTH && unstable)
     - 2 * Z_of_bool (length (obs_mets st) =? 0)%nat)%Z
  /\ ps_dim st1 = dim.
Proof.
  unfold init.
  destruct (Nat.eqb_spec (length (obs_leptons st)) (leptons_expected f))
    as [Hlep | Hlep]; cbn [negb]; [|discriminate].
  intros [= <-]. cbn [num_of_vars ps_dim]. rewrite Hlep. split; reflexivity.
Qed.

(** The integration ranges of a final state with decays.  After [init],
    with a MET object, a hypothesis and variables that are all different,
    the number of variables that [init] counts is the number [fill_map]
    lays out, and [get_edges] writes every one of the [npar] edges: those
    of the named variables, then a cosine in [-1,1] and an azimuth in
    [-pi,pi] for each lost quark. *)
Theorem integration_ranges_all_written
        {ext : Collaborators D}
        (f : FinalState.FinalState) (h : Hypo.Hypo) (st st1 : Integrand D)
        (met : Object D) (mets : list (Object D)) (lost : list PSVar) :
  init f h st = Done st1 ->
  obs_mets st = met :: mets ->
  f = FinalState.LH \/ f = FinalState.LL \/ f = FinalState.HH ->
  h = Hypo.TTH \/ h = Hypo.TTBB ->
  NoDup (named_vars v f h ++ lost) ->
  let npar := Z.to_nat (num_of_vars st1 + Z.of_nat (length lost)) in
  npar = (length (named_vars v f h) + length lost)%nat
  /\ forall edge : bool,
      edges_of_ st1 lost npar edge
      = Done (map Some (named_edges TMath_Pi emax (phi_edge_ met edge)
                                    f h edge
                        ++ lost_edges TMath_Pi edge 0 (length lost))).
Proof.
  intros Hinit Hmet Hf Hh Hnd npar.
  pose proof (init_num_of_vars _ _ _ _ Hinit) as [Hnum _].
  cbv zeta in Hnum. rewrite Hmet in Hnum. cbn [length Nat.eqb] in Hnum.
  apply init_frame in Hinit.
  destruct Hinit as (_ & Hfs & Hhypo & _ & _ & _ & Hmets & _).
  assert (Hnpar : npar = (length (named_vars v f h) + length lost)%nat).
  { subst npar. rewrite Hnum. unfold named_vars.
    destruct Hf as [-> | [-> | ->]]; destruct Hh as [-> | ->];
      cbn [Z_of_bool Hypo.eqb leptons_expected quarks_expected negb andb
           app length]; lia. }
  split; [exact Hnpar|].
  intros edge. unfold Ranges.edges_of.
  rewrite (get_edges_as_write_all st1 met mets) by (rewrite Hmets; exact Hmet).
  rewrite Hfs, Hhypo, Hnpar, fill_map_to_var_numbers.
  set (ks := named_vars v f h) in *.
  set (xs := named_edges TMath_Pi emax (phi_edge_ met edge) f h edge).
  assert (Hlen : length xs = length ks).
  { subst xs ks. unfold named_edges, named_vars.
    destruct Hf as [-> | [-> | ->]]; destruct (Hypo.eqb h Hypo.TTBB);
      reflexivity. }
  assert (Hlen' : forall c, length (lost_edges TMath_Pi edge c (length lost))
                            = length lost)
    by (intros c; apply lost_edges_length).
  assert (Hcomb :
            (combine ks xs
             ++ match f with
                | FinalState.LH | FinalState.LL | FinalState.HH =>
                    combine lost (lost_edges TMath_Pi edge 0 (length lost))
                | _ => []
                end)
            = combine (ks ++ lost)
                      (xs ++ lost_edges TMath_Pi edge 0 (length lost))).
  { rewrite <- combine_append by (symmetry; exact Hlen).
    destruct Hf as [-> | [-> | ->]]; reflexivity. }
  rewrite Hcomb.
  assert (Hks : (ks ++ match f with
                       | FinalState.LH | FinalState.LL | FinalState.HH => lost
                       | _ => []
                       end) = ks ++ lost)
    by (destruct Hf as [-> | [-> | ->]]; reflexivity).
  rewrite Hks.
  pose proof (write_all_next
                (fill_lost (ks ++ lost) 0 [])
                (combine (ks ++ lost)
                         (xs ++ lost_edges TMath_Pi edge 0 (length lost)))
                [] (length ks + length lost)) as Hw.
  cbn [map app length] in Hw.
  rewrite Hw.
  - rewrite length_combine, !length_app, Hlen, Hlen', Nat.min_id.
    rewrite Nat.sub_diag. cbn [repeat]. rewrite app_nil_r.
    rewrite map_snd_combine by (rewrite !length_app, Hlen, Hlen'; reflexivity).
    reflexivity.
  - intros i k x Hi. cbn [Nat.add].
    rewrite fill_lost_lookup by exact Hnd.
    assert (Hk : nth_error (ks ++ lost) i = Some k).
    { apply (f_equal (option_map fst)) in Hi.
      rewrite <- nth_error_map in Hi.
      rewrite map_fst_combine in Hi
        by (rewrite !length_app, Hlen, Hlen'; reflexivity).
      exact Hi. }
    rewrite (index_of_nth _ Hnd _ _ Hk). reflexivity.
  - rewrite length_combine, !length_app, Hlen, Hlen'. lia.
Qed.

(** The integration ranges of the final state without decays.  After
    [init] with a MET object the number of variables is 9 for the ttH
    hypothesis and 12 for ttbb, while [fill_map] lays out 7 and [get_edges]
    writes the edges of these 7: the edges from position 7 on are never
    written. *)
Theorem TTH_ranges_not_all_written
        {ext : Collaborators D}
        (h : Hypo.Hypo) (st st1 : Integrand D)
        (met : Object D) (mets : list (Object D)) (lost : list PSVar) :
  init FinalState.TTH h st = Done st1 ->
  obs_mets st = met :: mets ->
  h = Hypo.TTH \/ h = Hypo.TTBB ->
  NoDup (named_vars v FinalState.TTH h) ->
  let npar := Z.to_nat (num_of_vars st1 + Z.of_nat (length lost)) in
  npar = ((if Hypo.eqb h Hypo.TTH then 9 else 12) + length lost)%nat
  /\ forall edge : bool,
      edges_of_ st1 lost npar edge
      = Done (map Some (named_edges TMath_Pi emax (phi_edge_ met edge)
                                    FinalState.TTH h edge)
              ++ repeat None (npar - 7)).
Proof.
  intros Hinit Hmet Hh Hnd npar.
  pose proof (init_num_of_vars _ _ _ _ Hinit) as [Hnum _].
  cbv zeta in Hnum. rewrite Hmet in Hnum. cbn [length Nat.eqb] in Hnum.
  apply init_frame in Hinit.
  destruct Hinit as (_ & Hfs & Hhypo & _ & _ & _ & Hmets & _).
  assert (Hnpar : npar
                  = ((if Hypo.eqb h Hypo.TTH then 9 else 12)
                     + length lost)%nat).
  { subst npar. rewrite Hnum.
    destruct Hh as [-> | ->];
      cbn [Z_of_bool Hypo.eqb leptons_expected quarks_expected negb andb];
      lia. }
  split; [exact Hnpar|].
  intros edge. unfold Ranges.edges_of.
  rewrite (get_edges_as_write_all st1 met mets) by (rewrite Hmets; exact Hmet).
  rewrite Hfs, Hhypo, fill_map_to_var_numbers, !app_nil_r.
  set (ks := named_vars v FinalState.TTH h) in *.
  set (xs := named_edges TMath_Pi emax (phi_edge_ met edge)
                         FinalState.TTH h edge).
  assert (Hks : length ks = 7%nat) by reflexivity.
  assert (Hxs : length xs = 7%nat) by reflexivity.
  pose proof (write_all_next (fill_lost ks 0 []) (combine ks xs) [] npar)
    as Hw.
  cbn [map app length] in Hw.
  rewrite Hw.
  - rewrite length_combine, Hks, Hxs. cbn [Nat.min].
    rewrite map_snd_combine by congruence. reflexivity.
  - intros i k x Hi. cbn [Nat.add].
    rewrite fill_lost_lookup by exact Hnd.
    assert (Hk : nth_error ks i = Some k).
    { apply (f_equal (option_map fst)) in Hi.
      rewrite <- nth_error_map in Hi.
      rewrite map_fst_combine in Hi by congruence.
      exact Hi. }
    rewrite (index_of_nth _ Hnd _ _ Hk). reflexivity.
  - rewrite length_combine, Hks, Hxs, Hnpar. cbn [Nat.min].
    destruct (Hypo.eqb h Hypo.TTH); lia.
Qed.

Lemma remove_unwanted_mets {ext : Collaborators D} (lost : list PSVar) :
  forall (perms : list (list Z)) (st st' : Integrand D),
    remove_unwanted lost perms st = Done st' ->
    obs_mets st' = obs_mets st.
Proof.
  induction perms as [|raw perms IH]; intros st st' Hrun.
  - injection Hrun as <-. reflexivity.
  - cbn [remove_unwanted] in Hrun.
    apply bind_Done in Hrun. destruct Hrun as (perm & _ & Hrun).
    destruct (negb _); [apply IH; exact Hrun|].
    apply bind_Done in Hrun. destruct Hrun as (ok & _ & Hrun).
    destruct (negb ok); [apply IH; exact Hrun|].
    apply bind_Done in Hrun. destruct Hrun as (k & _ & Hrun).
    apply IH in Hrun. exact Hrun.
Qed.

(** Every final state needs a MET object: [get_edges] reads [obs_mets[0]]
    before it looks at the final state.  With [get_edges] as the source
    has it and no MET object, a run whose jets suffice for the assumption
    does not return a result. *)
Theorem run_needs_MET
        (ext : Collaborators D)
        (f : FinalState.FinalState) (h : Hypo.Hypo) (lost : list PSVar)
        (time : Z) (st : Integrand D) :
  obs_mets st = [] ->
  (quarks_expected f <= length (obs_jets st) + length lost / 2)%nat ->
  forall (out : MEMOutput D) (st' : Integrand D),
    run (ext := with_get_edges v TMath_Pi m_range_CL emax get_support_MET ext)
        f h lost time st
    <> Done (out, st').
Proof.
  intros Hmet Hjets out st' Hrun.
  unfold run in Hrun.
  apply bind_Done in Hrun. destruct Hrun as (st1 & Hinit & Hrun).
  apply bind_Done in Hrun. destruct Hrun as ([out1 st2] & Hmake & _).
  apply init_frame in Hinit.
  destruct Hinit as (_ & _ & _ & Hnaive & Hjets1 & _ & Hmets & _).
  assert (Hlen : length (obs_jets st1) = length (obs_jets st))
    by (rewrite Hjets1; apply length_map).
  unfold make_assumption, test_assumption in Hmake.
  cbn [obs_jets naive_jet_counting set_n_max_calls] in Hmake.
  assert (Hok : (length (obs_jets st1) + length lost / 2
                 <? naive_jet_counting st1)%nat = false)
    by (apply Nat.ltb_ge; rewrite Hlen, Hnaive; exact Hjets).
  rewrite Hok in Hmake. cbn [negb] in Hmake.
  apply bind_Done in Hmake. destruct Hmake as (st3 & Hrm & Hmake).
  apply remove_unwanted_mets in Hrm.
  assert (Hnil : obs_mets st3 = []).
  { rewrite Hrm. unfold fill_map. cbn [fs set_assumption set_extra_jets
                                        set_n_max_calls].
    destruct (fs st1); cbn; rewrite Hmets; exact Hmet. }
  apply bind_Done in Hmake. destruct Hmake as (xL & HxL & _).
  cbn [get_edges with_get_edges] in HxL.
  unfold Ranges.edges_of, Ranges.get_edges in HxL.
  rewrite Hnil in HxL. cbn in HxL. discriminate.
Qed.

End RangeFacts.

Lemma integration_ranges_all_written_witness :
  exists st1,
    init FinalState.LH Hypo.TTH EdgesExample.event = Done st1
    /\ Z.to_nat (num_of_vars st1 + Z.of_nat (length Example.lost_qbar1))
       = 6%nat
    /\ Ranges.edges_of EdgesExample.names EdgesExample.pi 1%float 8000%float
                       (fun _ _ _ => (0%float, 0%float))
                       st1 Example.lost_qbar1 6 true
       = Done (map Some [1; 1; EdgesExample.pi; 1; 1; EdgesExample.pi]%float).
Proof.
  destruct (init FinalState.LH Hypo.TTH EdgesExample.event)
    as [st1| |] eqn:Hinit.
  - exists st1. split; [reflexivity|].
    assert (Hnd : NoDup (named_vars EdgesExample.names FinalState.LH Hypo.TTH
                         ++ Example.lost_qbar1)).
    { cbn. repeat constructor; cbn; intuition discriminate. }
    destruct (integration_ranges_all_written
                EdgesExample.names EdgesExample.pi 1%float 8000%float
                (fun _ _ _ => (0%float, 0%float))
                FinalState.LH Hypo.TTH EdgesExample.event st1
                EdgesExample.met [] Example.lost_qbar1
                Hinit eq_refl (or_introl eq_refl) (or_introl eq_refl) Hnd)
      as [Hnpar Hedges].
    rewrite Hnpar in Hedges.
    change (length (named_vars EdgesExample.names FinalState.LH Hypo.TTH)
            + length Example.lost_qbar1)%nat with 6%nat in Hedges, Hnpar.
    split; [exact Hnpar|].
    rewrite (Hedges true). vm_compute. reflexivity.
  - vm_compute in Hinit. discriminate.
  - vm_compute in Hinit. discriminate.
Defined.

Lemma TTH_ranges_not_all_written_witness :
  let event :=
    set_objects Example.start (obs_jets Example.start) [] [EdgesExample.met] in
  exists st1,
    init FinalState.TTH Hypo.TTH event = Done st1
    /\ Z.to_nat (num_of_vars st1 + 0) = 9%nat
    /\ exists written,
        Ranges.edges_of EdgesExample.names EdgesExample.pi 1%float 8000%float
                        (fun _ _ _ => (0%float, 0%float)) st1 [] 9 true
        = Done (map Some written ++ [None; None])
        /\ length written = 7%nat.
Proof.
  cbv zeta.
  destruct (init FinalState.TTH Hypo.TTH
                 (set_objects Example.start (obs_jets Example.start) []
                              [EdgesExample.met])) as [st1| |] eqn:Hinit.
  - exists st1. split; [reflexivity|].
    assert (Hnd : NoDup (named_vars EdgesExample.names FinalState.TTH
                                    Hypo.TTH)).
    { cbn. repeat constructor; cbn; intuition discriminate. }
    destruct (TTH_ranges_not_all_written
                EdgesExample.names EdgesExample.pi 1%float 8000%float
                (fun _ _ _ => (0%float, 0%float))
                Hypo.TTH _ st1 EdgesExample.met [] []
                Hinit eq_refl (or_introl eq_refl) Hnd)
      as [Hnpar Hedges].
    rewrite Hnpar in Hedges.
    cbn [length Z.of_nat Hypo.eqb Nat.add Nat.sub] in Hnpar, Hedges.
    split; [exact Hnpar|].
    exists (named_edges EdgesExample.pi 8000%float
                        (phi_edge EdgesExample.pi 1%float
                                  (fun _ _ _ => (0%float, 0%float))
                                  EdgesExample.met true)
                        FinalState.TTH Hypo.TTH true).
    split; [exact (Hedges true) | reflexivity].
  - vm_compute in Hinit. discriminate.
  - vm_compute in Hinit. discriminate.
Defined.

Lemma run_needs_MET_witness :
  obs_mets Example.start = []
  /\ (quarks_expected FinalState.LH
      <= length (obs_jets Example.start) + length (@nil PSVar) / 2)%nat
  /\ run (ext := EdgesExample.ext) FinalState.LH Hypo.TTH [] 7 Example.start
     = Undefined.
Proof.
  assert (Hmet : obs_mets Example.start = []) by reflexivity.
  assert (Hjets : (quarks_expected FinalState.LH
                   <= length (obs_jets Example.start)
                      + length (@nil PSVar) / 2)%nat) by (vm_compute; lia).
  split; [exact Hmet|]. split; [exact Hjets|].
  destruct (run (ext := EdgesExample.ext) FinalState.LH Hypo.TTH [] 7
                Example.start) as [[out st']| |] eqn:Hrun.
  - exfalso.
    exact (run_needs_MET EdgesExample.names EdgesExample.pi 1%float
                         8000%float (fun _ _ _ => (0%float, 0%float))
                         Example.ext FinalState.LH Hypo.TTH [] 7
                         Example.start Hmet Hjets out st' Hrun).
  - vm_compute in Hrun. discriminate.
  - reflexivity.
Defined.

(* ================================================================= *)
(** ** The phase-space builders *)

Section BuilderTTH.
Context {geo : Geo.Geometry R}.
Variable c : Const.Constants R.
Variable v : PSVars.Names.
Variable m : VarMap.

Lemma PS_lv_set (ps : PS R) (part : PSPart.PSPart) (g : GenPart R) :
  PS_lv (PS_set ps part g) part = Done (lv g).
Proof. unfold PS_lv, PS_set. cbn [PS_find]. rewrite PSPart_eqb_refl. reflexivity. Qed.

Lemma PS_lv_set_other (ps : PS R) (part part' : PSPart.PSPart) (g : GenPart R) :
  PSPart.eqb part part' = false ->
  PS_lv (PS_set ps part g) part' = PS_lv ps part'.
Proof. intros Hne. unfold PS_lv, PS_set. cbn [PS_find]. rewrite Hne. reflexivity. Qed.

(** The energy [sqrt(p2 + M*M)] is at least the mass: the clamp of
    [extend_PS] keeps it, and the momentum it computes is [sqrt(p2)]. *)
Lemma on_shell_energy (p2 M : R) :
  (0 <= p2)%R -> (0 <= M)%R ->
  TMath_Max (sqrt (p2 + M * M)) M = sqrt (p2 + M * M)
  /\ sqrt (sqrt (p2 + M * M) * sqrt (p2 + M * M) - M * M) = sqrt p2
  /\ (sqrt (p2 + M * M) * sqrt (p2 + M * M) = p2 + M * M)%R.
Proof.
  intros Hp HM.
  assert (Hsq : (sqrt (p2 + M * M) * sqrt (p2 + M * M) = p2 + M * M)%R)
    by (apply sqrt_sqrt; nra).
  assert (Hge : (M <= sqrt (p2 + M * M))%R).
  { rewrite <- (sqrt_square M) at 1 by exact HM.
    apply sqrt_le_1_alt. lra. }
  split; [|split; [|exact Hsq]].
  - rewrite TMath_Max_real. apply Rmax_left. exact Hge.
  - rewrite Hsq. f_equal. ring.
Qed.

Lemma Mag2_nonneg (u : TVector3 R) : (0 <= Mag2 u)%R.
Proof. unfold Mag2. cbn. nra. Qed.

(** [extend_PS_nodebug] with the energy [sqrt(|d|^2 + M2)] along [d]:
    the particle gets the momentum [d] and is on its mass shell. *)
Lemma extend_PS_on_shell (ps : PS R) (part : PSPart.PSPart)
      (d : TVector3 R) (M M2 : R) :
  (forall u : TVector3 R, scale (Geo.Unit u) (sqrt (Mag2 u)) = u) ->
  (0 <= M)%R -> M2 = (M * M)%R ->
  extend_PS_nodebug ps part (dsqrt (dadd (Mag2 d) M2)) M (Geo.Unit d)
  = PS_set ps part
           {| lv := {| Vect := d; E := sqrt (Mag2 d + M * M) |};
              type := TFType.Unknown; charge := 0%Z |}.
Proof.
  intros Hunit HM ->.
  destruct (on_shell_energy (Mag2 d) M (Mag2_nonneg d) HM)
    as (Hmax & Hmom & _).
  unfold extend_PS_nodebug.
  change (dsqrt (dadd (Mag2 d) (M * M)%R)) with (sqrt (Mag2 d + M * M)).
  rewrite Hmax.
  change (dsqrt (dsub (dmul (sqrt (Mag2 d + M * M)) (sqrt (Mag2 d + M * M)))
                      (dmul M M)))
    with (sqrt (sqrt (Mag2 d + M * M) * sqrt (Mag2 d + M * M) - M * M)).
  rewrite Hmom, Hunit. reflexivity.
Qed.

(** The builder of the final state without decays never rejects a point,
    and the Higgs boson it builds balances the top pair in the transverse
    plane: the momenta of t, tbar and h add up to zero along x and along
    y.  The Higgs boson is on its mass shell, with the longitudinal
    momentum [x[Pz_h]]. *)
Theorem create_PS_TTH_balances_transverse_momentum
        (st : Integrand R) (ps ps' : PS R) (x : list R) (perm : list Z)
        (accept : Z) :
  (forall u : TVector3 R, scale (Geo.Unit u) (sqrt (Mag2 u)) = u) ->
  (0 <= Const.MH c)%R ->
  Const.MH2 c = (Const.MH c * Const.MH c)%R ->
  Builders.create_PS_TTH c v m st ps x perm = Done (ps', accept) ->
  accept = 0%Z
  /\ exists lv_t lv_tbar lv_h : LV R,
      PS_lv ps' PSPart.t = Done lv_t
      /\ PS_lv ps' PSPart.tbar = Done lv_tbar
      /\ PS_lv ps' PSPart.h = Done lv_h
      /\ (X (Vect lv_t) + X (Vect lv_tbar) + X (Vect lv_h) = 0)%R
      /\ (Y (Vect lv_t) + Y (Vect lv_tbar) + Y (Vect lv_h) = 0)%R
      /\ Builders.xvar m x (PSVars.Pz_h v) = Done (Z3 (Vect lv_h))
      /\ (E lv_h * E lv_h
          = Mag2 (Vect lv_h) + Const.MH c * Const.MH c)%R.
Proof.
  intros Hunit HMH HMH2 Hrun.
  unfold Builders.create_PS_TTH in Hrun.
  apply bind_Done in Hrun. destruct Hrun as (dir1 & _ & Hrun).
  apply bind_Done in Hrun. destruct Hrun as (P1 & _ & Hrun).
  apply bind_Done in Hrun. destruct Hrun as (dir2 & _ & Hrun).
  apply bind_Done in Hrun. destruct Hrun as (P2 & _ & Hrun).
  remember (extend_PS_nodebug ps PSPart.t _ _ dir1) as ps1 eqn:Hps1.
  remember (extend_PS_nodebug ps1 PSPart.tbar _ _ dir2) as ps2 eqn:Hps2.
  apply bind_Done in Hrun. destruct Hrun as (lv_t & Ht & Hrun).
  apply bind_Done in Hrun. destruct Hrun as (lv_tbar & Htbar & Hrun).
  apply bind_Done in Hrun. destruct Hrun as (Pz & HPz & Hrun).
  rewrite (extend_PS_on_shell ps2 PSPart.h _ _ _ Hunit HMH HMH2) in Hrun.
  injection Hrun as <- <-.
  split; [reflexivity|].
  exists lv_t, lv_tbar.
  eexists.
  split; [rewrite PS_lv_set_other by reflexivity; exact Ht|].
  split; [rewrite PS_lv_set_other by reflexivity; exact Htbar|].
  split; [apply PS_lv_set|].
  cbn [lv Vect E X Y Z3].
  unfold Builders.neg.
  change (frac (-1) 1) with (IZR (-1) / IZR 1)%R.
  change (@dmul R ideal) with Rmult. change (@dsub R ideal) with Rminus.
  split; [field|]. split; [field|]. split; [exact HPz|].
  apply sqrt_sqrt.
  pose proof (Mag2_nonneg {| X := (-1 / 1 * X (Vect lv_t) - X (Vect lv_tbar))%R;
                             Y := (-1 / 1 * Y (Vect lv_t) - Y (Vect lv_tbar))%R;
                             Z3 := Pz |}).
  nra.
Qed.

End BuilderTTH.

Lemma RealGeometry_Unit_scaled_back (u : TVector3 R) :
  scale (RealGeometry.Unit u) (sqrt (Mag2 u)) = u.
Proof.
  unfold RealGeometry.Unit, scale. cbn [X Y Z3 dmul ideal].
  destruct u as [x y z]. cbn [X Y Z3].
  set (n2 := Mag2 {| X := x; Y := y; Z3 := z |}).
  assert (Hn2 : n2 = (x * x + y * y + z * z)%R) by (unfold n2, Mag2; cbn; ring).
  destruct (Rltb 0 n2) eqn:Hpos; real_cmp Hpos.
  - assert (Hs : (0 < sqrt n2)%R) by (apply sqrt_lt_R0; exact Hpos).
    f_equal; field; lra.
  - assert (Hzero : (x * x + y * y + z * z = 0)%R) by nra.
    assert (Hx : x = 0%R) by nra.
    assert (Hy : y = 0%R) by nra.
    assert (Hz : z = 0%R) by nra.
    subst. f_equal; ring.
Qed.

Lemma create_PS_TTH_balances_transverse_momentum_witness :
  exists ps' lv_t lv_tbar lv_h,
    Builders.create_PS_TTH (geo := RealGeometry.geo) RealGeometry.constants
                           EdgesExample.names RealGeometry.map_to_var
                           RealExample.event [] [100; 1; 0; 50; 1; 0; 30]%R []
    = Done (ps', 0%Z)
    /\ PS_lv ps' PSPart.t = Done lv_t
    /\ PS_lv ps' PSPart.tbar = Done lv_tbar
    /\ PS_lv ps' PSPart.h = Done lv_h
    /\ (X (Vect lv_t) + X (Vect lv_tbar) + X (Vect lv_h) = 0)%R
    /\ Z3 (Vect lv_h) = 30%R.
Proof.
  destruct (Builders.create_PS_TTH
              (geo := RealGeometry.geo) RealGeometry.constants
              EdgesExample.names RealGeometry.map_to_var
              RealExample.event [] [100; 1; 0; 50; 1; 0; 30]%R [])
    as [[ps' accept]| |] eqn:Hrun.
  - destruct (create_PS_TTH_balances_transverse_momentum
                (geo := RealGeometry.geo) RealGeometry.constants
                EdgesExample.names RealGeometry.map_to_var
                RealExample.event [] ps' [100; 1; 0; 50; 1; 0; 30]%R []
                accept RealGeometry_Unit_scaled_back)
      as (Hacc & lv_t & lv_tbar & lv_h & Ht & Htb & Hh & Hx & _ & Hz & _).
    + cbn. lra.
    + cbn. ring.
    + exact Hrun.
    + exists ps', lv_t, lv_tbar, lv_h. subst accept.
      repeat split; auto.
      cbn in Hz. injection Hz as Hz. symmetry. exact Hz.
  - cbn in Hrun. discriminate.
  - cbn in Hrun. discriminate.
Defined.

(** *** The builders of the final states with decays *)

(** The in/out parameter [accept] of [solve] is left as it was or set to
    -1. *)
Lemma solve_accept {D : Type} `{Double D} {LV TVector3 : Type}
      (pE pB : LV -> D) (pA : LV -> TVector3 -> D) (cs : D -> D)
      (p4_w : LV) (DM2 M : D) (e_b : TVector3) (target : D) (acc : Z) :
  snd (solve pE pB pA cs p4_w DM2 M e_b target acc) = acc
  \/ snd (solve pE pB pA cs p4_w DM2 M e_b target acc) = (-1)%Z.
Proof.
  unfold solve, no_solution.
  repeat match goal with
         | |- context [if ?b then _ else _] => destruct b
         end; cbn; auto.
Qed.

(** Inversion of the binds and of the pairs of a builder that returned. *)
Ltac unbind H :=
  repeat (cbv beta zeta in H;
          first
            [ apply bind_Done in H; destruct H as (? & ? & H)
            | match type of H with
              | context [match ?s with pair _ _ => _ end] =>
                  first [ is_var s; destruct s as [? ?]
                        | destruct s as [? ?] eqn:? ]
              end ]).

Section BuilderAccept.
Context {D : Type} `{Double D} {geo : Geo.Geometry D}.
Variable c : Const.Constants D.
Variable v : PSVars.Names.
Variable m : VarMap.
Variable emax : D.
Variable default_charge : Z.

Lemma solve__accept (l : LV D) (DM2 M : D) (d : TVector3 D) (t e : D)
      (acc a : Z) :
  Builders.solve_ l DM2 M d t acc = (e, a) ->
  acc = 0%Z \/ acc = (-1)%Z -> a = 0%Z \/ a = (-1)%Z.
Proof.
  intros Hs Hacc. unfold Builders.solve_ in Hs.
  pose proof (solve_accept (@E D) Geo.Beta Geo.Angle Geo.Cos l DM2 M d t acc)
    as Hsa.
  rewrite Hs in Hsa. cbn [snd] in Hsa. destruct Hsa as [-> | ->]; auto.
Qed.

(** The last stage: the energy of [bbar] is swept or solved for. *)
Lemma last_stage_accept (h : Hypo.Hypo) (x : list D) (ps : PS D)
      (lo hi : D) (d : TVector3 D) (t e : D) (acc a : Z) :
  (if Hypo.eqb h Hypo.TTBB
   then bind (Builders.xvar m x (PSVars.E_bbar v))
             (fun t => Done (dadd lo (dmul (dsub hi lo) t), acc))
   else bind (PS_lv ps PSPart.b)
             (fun l => Done (Builders.solve_ l (Const.DMH2 c) (Const.MB c)
                                             d t acc)))
  = Done (e, a) ->
  acc = 0%Z \/ acc = (-1)%Z -> a = 0%Z \/ a = (-1)%Z.
Proof.
  intros Hs Hacc. destruct (Hypo.eqb h Hypo.TTBB).
  - apply bind_Done in Hs. destruct Hs as (? & _ & [= _ <-]). exact Hacc.
  - apply bind_Done in Hs. destruct Hs as (l & _ & [= Hs]).
    exact (solve__accept _ _ _ _ _ _ _ _ Hs Hacc).
Qed.

Ltac accepts :=
  repeat match goal with
         | Hs : Builders.solve_ _ _ _ _ _ ?acc = (_, ?a) |- _ =>
             apply solve__accept in Hs;
             [| first [left; reflexivity | assumption]]
         | Hs : (if Hypo.eqb _ _ then _ else _) = Done (_, ?a) |- _ =>
             apply last_stage_accept in Hs;
             [| first [left; reflexivity | assumption]]
         end.

Lemma create_PS_LH_accept st ps x perm ps' accept :
  Builders.create_PS_LH c v m emax default_charge st ps x perm
  = Done (ps', accept) ->
  accept = 0%Z \/ accept = (-1)%Z.
Proof.
  intros Hrun. unfold Builders.create_PS_LH in Hrun.
  unbind Hrun. injection Hrun as _ <-. accepts. assumption.
Qed.

Lemma create_PS_LL_accept st ps x perm ps' accept :
  Builders.create_PS_LL c v m emax default_charge st ps x perm
  = Done (ps', accept) ->
  accept = 0%Z \/ accept = (-1)%Z.
Proof.
  intros Hrun. unfold Builders.create_PS_LL in Hrun.
  unbind Hrun. injection Hrun as _ <-. accepts. assumption.
Qed.

Lemma create_PS_HH_accept st ps x perm ps' accept :
  Builders.create_PS_HH c v m emax default_charge st ps x perm
  = Done (ps', accept) ->
  accept = 0%Z \/ accept = (-1)%Z.
Proof.
  intros Hrun. unfold Builders.create_PS_HH in Hrun.
  unbind Hrun. injection Hrun as _ <-. accepts. assumption.
Qed.

Lemma create_PS_TTH_accept st ps x perm ps' accept :
  Builders.create_PS_TTH c v m st ps x perm = Done (ps', accept) ->
  accept = 0%Z.
Proof.
  intros Hrun. unfold Builders.create_PS_TTH in Hrun.
  unbind Hrun. injection Hrun as _ <-. reflexivity.
Qed.

(** Whatever the final state, the builders of the source return 0 or -1:
    [probability] skips the point at -1, and hands 0 to [transfer] as the
    count of the particles out of range. *)
Theorem create_PS_returns_0_or_minus1
        (base : Collaborators D) (st : Integrand D) (ps ps' : PS D)
        (x : list D) (perm : list Z) (accept : Z) :
  create_PS (ext := with_builders c v m emax default_charge base)
            st ps x perm = Done (ps', accept) ->
  accept = 0%Z \/ accept = (-1)%Z.
Proof.
  unfold create_PS. cbn [create_PS_LH create_PS_LL create_PS_HH create_PS_TTH
                         with_builders].
  destruct (fs st); intros Hrun;
    first [ exact (create_PS_LH_accept _ _ _ _ _ _ Hrun)
          | exact (create_PS_LL_accept _ _ _ _ _ _ Hrun)
          | exact (create_PS_HH_accept _ _ _ _ _ _ Hrun)
          | left; exact (create_PS_TTH_accept _ _ _ _ _ _ Hrun)
          | injection Hrun as _ <-; left; reflexivity ].
Qed.

End BuilderAccept.

Section BuilderWindows.
Context {geo : Geo.Geometry R}.
Variable c : Const.Constants R.
Variable v : PSVars.Names.
Variable m : VarMap.
Variable emax : R.
Variable default_charge : Z.

(** An energy swept over a window that starts at the mass or above stays
    in the window, and the clamp of [extend_PS] leaves it alone. *)
Lemma sweep_in_window (M lo hi t : R) :
  (M <= lo)%R -> (lo <= hi)%R -> (0 <= t <= 1)%R ->
  (lo <= TMath_Max (lo + (hi - lo) * t)%R M <= hi)%R.
Proof.
  intros HM Hw Ht.
  assert (Hlo : (lo <= lo + (hi - lo) * t)%R) by nra.
  assert (Hhi : (lo + (hi - lo) * t <= hi)%R) by nra.
  rewrite TMath_Max_real, Rmax_left by lra. lra.
Qed.

Lemma getObs_find (o : Object R) (k : Observable.Observable) (a : R) :
  getObs o k = Done a -> find_obs (obs o) k = Some a.
Proof. unfold getObs. destruct (find_obs _ _); congruence. Qed.

(** The stage of [b] among the hypotheses of a builder that returned. *)
Ltac b_stage Hn Hp Hpos Hobj Hlo Hhi Ht :=
  match goal with
  | H1 : map_find _ PSPart.b = Done ?n' |- _ =>
      rewrite Hn in H1; injection H1 as <-
  end;
  match goal with
  | |- context [extend_PS _ PSPart.b _ _ _ ?p' _ _ _ _ _] =>
      match goal with
      | H1 : at_nat _ _ = Done p' |- _ =>
          rewrite Hp in H1; injection H1 as <-
      end
  end;
  match goal with
  | H1 : Builders.xvar _ _ (PSVars.E_b _) = Done ?t' |- _ =>
      rewrite Ht in H1; injection H1 as <-
  end;
  match goal with
  | |- context [extend_PS _ PSPart.b (_ + (_ - ?lo') * _)%R _ ?d ?p' _ _ _ _ _] =>
      match goal with
      | H1 : (if (0 <=? p')%Z then _ else _) = Done (d, lo', _) |- _ =>
          rewrite (proj2 (Z.leb_le 0 p') Hpos) in H1;
          unfold getObs in H1; rewrite Hobj in H1; cbn [bind] in H1;
          rewrite Hlo in H1; cbn [bind] in H1;
          rewrite Hhi in H1; cbn [bind] in H1;
          injection H1 as <- <- <-
      end
  end;
  rewrite (proj2 (Z.leb_le 0 _) Hpos);
  unfold extend_PS, PS_set; cbn [PS_find PSPart.eqb].

Lemma create_PS_LH_b_window st ps x perm ps' accept n p obj lo hi t :
  Builders.create_PS_LH c v m emax default_charge st ps x perm
  = Done (ps', accept) ->
  map_find (map_to_part st) PSPart.b = Done n ->
  at_nat perm n = Done p -> (0 <= p)%Z ->
  at_int (obs_jets st) p = Done obj ->
  find_obs (obs obj) Observable.E_LOW_B = Some lo ->
  find_obs (obs obj) Observable.E_HIGH_B = Some hi ->
  Builders.xvar m x (PSVars.E_b v) = Done t ->
  (Const.MB c <= lo)%R -> (lo <= hi)%R -> (0 <= t <= 1)%R ->
  exists g, PS_find ps' PSPart.b = Some g
            /\ type g = TFType.bReco
            /\ (lo <= E (lv g) <= hi)%R.
Proof.
  intros Hrun Hn Hp Hpos Hobj Hlo Hhi Ht HM Hw Ht01.
  unfold Builders.create_PS_LH in Hrun.
  unbind Hrun. injection Hrun as <- _.
  b_stage Hn Hp Hpos Hobj Hlo Hhi Ht.
  eexists. split; [reflexivity|]. cbn [type lv E].
  split; [reflexivity|].
  apply sweep_in_window; assumption.
Qed.

Lemma create_PS_LL_b_window st ps x perm ps' accept n p obj lo hi t :
  Builders.create_PS_LL c v m emax default_charge st ps x perm
  = Done (ps', accept) ->
  map_find (map_to_part st) PSPart.b = Done n ->
  at_nat perm n = Done p -> (0 <= p)%Z ->
  at_int (obs_jets st) p = Done obj ->
  find_obs (obs obj) Observable.E_LOW_B = Some lo ->
  find_obs (obs obj) Observable.E_HIGH_B = Some hi ->
  Builders.xvar m x (PSVars.E_b v) = Done t ->
  (Const.MB c <= lo)%R -> (lo <= hi)%R -> (0 <= t <= 1)%R ->
  exists g, PS_find ps' PSPart.b = Some g
            /\ type g = TFType.bReco
            /\ (lo <= E (lv g) <= hi)%R.
Proof.
  intros Hrun Hn Hp Hpos Hobj Hlo Hhi Ht HM Hw Ht01.
  unfold Builders.create_PS_LL in Hrun.
  unbind Hrun. injection Hrun as <- _.
  b_stage Hn Hp Hpos Hobj Hlo Hhi Ht.
  eexists. split; [reflexivity|]. cbn [type lv E].
  split; [reflexivity|].
  apply sweep_in_window; assumption.
Qed.

Lemma create_PS_HH_b_window st ps x perm ps' accept n p obj lo hi t :
  Builders.create_PS_HH c v m emax default_charge st ps x perm
  = Done (ps', accept) ->
  map_find (map_to_part st) PSPart.b = Done n ->
  at_nat perm n = Done p -> (0 <= p)%Z ->
  at_int (obs_jets st) p = Done obj ->
  find_obs (obs obj) Observable.E_LOW_B = Some lo ->
  find_obs (obs obj) Observable.E_HIGH_B = Some hi ->
  Builders.xvar m x (PSVars.E_b v) = Done t ->
  (Const.MB c <= lo)%R -> (lo <= hi)%R -> (0 <= t <= 1)%R ->
  exists g, PS_find ps' PSPart.b = Some g
            /\ type g = TFType.bReco
            /\ (lo <= E (lv g) <= hi)%R.
Proof.
  intros Hrun Hn Hp Hpos Hobj Hlo Hhi Ht HM Hw Ht01.
  unfold Builders.create_PS_HH in Hrun.
  unbind Hrun. injection Hrun as <- _.
  b_stage Hn Hp Hpos Hobj Hlo Hhi Ht.
  eexists. split; [reflexivity|]. cbn [type lv E].
  split; [reflexivity|].
  apply sweep_in_window; assumption.
Qed.

(** A b quark of the Higgs decay that is matched to a jet gets an energy
    inside the window of that jet, in the three final states with decays:
    the integration variable [x[E_b]] in [0,1] sweeps the window
    [E_LOW_B, E_HIGH_B], and the clamp to the mass does not move it when
    the window starts at the mass or above.  This holds for rejected
    points as well. *)
Theorem create_PS_reco_b_energy_in_window
        (base : Collaborators R) (st : Integrand R) (ps ps' : PS R)
        (x : list R) (perm : list Z) (accept : Z)
        (n : nat) (p : Z) (obj : Object R) (lo hi t : R) :
  In (fs st) [FinalState.LH; FinalState.LL; FinalState.HH] ->
  create_PS (ext := with_builders c v m emax default_charge base)
            st ps x perm = Done (ps', accept) ->
  map_find (map_to_part st) PSPart.b = Done n ->
  at_nat perm n = Done p -> (0 <= p)%Z ->
  at_int (obs_jets st) p = Done obj ->
  find_obs (obs obj) Observable.E_LOW_B = Some lo ->
  find_obs (obs obj) Observable.E_HIGH_B = Some hi ->
  Builders.xvar m x (PSVars.E_b v) = Done t ->
  (Const.MB c <= lo)%R -> (lo <= hi)%R -> (0 <= t <= 1)%R ->
  exists g, PS_find ps' PSPart.b = Some g
            /\ type g = TFType.bReco
            /\ (lo <= E (lv g) <= hi)%R.
Proof.
  intros Hfs Hrun Hn Hp Hpos Hobj Hlo Hhi Ht HM Hw Ht01.
  unfold create_PS in Hrun.
  cbn [create_PS_LH create_PS_LL create_PS_HH create_PS_TTH with_builders]
    in Hrun.
  destruct Hfs as [Hfs | [Hfs | [Hfs | []]]]; rewrite <- Hfs in Hrun.
  - exact (create_PS_LH_b_window _ _ _ _ _ _ _ _ _ _ _ _
             Hrun Hn Hp Hpos Hobj Hlo Hhi Ht HM Hw Ht01).
  - exact (create_PS_LL_b_window _ _ _ _ _ _ _ _ _ _ _ _
             Hrun Hn Hp Hpos Hobj Hlo Hhi Ht HM Hw Ht01).
  - exact (create_PS_HH_b_window _ _ _ _ _ _ _ _ _ _ _ _
             Hrun Hn Hp Hpos Hobj Hlo Hhi Ht HM Hw Ht01).
Qed.

End BuilderWindows.



(** Evaluation of a builder on an example over the reals: the lookups
    compute, the results of [solve] stay as they are. *)
Ltac run_builder H :=
  repeat first
    [ progress cbn in H
    | progress (change (Pos.to_nat 1) with 1%nat in H;
                change (Pos.to_nat 2) with 2%nat in H;
                change (Pos.to_nat 3) with 3%nat in H;
                change (Pos.to_nat 4) with 4%nat in H;
                change (Pos.to_nat 5) with 5%nat in H)
    | match type of H with
      | context [Builders.solve_ ?a ?b ?c ?d ?e ?f] =>
          destruct (Builders.solve_ a b c d e f) as [? ?]
      end ].

Lemma create_PS_returns_0_or_minus1_witness :
  exists ps' accept,
    create_PS (ext := BuilderExample.ext) BuilderExample.event []
              BuilderExample.x [0; 1; 2; 3; 4; 5]%Z = Done (ps', accept)
    /\ (accept = 0%Z \/ accept = (-1)%Z).
Proof.
  destruct (create_PS (ext := BuilderExample.ext) BuilderExample.event []
                      BuilderExample.x [0; 1; 2; 3; 4; 5]%Z)
    as [[ps' a]| |] eqn:Hrun.
  - exists ps', a. split; [reflexivity|].
    exact (create_PS_returns_0_or_minus1
             (geo := RealGeometry.geo) RealGeometry.constants
             EdgesExample.names BuilderExample.map_to_var 8000%R 0%Z
             BuilderExample.base BuilderExample.event [] ps'
             BuilderExample.x [0; 1; 2; 3; 4; 5]%Z a Hrun).
  - exfalso. run_builder Hrun. discriminate.
  - exfalso. run_builder Hrun. discriminate.
Defined.

Lemma create_PS_reco_b_energy_in_window_witness :
  exists ps' accept,
    create_PS (ext := BuilderExample.ext) BuilderExample.event []
              BuilderExample.x [0; 1; 2; 3; 4; 5]%Z = Done (ps', accept)
    /\ exists g, PS_find ps' PSPart.b = Some g
                 /\ type g = TFType.bReco
                 /\ (45 <= E (lv g) <= 180)%R.
Proof.
  destruct (create_PS (ext := BuilderExample.ext) BuilderExample.event []
                      BuilderExample.x [0; 1; 2; 3; 4; 5]%Z)
    as [[ps' a]| |] eqn:Hrun.
  - exists ps', a. split; [reflexivity|].
    apply (create_PS_reco_b_energy_in_window
             (geo := RealGeometry.geo) RealGeometry.constants
             EdgesExample.names BuilderExample.map_to_var 8000%R 0%Z
             BuilderExample.base BuilderExample.event [] ps'
             BuilderExample.x [0; 1; 2; 3; 4; 5]%Z a
             4%nat 4%Z (BuilderExample.jet 90 0 0 90 45 180)
             45%R 180%R (1 / 4)%R).
    + left. reflexivity.
    + exact Hrun.
    + reflexivity.
    + reflexivity.
    + lia.
    + reflexivity.
    + reflexivity.
    + reflexivity.
    + reflexivity.
    + cbn. lra.
    + lra.
    + lra.
  - exfalso. run_builder Hrun. discriminate.
  - exfalso. run_builder Hrun. discriminate.
Defined.

(** *** The matrix element on a built point *)

Section BuiltPoint.
Context {D : Type} `{Double D} {geo : Geo.Geometry D}.
Variable c : Const.Constants D.
Variable v : PSVars.Names.
Variable m : VarMap.
Variable emax : D.
Variable default_charge : Z.
Variable base : Collaborators D.

(** The lookups of [matrix] on a point made of [extend_PS]. *)
Ltac lookups :=
  unfold extend_PS, extend_PS_nodebug, PS_set, PS_lv, PS_charge;
  cbn [PS_find PSPart.eqb bind];
  repeat match goal with
         | |- context [match ?s with pair _ _ => _ end] =>
             destruct s as [? ?]
         end;
  cbn [bind];
  match goal with
  | |- context [if ?b then _ else _] => destruct b
  end; eauto.

(** [matrix] reads no role of the point that the builder of the final
    state has not set: on every point that [create_PS] returns, whether
    accepted or rejected, [matrix] returns a value. *)
Theorem matrix_defined_on_built_point
        (st : Integrand D) (ps ps' : PS D) (x : list D) (perm : list Z)
        (accept : Z) :
  In (fs st) [FinalState.LH; FinalState.LL; FinalState.HH; FinalState.TTH] ->
  create_PS (ext := with_builders c v m emax default_charge base)
            st ps x perm = Done (ps', accept) ->
  exists w, matrix (ext := with_builders c v m emax default_charge base)
                   st ps' = Done w.
Proof.
  intros Hfs Hrun. unfold create_PS in Hrun.
  cbn [create_PS_LH create_PS_LL create_PS_HH create_PS_TTH with_builders]
    in Hrun.
  unfold matrix, matrix_nodecay, matrix_nodecay_product, matrix_product.
  destruct Hfs as [Hfs | [Hfs | [Hfs | [Hfs | []]]]]; rewrite <- Hfs in *;
    cbn [FinalState.eqb].
  - unfold Builders.create_PS_LH in Hrun.
    unbind Hrun. injection Hrun as <- _. lookups.
  - unfold Builders.create_PS_LL in Hrun.
    unbind Hrun. injection Hrun as <- _. lookups.
  - unfold Builders.create_PS_HH in Hrun.
    unbind Hrun. injection Hrun as <- _. lookups.
  - unfold Builders.create_PS_TTH in Hrun.
    unbind Hrun. injection Hrun as <- _. lookups.
Qed.

End BuiltPoint.

Lemma matrix_defined_on_built_point_witness :
  exists ps' accept w,
    create_PS (ext := BuilderExample.ext) BuilderExample.event []
              BuilderExample.x [0; 1; 2; 3; 4; 5]%Z = Done (ps', accept)
    /\ matrix (ext := BuilderExample.ext) BuilderExample.event ps' = Done w.
Proof.
  destruct (create_PS (ext := BuilderExample.ext) BuilderExample.event []
                      BuilderExample.x [0; 1; 2; 3; 4; 5]%Z)
    as [[ps' a]| |] eqn:Hrun.
  - destruct (matrix_defined_on_built_point
                (geo := RealGeometry.geo) RealGeometry.constants
                EdgesExample.names BuilderExample.map_to_var 8000%R 0%Z
                BuilderExample.base BuilderExample.event [] ps'
                BuilderExample.x [0; 1; 2; 3; 4; 5]%Z a)
      as (w & Hw).
    + left. reflexivity.
    + exact Hrun.
    + exists ps', a, w. split; [reflexivity | exact Hw].
  - exfalso. run_builder Hrun. discriminate.
  - exfalso. run_builder Hrun. discriminate.
Defined.
